(** * AutoSaveForm: the debounced auto-save component, embedded and verified

    The component under study is [AutoSaveForm] (React, function component).
    It keeps a two-field form in state, writes it to [localStorage] two
    seconds after the last edit, and shows a save status.

    The embedding follows the source function by function:

    - JavaScript values that flow through the component ([form],
      [lastSaved], the parsed storage record) are values of [jsval];
    - [JSON.stringify] / [JSON.parse], [localStorage], the timer queue
      ([setTimeout] / [clearTimeout]), the clock ([new Date().toISOString()])
      and [console.error] are the platform, modelled in the first half of the
      file;
    - the bodies of the two [useEffect] hooks, of [saveToLocalStorage] and
      of the three handlers are written in a small state-and-exception monad
      [M] over the record [World];
    - React itself is the function [flush]: after a handler or a timer
      callback has run, a changed [form] dependency re-runs the auto-save
      effect (cleanup of the previous run first);
    - what the component draws is the function [render], made of
      [FormStatus] and [FormPreview]; the runs of the component are driven by
      events and timers and do not depend on it;
    - the templates of the common patterns that work on the same platform
      or on plain lists ([useLocalStorage], [PaginatedList], [DragAndDrop],
      [ListManagement]) follow, each in a module of its own. *)

From Stdlib Require Import String Ascii NArith ZArith List Lia DecimalString.
From Stdlib Require DecimalPos DecimalN DecimalFacts.
From stdpp Require Import base option list strings gmap.

Set Warnings "-register-all".
Local Open Scope string_scope.
Local Open Scope N_scope.

(** ** JavaScript values

    Strings are byte strings, read as UTF-8. An object is the list of its own
    properties in creation order; keys that are array indices, which
    JavaScript lists first, keep their creation order here too (the component
    creates none). A number is kept as the decimal it was written as. *)

Inductive jsval : Type :=
| JUndefined
| JNull
| JBool (b : bool)
| JNum (neg : bool) (m : N) (e : Z)   (* the number (-1)^neg * m * 10^e *)
| JStr (s : string)
| JArr (xs : list jsval)
| JObj (ps : list (string * jsval)).  (* own properties, in creation order *)

(** Exceptions the modelled code can meet. *)
Inductive exn : Type := SyntaxError | TypeError | QuotaExceededError.

Inductive result (A : Type) : Type :=
| Ok (a : A)
| Throw (e : exn).
Arguments Ok {A} a.
Arguments Throw {A} e.

(** [ToBoolean]. A number is falsy when it is zero as an IEEE double: the
    literal is zero, or it rounds to zero (at most 2^-1075 in magnitude). *)
Definition truthy (v : jsval) : bool :=
  match v with
  | JUndefined | JNull => false
  | JBool b => b
  | JNum _ m e =>
      if (0 <=? e)%Z then negb (m =? 0)
      else negb (m * 2 ^ 1075 <=? 10 ^ Z.to_N (- e))
  | JStr s => negb (String.eqb s "")
  | JArr _ | JObj _ => true
  end.

Fixpoint assoc_get (ps : list (string * jsval)) (k : string) : jsval :=
  match ps with
  | [] => JUndefined
  | (k', v) :: ps' => if String.eqb k' k then v else assoc_get ps' k
  end.

(** [o[k] = v] on the property list: an existing key keeps its place. *)
Fixpoint assoc_set (ps : list (string * jsval)) (k : string) (v : jsval)
  : list (string * jsval) :=
  match ps with
  | [] => [(k, v)]
  | (k', v') :: ps' =>
      if String.eqb k' k then (k, v) :: ps' else (k', v') :: assoc_set ps' k v
  end.

(** Property read [v.k] for the keys the component uses ([form], [timestamp],
    [title], [content]): a [TypeError] on [undefined] and [null], the own
    property of an object, [undefined] on everything else. *)
Definition get_prop (v : jsval) (k : string) : result jsval :=
  match v with
  | JUndefined | JNull => Throw TypeError
  | JObj ps => Ok (assoc_get ps k)
  | _ => Ok JUndefined
  end.

Definition nat_key (i : nat) : string :=
  NilZero.string_of_uint (Nat.to_uint i).

Fixpoint index_props {A} (f : A -> jsval) (i : nat) (xs : list A)
  : list (string * jsval) :=
  match xs with
  | [] => []
  | x :: xs' => (nat_key i, f x) :: index_props f (S i) xs'
  end.

Fixpoint chars (s : string) : list ascii :=
  match s with
  | EmptyString => []
  | String c s' => c :: chars s'
  end.

(** ** JSON *)

Module JSON.

Definition dquote : ascii := ascii_of_N 34.
Definition bslash : ascii := ascii_of_N 92.

Definition is_char (c : ascii) (n : N) : bool := N_of_ascii c =? n.

Definition hex_digit (n : N) : ascii :=
  if n <? 10 then ascii_of_N (48 + n) else ascii_of_N (87 + n).

Definition hex_val (c : ascii) : option N :=
  let n := N_of_ascii c in
  if (48 <=? n) && (n <=? 57) then Some (n - 48)
  else if (97 <=? n) && (n <=? 102) then Some (n - 87)
  else if (65 <=? n) && (n <=? 70) then Some (n - 55)
  else None.

(** *** Serialisation *)

(** One character of [QuoteJSONString]. *)
Definition quote_char (c : ascii) : string :=
  let n := N_of_ascii c in
  if n =? 8 then "\b"
  else if n =? 9 then "\t"
  else if n =? 10 then "\n"
  else if n =? 12 then "\f"
  else if n =? 13 then "\r"
  else if n =? 34 then String bslash (String dquote EmptyString)
  else if n =? 92 then String bslash (String bslash EmptyString)
  else if n <? 32 then
    "\u00" ++ String (hex_digit (n / 16)) (String (hex_digit (n mod 16)) EmptyString)
  else String c EmptyString.

Fixpoint quote_body (s : string) : string :=
  match s with
  | EmptyString => EmptyString
  | String c s' => quote_char c ++ quote_body s'
  end.

Definition quote (s : string) : string :=
  String dquote (quote_body s ++ String dquote EmptyString).

Fixpoint join (sep : string) (xs : list string) : string :=
  match xs with
  | [] => EmptyString
  | [x] => x
  | x :: xs' => x ++ sep ++ join sep xs'
  end.

Definition show_N (n : N) : string := NilZero.string_of_uint (N.to_uint n).

(** Numerals are printed from the decimal decomposition; the shortest
    round-trip digits of [Number::toString] are not computed. *)
Definition show_num (neg : bool) (m : N) (e : Z) : string :=
  (if neg && negb (m =? 0) then "-" else "")
  ++ show_N m
  ++ (if (e =? 0)%Z then ""
      else "e" ++ (if (e <? 0)%Z then "-" else "+") ++ show_N (Z.abs_N e)).

(** [SerializeJSONProperty]: [None] stands for [undefined]. *)
Fixpoint serialize (v : jsval) : option string :=
  match v with
  | JUndefined => None
  | JNull => Some "null"
  | JBool true => Some "true"
  | JBool false => Some "false"
  | JNum neg m e => Some (show_num neg m e)
  | JStr s => Some (quote s)
  | JArr xs =>
      Some ("[" ++ join "," (map (fun x => default "null" (serialize x)) xs) ++ "]")
  | JObj ps =>
      let member (p : string * jsval) : option string :=
        match serialize (snd p) with
        | Some t => Some (quote (fst p) ++ ":" ++ t)
        | None => None
        end in
      Some ("{" ++ join "," (omap member ps) ++ "}")
  end.

(** [JSON.stringify(v)] followed by the [ToString] that [setItem] applies to
    its argument. *)
Definition stringify (v : jsval) : string := default "undefined" (serialize v).

(** *** Parsing *)

Definition is_ws (c : ascii) : bool :=
  is_char c 32 || is_char c 9 || is_char c 10 || is_char c 13.

Fixpoint skip_ws (s : string) : string :=
  match s with
  | String c s' => if is_ws c then skip_ws s' else s
  | EmptyString => EmptyString
  end.

(** A string literal is read as a sequence of units: a byte copied from the
    text, or the 16-bit code unit of a [\uXXXX] escape. *)
Inductive sunit : Type := Byte (c : ascii) | U16 (n : N).

Definition unescape (c : ascii) : option ascii :=
  let n := N_of_ascii c in
  if n =? 34 then Some dquote
  else if n =? 92 then Some bslash
  else if n =? 47 then Some (ascii_of_N 47)
  else if n =? 98 then Some (ascii_of_N 8)
  else if n =? 102 then Some (ascii_of_N 12)
  else if n =? 110 then Some (ascii_of_N 10)
  else if n =? 114 then Some (ascii_of_N 13)
  else if n =? 116 then Some (ascii_of_N 9)
  else None.

Definition hex4 (a b c d : ascii) : option N :=
  match hex_val a, hex_val b, hex_val c, hex_val d with
  | Some x, Some y, Some z, Some w => Some (((x * 16 + y) * 16 + z) * 16 + w)
  | _, _, _, _ => None
  end.

(** The body of a string literal, after the opening quote. *)
Fixpoint parse_string_body (s : string) : option (list sunit * string) :=
  match s with
  | EmptyString => None
  | String c s' =>
      if is_char c 34 then Some ([], s')
      else if is_char c 92 then
        match s' with
        | EmptyString => None
        | String d s'' =>
            if is_char d 117 then
              match s'' with
              | String h1 (String h2 (String h3 (String h4 r))) =>
                  match hex4 h1 h2 h3 h4 with
                  | Some n =>
                      match parse_string_body r with
                      | Some (us, r') => Some (U16 n :: us, r')
                      | None => None
                      end
                  | None => None
                  end
              | _ => None
              end
            else
              match unescape d with
              | Some b =>
                  match parse_string_body s'' with
                  | Some (us, r') => Some (Byte b :: us, r')
                  | None => None
                  end
              | None => None
              end
        end
      else if N_of_ascii c <? 32 then None
      else
        match parse_string_body s' with
        | Some (us, r') => Some (Byte c :: us, r')
        | None => None
        end
  end.

(** Strings of the model are byte strings in UTF-8; code units from escapes
    are encoded, a surrogate pair as one code point. *)
Definition utf8 (cp : N) : string :=
  if cp <? 128 then String (ascii_of_N cp) EmptyString
  else if cp <? 2048 then
    String (ascii_of_N (192 + cp / 64))
      (String (ascii_of_N (128 + cp mod 64)) EmptyString)
  else if cp <? 65536 then
    String (ascii_of_N (224 + cp / 4096))
      (String (ascii_of_N (128 + (cp / 64) mod 64))
         (String (ascii_of_N (128 + cp mod 64)) EmptyString))
  else
    String (ascii_of_N (240 + cp / 262144))
      (String (ascii_of_N (128 + (cp / 4096) mod 64))
         (String (ascii_of_N (128 + (cp / 64) mod 64))
            (String (ascii_of_N (128 + cp mod 64)) EmptyString))).

Definition is_high (n : N) : bool := (55296 <=? n) && (n <? 56320).
Definition is_low (n : N) : bool := (56320 <=? n) && (n <? 57344).

Fixpoint encode_units (us : list sunit) : string :=
  match us with
  | [] => EmptyString
  | u :: us' =>
      match u, us' with
      | Byte c, _ => String c (encode_units us')
      | U16 hi, U16 lo :: us'' =>
          if is_high hi && is_low lo
          then utf8 (65536 + (hi - 55296) * 1024 + (lo - 56320)) ++ encode_units us''
          else utf8 hi ++ encode_units us'
      | U16 n, _ => utf8 n ++ encode_units us'
      end
  end.

Definition digit_val (c : ascii) : option N :=
  let n := N_of_ascii c in
  if (48 <=? n) && (n <=? 57) then Some (n - 48) else None.

(** Reads a run of decimal digits: value so far, number of digits read. *)
Fixpoint span_digits (s : string) (acc : N) (cnt : nat) : N * nat * string :=
  match s with
  | EmptyString => (acc, cnt, s)
  | String c s' =>
      match digit_val c with
      | Some d => span_digits s' (acc * 10 + d) (S cnt)
      | None => (acc, cnt, s)
      end
  end.

(** [-? int frac? exp?] of the JSON grammar. *)
Definition parse_number (s : string) : option (jsval * string) :=
  let '(neg, s1) :=
    match s with
    | String c s' => if is_char c 45 then (true, s') else (false, s)
    | EmptyString => (false, s)
    end in
  let int_part : option (N * string) :=
    match s1 with
    | String c s' =>
        if is_char c 48 then Some (0, s')
        else match digit_val c with
             | Some _ => let '(m, _, r) := span_digits s1 0 0 in Some (m, r)
             | None => None
             end
    | EmptyString => None
    end in
  match int_part with
  | None => None
  | Some (m, s2) =>
      let frac : option (N * nat * string) :=
        match s2 with
        | String c s' =>
            if is_char c 46 then
              let '(m', cnt, r) := span_digits s' m 0 in
              match cnt with O => None | _ => Some (m', cnt, r) end
            else Some (m, O, s2)
        | EmptyString => Some (m, O, s2)
        end in
      match frac with
      | None => None
      | Some (m', cnt, s3) =>
          let scale := (- Z.of_nat cnt)%Z in
          match s3 with
          | String c s' =>
              if is_char c 101 || is_char c 69 then
                let '(eneg, s4) :=
                  match s' with
                  | String d s'' =>
                      if is_char d 45 then (true, s'')
                      else if is_char d 43 then (false, s'')
                      else (false, s')
                  | EmptyString => (false, s')
                  end in
                let '(x, xcnt, r) := span_digits s4 0 0 in
                match xcnt with
                | O => None
                | _ =>
                    let ex := if eneg then (- Z.of_N x)%Z else Z.of_N x in
                    Some (JNum neg m' (ex + scale)%Z, r)
                end
              else Some (JNum neg m' scale, s3)
          | EmptyString => Some (JNum neg m' scale, s3)
          end
      end
  end.

Fixpoint strip_prefix (p s : string) : option string :=
  match p, s with
  | EmptyString, _ => Some s
  | String a p', String b s' => if Ascii.eqb a b then strip_prefix p' s' else None
  | String _ _, EmptyString => None
  end.

Inductive presult : Type :=
| POk (v : jsval) (rest : string)
| PErr
| PFuel.

Definition parse_literal (s : string) : presult :=
  match strip_prefix "true" s with
  | Some r => POk (JBool true) r
  | None =>
      match strip_prefix "false" s with
      | Some r => POk (JBool false) r
      | None =>
          match strip_prefix "null" s with
          | Some r => POk JNull r
          | None =>
              match parse_number s with
              | Some (v, r) => POk v r
              | None => PErr
              end
          end
      end
  end.

(** Recursive descent over values, array elements and object members. Every
    call takes one unit of [fuel]. *)
Fixpoint parse_value (fuel : nat) (s : string) : presult :=
  match fuel with
  | O => PFuel
  | S k =>
      match skip_ws s with
      | EmptyString => PErr
      | String c r =>
          if is_char c 34 then
            match parse_string_body r with
            | Some (us, r') => POk (JStr (encode_units us)) r'
            | None => PErr
            end
          else if is_char c 91 then
            match skip_ws r with
            | EmptyString => PErr
            | String d r' =>
                if is_char d 93 then POk (JArr []) r' else parse_elements k (String d r') []
            end
          else if is_char c 123 then
            match skip_ws r with
            | EmptyString => PErr
            | String d r' =>
                if is_char d 125 then POk (JObj []) r' else parse_members k (String d r') []
            end
          else parse_literal (String c r)
      end
  end
with parse_elements (fuel : nat) (s : string) (acc : list jsval) : presult :=
  match fuel with
  | O => PFuel
  | S k =>
      match parse_value k s with
      | POk v r =>
          match skip_ws r with
          | EmptyString => PErr
          | String c r' =>
              if is_char c 44 then parse_elements k r' (v :: acc)
              else if is_char c 93 then POk (JArr (rev (v :: acc))) r'
              else PErr
          end
      | PErr => PErr
      | PFuel => PFuel
      end
  end
with parse_members (fuel : nat) (s : string) (acc : list (string * jsval)) : presult :=
  match fuel with
  | O => PFuel
  | S k =>
      match skip_ws s with
      | EmptyString => PErr
      | String c r =>
          if is_char c 34 then
            match parse_string_body r with
            | None => PErr
            | Some (us, r1) =>
                match skip_ws r1 with
                | EmptyString => PErr
                | String d r2 =>
                    if is_char d 58 then
                      match parse_value k r2 with
                      | POk v r3 =>
                          let acc' := assoc_set acc (encode_units us) v in
                          match skip_ws r3 with
                          | EmptyString => PErr
                          | String e r4 =>
                              if is_char e 44 then parse_members k r4 acc'
                              else if is_char e 125 then POk (JObj acc') r4
                              else PErr
                          end
                      | PErr => PErr
                      | PFuel => PFuel
                      end
                    else PErr
                end
            end
          else PErr
      end
  end.

(** [JSON.parse]: one value, then only white space. *)
Definition parse (s : string) : result jsval :=
  match parse_value (2 * String.length s + 1) s with
  | POk v r =>
      match skip_ws r with
      | EmptyString => Ok v
      | String _ _ => Throw SyntaxError
      end
  | PErr | PFuel => Throw SyntaxError
  end.

End JSON.

(** ** Object spread *)

(** The UTF-16 code units of a string, each as a string of its own. A
    character of the basic plane (up to three bytes) makes one unit; a
    character outside it (four bytes) makes the two units of its surrogate
    pair, each written as [encode_units] writes a surrogate that stands
    alone. *)
Fixpoint code_units (s : string) : list string :=
  match s with
  | EmptyString => []
  | String c1 s1 =>
      let b1 := N_of_ascii c1 in
      if b1 <? 192 then String c1 EmptyString :: code_units s1
      else
        match s1 with
        | EmptyString => [s]
        | String c2 s2 =>
            if b1 <? 224 then String c1 (String c2 EmptyString) :: code_units s2
            else
              match s2 with
              | EmptyString => [s]
              | String c3 s3 =>
                  if b1 <? 240 then
                    String c1 (String c2 (String c3 EmptyString)) :: code_units s3
                  else
                    match s3 with
                    | EmptyString => [s]
                    | String c4 s4 =>
                        let cp := (b1 mod 8) * 262144
                                  + (N_of_ascii c2 mod 64) * 4096
                                  + (N_of_ascii c3 mod 64) * 64
                                  + N_of_ascii c4 mod 64 in
                        let v := cp - 65536 in
                        JSON.utf8 (55296 + v / 1024)
                        :: JSON.utf8 (56320 + v mod 1024)
                        :: code_units s4
                    end
              end
        end
  end.

(** The own enumerable properties copied by an object spread [{...v}]: the
    properties of an object, the members of an array and the code units of
    a string under their indices. *)
Definition spread (v : jsval) : list (string * jsval) :=
  match v with
  | JObj ps => ps
  | JArr xs => index_props id 0 xs
  | JStr s => index_props JStr 0 (code_units s)
  | _ => []
  end.

(** ** The platform: clock, storage, timers, console *)

Definition pad (width : nat) (n : N) : string :=
  let s := JSON.show_N n in
  String.concat "" (replicate (width - String.length s) "0") ++ s.

(** [new Date(ms).toISOString()] for a clock reading in milliseconds since
    the epoch. *)
Definition toISOString (ms : N) : string :=
  let r := ms mod 86400000 in
  let z := ms / 86400000 + 719468 in
  let era := z / 146097 in
  let doe := z mod 146097 in
  let yoe := (doe - doe / 1460 + doe / 36524 - doe / 146096) / 365 in
  let doy := doe - (365 * yoe + yoe / 4 - yoe / 100) in
  let mp := (5 * doy + 2) / 153 in
  let d := doy - (153 * mp + 2) / 5 + 1 in
  let m := if mp <? 10 then mp + 3 else mp - 9 in
  let y := yoe + era * 400 + (if m <=? 2 then 1 else 0) in
  (if y <=? 9999 then pad 4 y else "+" ++ pad 6 y)
  ++ "-" ++ pad 2 m ++ "-" ++ pad 2 d
  ++ "T" ++ pad 2 (r / 3600000) ++ ":" ++ pad 2 (r / 60000 mod 60)
  ++ ":" ++ pad 2 (r / 1000 mod 60) ++ "." ++ pad 3 (r mod 1000) ++ "Z".

(** The five values the source passes to [setStatus]. *)
Inductive SaveStatus : Type := idle | unsaved | saving | saved | error.

(** The three arrow functions the source hands to [setTimeout]. The save
    callback calls the [saveToLocalStorage] of the render that armed it, which
    closes over that render's [form]. *)
Inductive callback : Type :=
| LoadedTimer                 (* () => setStatus("saved"), armed by the load effect *)
| SaveTimer (f : jsval)       (* () => { saveToLocalStorage(); } *)
| StatusTimer.                (* () => { setStatus("saved"); }, the 500 ms one *)

Record timer : Type := { tid : nat; due : N; action : callback }.

(** Calls that change the store, in the order they were made. *)
Inductive store_call : Type :=
| SetItem (k v : string) (stored : bool)
| RemoveItem (k : string).

(** [localStorage]: the entries, the space left to the origin, and the call
    log of a test double. *)
Record Storage : Type := {
  items : gmap string string;
  quota : N;
  calls : list store_call
}.

Definition usage (m : gmap string string) : N :=
  map_fold (fun k v acc => N.of_nat (String.length k + String.length v) + acc) 0 m.

Record World : Type := {
  (* useState *)
  form : jsval;
  status : SaveStatus;
  lastSaved : jsval;
  (* useRef *)
  saveTimerRef : option nat;
  statusTimerRef : option nat;
  (* React bookkeeping *)
  mounted : bool;
  formChanged : bool;     (* setForm was called since the last effect run *)
  hasCleanup : bool;      (* the last run of the auto-save effect returned its cleanup *)
  (* platform *)
  clock : N;
  timers : list timer;
  nextTimer : nat;
  localStorage : Storage;
  console : list (string * exn)
}.

(** Field updates. [setForm] always receives a new object, so [with_form]
    also records that the [form] dependency has changed. *)
Definition with_form (v : jsval) (w : World) : World :=
  {| form := v; status := status w; lastSaved := lastSaved w;
     saveTimerRef := saveTimerRef w; statusTimerRef := statusTimerRef w;
     mounted := mounted w; formChanged := true; hasCleanup := hasCleanup w;
     clock := clock w; timers := timers w; nextTimer := nextTimer w;
     localStorage := localStorage w; console := console w |}.

Definition with_status (v : SaveStatus) (w : World) : World :=
  {| form := form w; status := v; lastSaved := lastSaved w;
     saveTimerRef := saveTimerRef w; statusTimerRef := statusTimerRef w;
     mounted := mounted w; formChanged := formChanged w; hasCleanup := hasCleanup w;
     clock := clock w; timers := timers w; nextTimer := nextTimer w;
     localStorage := localStorage w; console := console w |}.

Definition with_lastSaved (v : jsval) (w : World) : World :=
  {| form := form w; status := status w; lastSaved := v;
     saveTimerRef := saveTimerRef w; statusTimerRef := statusTimerRef w;
     mounted := mounted w; formChanged := formChanged w; hasCleanup := hasCleanup w;
     clock := clock w; timers := timers w; nextTimer := nextTimer w;
     localStorage := localStorage w; console := console w |}.

Definition with_saveTimerRef (v : option nat) (w : World) : World :=
  {| form := form w; status := status w; lastSaved := lastSaved w;
     saveTimerRef := v; statusTimerRef := statusTimerRef w;
     mounted := mounted w; formChanged := formChanged w; hasCleanup := hasCleanup w;
     clock := clock w; timers := timers w; nextTimer := nextTimer w;
     localStorage := localStorage w; console := console w |}.

Definition with_statusTimerRef (v : option nat) (w : World) : World :=
  {| form := form w; status := status w; lastSaved := lastSaved w;
     saveTimerRef := saveTimerRef w; statusTimerRef := v;
     mounted := mounted w; formChanged := formChanged w; hasCleanup := hasCleanup w;
     clock := clock w; timers := timers w; nextTimer := nextTimer w;
     localStorage := localStorage w; console := console w |}.

(** The three React bookkeeping fields at once. *)
Definition with_react (m c h : bool) (w : World) : World :=
  {| form := form w; status := status w; lastSaved := lastSaved w;
     saveTimerRef := saveTimerRef w; statusTimerRef := statusTimerRef w;
     mounted := m; formChanged := c; hasCleanup := h;
     clock := clock w; timers := timers w; nextTimer := nextTimer w;
     localStorage := localStorage w; console := console w |}.

Definition with_clock (v : N) (w : World) : World :=
  {| form := form w; status := status w; lastSaved := lastSaved w;
     saveTimerRef := saveTimerRef w; statusTimerRef := statusTimerRef w;
     mounted := mounted w; formChanged := formChanged w; hasCleanup := hasCleanup w;
     clock := v; timers := timers w; nextTimer := nextTimer w;
     localStorage := localStorage w; console := console w |}.

Definition with_timers (v : list timer) (n : nat) (w : World) : World :=
  {| form := form w; status := status w; lastSaved := lastSaved w;
     saveTimerRef := saveTimerRef w; statusTimerRef := statusTimerRef w;
     mounted := mounted w; formChanged := formChanged w; hasCleanup := hasCleanup w;
     clock := clock w; timers := v; nextTimer := n;
     localStorage := localStorage w; console := console w |}.

Definition with_localStorage (v : Storage) (w : World) : World :=
  {| form := form w; status := status w; lastSaved := lastSaved w;
     saveTimerRef := saveTimerRef w; statusTimerRef := statusTimerRef w;
     mounted := mounted w; formChanged := formChanged w; hasCleanup := hasCleanup w;
     clock := clock w; timers := timers w; nextTimer := nextTimer w;
     localStorage := v; console := console w |}.

Definition with_console (v : list (string * exn)) (w : World) : World :=
  {| form := form w; status := status w; lastSaved := lastSaved w;
     saveTimerRef := saveTimerRef w; statusTimerRef := statusTimerRef w;
     mounted := mounted w; formChanged := formChanged w; hasCleanup := hasCleanup w;
     clock := clock w; timers := timers w; nextTimer := nextTimer w;
     localStorage := localStorage w; console := v |}.

(** ** The monad of component code

    A computation runs on a [World] and returns a value or throws; the
    world reached when it throws is kept, so that [try_catch] resumes from
    the state at the throw, as a JavaScript [try] block does. *)

Definition M (A : Type) : Type := World -> result A * World.

Definition ret {A} (a : A) : M A := fun w => (Ok a, w).

Definition bind {A B} (m : M A) (f : A -> M B) : M B :=
  fun w => match m w with
           | (Ok a, w') => f a w'
           | (Throw e, w') => (Throw e, w')
           end.

Definition try_catch {A} (body : M A) (handler : exn -> M A) : M A :=
  fun w => match body w with
           | (Ok a, w') => (Ok a, w')
           | (Throw e, w') => handler e w'
           end.

Definition lift {A} (r : result A) : M A := fun w => (r, w).

Declare Scope js_scope.
Delimit Scope js_scope with js.
Notation "'let*' x := m 'in' k" := (bind m (fun x => k))
  (at level 10, x name, m at level 100, k at level 200) : js_scope.
Notation "m ;;; k" := (bind m (fun _ => k))
  (at level 100, k at level 200, right associativity) : js_scope.
Local Open Scope js_scope.

Definition exec {A} (m : M A) (w : World) : World := snd (m w).

(** State setters are ignored once the component is unmounted. *)
Definition setForm (v : jsval) : M unit :=
  fun w => (Ok tt, if mounted w then with_form v w else w).
Definition setStatus (v : SaveStatus) : M unit :=
  fun w => (Ok tt, if mounted w then with_status v w else w).
Definition setLastSaved (v : jsval) : M unit :=
  fun w => (Ok tt, if mounted w then with_lastSaved v w else w).
Definition getForm : M jsval := fun w => (Ok (form w), w).

(** [ref.current] read and written. *)
Definition get_saveTimerRef : M (option nat) := fun w => (Ok (saveTimerRef w), w).
Definition set_saveTimerRef (v : option nat) : M unit :=
  fun w => (Ok tt, with_saveTimerRef v w).
Definition get_statusTimerRef : M (option nat) := fun w => (Ok (statusTimerRef w), w).
Definition set_statusTimerRef (v : option nat) : M unit :=
  fun w => (Ok tt, with_statusTimerRef v w).

Definition setTimeout (cb : callback) (delay : N) : M nat :=
  fun w =>
    let id := nextTimer w in
    (Ok id,
     with_timers (timers w ++ [{| tid := id; due := clock w + delay; action := cb |}])
       (S id) w).

Definition cancel (id : nat) (ts : list timer) : list timer :=
  filter (fun t => tid t <> id) ts.

(** [clearTimeout(ref.current)]: [null] and ids of timers that are no longer
    pending are ignored. *)
Definition clearTimeout (r : option nat) : M unit :=
  fun w =>
    (Ok tt,
     match r with
     | Some id => with_timers (cancel id (timers w)) (nextTimer w) w
     | None => w
     end).

Definition localStorage_getItem (k : string) : M (option string) :=
  fun w => (Ok (items (localStorage w) !! k), w).

(** [setItem] throws [QuotaExceededError], and stores nothing, when the new
    entry does not fit. *)
Definition localStorage_setItem (k v : string) : M unit :=
  fun w =>
    let st := localStorage w in
    let m := <[k := v]> (items st) in
    if usage m <=? quota st then
      (Ok tt, with_localStorage
                {| items := m; quota := quota st;
                   calls := calls st ++ [SetItem k v true] |} w)
    else
      (Throw QuotaExceededError,
       with_localStorage
         {| items := items st; quota := quota st;
            calls := calls st ++ [SetItem k v false] |} w).

Definition localStorage_removeItem (k : string) : M unit :=
  fun w =>
    let st := localStorage w in
    (Ok tt, with_localStorage
              {| items := delete k (items st); quota := quota st;
                 calls := calls st ++ [RemoveItem k] |} w).

Definition console_error (msg : string) (e : exn) : M unit :=
  fun w => (Ok tt, with_console (console w ++ [(msg, e)]) w).

Definition Date_toISOString : M string := fun w => (Ok (toISOString (clock w)), w).

(** ** The component *)

Definition STORAGE_KEY : string := "autoSaveFormData".
Definition SAVE_DELAY : N := 2000.

(** [{ title: "", content: "" }] *)
Definition emptyForm : jsval := JObj [("title", JStr ""); ("content", JStr "")].

(** Load from localStorage on mount (first [useEffect]). *)
Definition loadEffect : M unit :=
  try_catch
    (let* stored := localStorage_getItem STORAGE_KEY in
     match stored with
     | Some text =>
         if truthy (JStr text) then
           let* data := lift (JSON.parse text) in
           let* f := lift (get_prop data "form") in
           setForm f ;;;
           let* t := lift (get_prop data "timestamp") in
           setLastSaved t ;;;
           setStatus saved ;;;
           let* _ := setTimeout LoadedTimer 2000 in
           ret tt
         else ret tt
     | None => ret tt
     end)
    (fun e => console_error "Error loading from localStorage:" e).

(** [!form.title && !form.content] *)
Definition isEmptyForm (f : jsval) : result bool :=
  match get_prop f "title" with
  | Throw e => Throw e
  | Ok t =>
      if truthy t then Ok false
      else match get_prop f "content" with
           | Throw e => Throw e
           | Ok c => Ok (negb (truthy c))
           end
  end.

(** Save to localStorage. [f] is the [form] of the render whose closure is
    called. *)
Definition saveToLocalStorage (f : jsval) : M unit :=
  try_catch
    (setStatus saving ;;;
     let* now := Date_toISOString in
     let data := JObj [("form", f); ("timestamp", JStr now)] in
     localStorage_setItem STORAGE_KEY (JSON.stringify data) ;;;
     setLastSaved (JStr now) ;;;
     let* pending := get_statusTimerRef in
     clearTimeout pending ;;;
     let* id := setTimeout StatusTimer 500 in
     set_statusTimerRef (Some id))
    (fun e =>
       console_error "Error saving to localStorage:" e ;;;
       setStatus error).

(** Auto-save when form changes (second [useEffect]), for a render with form
    [f]. The result tells whether the run returned its cleanup function. *)
Definition autoSaveEffect (f : jsval) : M bool :=
  let* empty := lift (isEmptyForm f) in
  if empty then ret false
  else
    setStatus unsaved ;;;
    let* pending := get_saveTimerRef in
    clearTimeout pending ;;;
    let* id := setTimeout (SaveTimer f) SAVE_DELAY in
    set_saveTimerRef (Some id) ;;;
    ret true.

(** The cleanup returned by the auto-save effect. *)
Definition autoSaveCleanup : M unit :=
  let* pending := get_saveTimerRef in
  clearTimeout pending.

(** [handleChange], for an event whose target has this [name] and [value]. *)
Definition handleChange (name value : string) : M unit :=
  let* prev := getForm in
  setForm (JObj (assoc_set (spread prev) name (JStr value))).

(** [handleClear]; [confirmed] is what [window.confirm] returned. *)
Definition handleClear (confirmed : bool) : M unit :=
  if confirmed then
    setForm emptyForm ;;;
    setLastSaved JNull ;;;
    setStatus idle ;;;
    try_catch
      (localStorage_removeItem STORAGE_KEY)
      (fun e => console_error "Error clearing localStorage:" e)
  else ret tt.

Definition handleManualSave : M unit :=
  let* pending := get_saveTimerRef in
  clearTimeout pending ;;;
  let* f := getForm in
  saveToLocalStorage f.

Definition run_callback (cb : callback) : M unit :=
  match cb with
  | LoadedTimer => setStatus saved
  | SaveTimer f => saveToLocalStorage f
  | StatusTimer => setStatus saved
  end.

(** ** React: effects after a commit, mounting, unmounting *)

(** What React does once a handler or callback has returned. State updates
    are committed; if [form] was set, the [[form]] dependency of the
    auto-save effect has changed (every [setForm] of the component passes a
    fresh object), so the cleanup of its previous run is called and the effect
    runs for the new [form]. An exception thrown while the new [form] is read
    takes the component down. *)
Definition flush (w : World) : World :=
  if mounted w && formChanged w then
    let w1 := if hasCleanup w then exec autoSaveCleanup w else w in
    match autoSaveEffect (form w1) w1 with
    | (Ok c, w2) => with_react true false c w2
    | (Throw _, w2) => with_react false false false w2
    end
  else w.

Definition initialWorld (store : Storage) (now : N) : World :=
  {| form := emptyForm; status := idle; lastSaved := JNull;
     saveTimerRef := None; statusTimerRef := None;
     mounted := true; formChanged := false; hasCleanup := false;
     clock := now; timers := []; nextTimer := 1;
     localStorage := store; console := [] |}.

(** The effects of the first render, in source order. Both close over the
    initial [form]. This is the state React commits next. *)
Definition mountEffects (store : Storage) (now : N) : World :=
  let w1 := exec loadEffect (initialWorld store now) in
  match autoSaveEffect emptyForm w1 with
  | (Ok c, w2) => with_react (mounted w2) (formChanged w2) c w2
  | (Throw _, w2) => with_react false false false w2
  end.

(** Mounting, up to the point where React is idle again. *)
Definition mount (store : Storage) (now : N) : World :=
  flush (mountEffects store now).

(** Unmounting calls the cleanup of the last effect run, if it returned one. *)
Definition unmount (w : World) : World :=
  if mounted w then
    with_react false false false
      (if hasCleanup w then exec autoSaveCleanup w else w)
  else w.

(** A user event reaches its handler only while the component is mounted. *)
Definition dispatch (handler : M unit) (w : World) : World :=
  if mounted w then flush (exec handler w) else w.

(** ** The timer queue *)

(** The pending timer that is due first; among equal due times, the one armed
    first. *)
Fixpoint earliest (ts : list timer) : option timer :=
  match ts with
  | [] => None
  | t :: ts' =>
      match earliest ts' with
      | Some t' => if due t' <? due t then Some t' else Some t
      | None => Some t
      end
  end.

Definition next_timer (horizon : N) (ts : list timer) : option timer :=
  match earliest ts with
  | Some t => if due t <=? horizon then Some t else None
  | None => None
  end.

(** The world in which the callback of [t] starts: [t] has left the queue
    and the clock reads its due time. *)
Definition dequeue (t : timer) (w : World) : World :=
  with_clock (N.max (clock w) (due t))
    (with_timers (cancel (tid t) (timers w)) (nextTimer w) w).

(** A timer fires: its callback runs and React commits. *)
Definition fire (t : timer) (w : World) : World :=
  flush (exec (run_callback (action t)) (dequeue t w)).

Fixpoint run_timers (fuel : nat) (horizon : N) (w : World) : World :=
  match fuel with
  | O => w
  | S k =>
      match next_timer horizon (timers w) with
      | Some t => run_timers k horizon (fire t w)
      | None => w
      end
  end.

(** Firing a save timer may arm one status timer, which may be due within the
    same span; nothing else arms a timer from a callback. *)
Definition cost (t : timer) : nat :=
  match action t with
  | SaveTimer _ => 2
  | _ => 1
  end.

Fixpoint weight (ts : list timer) : nat :=
  match ts with
  | [] => O
  | t :: ts' => (cost t + weight ts')%nat
  end.

(** [dt] milliseconds pass: every timer due by then fires, in order. *)
Definition advance (dt : N) (w : World) : World :=
  let horizon := clock w + dt in
  let w' := run_timers (weight (timers w)) horizon w in
  with_clock (N.max horizon (clock w')) w'.

(** ** Runs of the component *)

Inductive event : Type :=
| Change (name value : string)   (* typing into the input called [name] *)
| ManualSave                     (* the Save Now button *)
| Clear (confirmed : bool)       (* the Clear Form button, and the answer to the prompt *)
| Unmount
| Advance (dt : N).

Definition step (e : event) (w : World) : World :=
  match e with
  | Change name value => dispatch (handleChange name value) w
  | ManualSave => dispatch handleManualSave w
  | Clear confirmed => dispatch (handleClear confirmed) w
  | Unmount => unmount w
  | Advance dt => advance dt w
  end.

Definition run (es : list event) (w : World) : World :=
  fold_left (fun w e => step e w) es w.

Inductive reachable : World -> Prop :=
| reach_mount store now : reachable (mount store now)
| reach_step e w : reachable w -> reachable (step e w).

(** ** Observations and invariants *)

Definition is_save (t : timer) : bool :=
  match action t with
  | SaveTimer _ => true
  | _ => false
  end.

(** The [setItem] calls made so far, key and value, stored or refused. *)
Fixpoint set_calls (cs : list store_call) : list (string * string) :=
  match cs with
  | [] => []
  | SetItem k v _ :: cs' => (k, v) :: set_calls cs'
  | RemoveItem _ :: cs' => set_calls cs'
  end.

Definition writes (w : World) : list (string * string) :=
  set_calls (calls (localStorage w)).

(** The text [saveToLocalStorage] hands to [setItem] for form [f] at clock
    reading [now]. *)
Definition record (f : jsval) (now : N) : string :=
  JSON.stringify (JObj [("form", f); ("timestamp", JStr (toISOString now))]).

(** Whether that text fits the quota of the store of [w]. *)
Definition fits (f : jsval) (w : World) : bool :=
  usage (<[STORAGE_KEY := record f (clock w)]> (items (localStorage w)))
  <=? quota (localStorage w).

(** Every pending save timer is the one [saveTimerRef] holds, and the effect
    run that armed it has its cleanup registered on a mounted component. *)
Definition saves_tracked (ts : list timer) (m hc : bool) (r : option nat) : Prop :=
  ∀ t, t ∈ ts → is_save t = true → m = true ∧ hc = true ∧ r = Some (tid t).

(** Timer ids are distinct and below the next id to be handed out. *)
Definition ids_ok (ts : list timer) (n : nat) : Prop :=
  NoDup (tid <$> ts) ∧ Forall (fun t => (tid t < n)%nat) ts.

(** Holds while a handler or callback runs. *)
Definition Inv0 (w : World) : Prop :=
  saves_tracked (timers w) (mounted w) (hasCleanup w) (saveTimerRef w)
  ∧ ids_ok (timers w) (nextTimer w)
  ∧ (formChanged w = true → mounted w = true).

(** Holds whenever React is idle. *)
Definition Inv (w : World) : Prop := Inv0 w ∧ formChanged w = false.

(** What is left of the queue after [clearTimeout(r)]. *)
Definition cancel_ref (r : option nat) (ts : list timer) : list timer :=
  match r with
  | Some id => cancel id ts
  | None => ts
  end.

Definition save_free (ts : list timer) : Prop :=
  Forall (fun t => is_save t = false) ts.

(** A call of [saveToLocalStorage]: from the Save Now button, or from the
    save timer that fires next. [save_attempt w f w1 w'] relates the world
    before, the form saved, the world in which [saveToLocalStorage] starts
    and the world once React is idle again. *)
Inductive save_attempt : World -> jsval -> World -> World -> Prop :=
| attempt_manual w :
    mounted w = true ->
    save_attempt w (form w) (exec (clearTimeout (saveTimerRef w)) w) (step ManualSave w)
| attempt_timer w horizon t f :
    next_timer horizon (timers w) = Some t ->
    action t = SaveTimer f ->
    save_attempt w f (dequeue t w) (fire t w).

(** Every pending save timer was armed for a form that is not empty. *)
Definition saves_nonempty (ts : list timer) : Prop :=
  Forall (fun t => ∀ f, action t = SaveTimer f -> isEmptyForm f = Ok false) ts.

(** Only a save timer can carry the id that [saveTimerRef] holds, and that
    id has been handed out. *)
Definition ref_owned (ts : list timer) (r : option nat) (n : nat) : Prop :=
  (∀ t, t ∈ ts -> r = Some (tid t) -> is_save t = true)
  ∧ (∀ id, r = Some id -> (id < n)%nat)
  ∧ Forall (fun t => (tid t < n)%nat) ts.

Definition Own (w : World) : Prop := ref_owned (timers w) (saveTimerRef w) (nextTimer w).

(** Right after an edit that left a non-empty form: the save timer for the
    current form is pending, due one debounce delay from now, and the
    [setItem] calls so far are [base]. *)
Definition armed (w : World) (base : list (string * string)) : Prop :=
  Inv w ∧ mounted w = true ∧ writes w = base
  ∧ ∃ t, t ∈ timers w ∧ action t = SaveTimer (form w) ∧ due t = clock w + SAVE_DELAY.

(** A save timer for form [f] is pending and due at [d], which is still
    ahead; the [setItem] calls so far are [base]. *)
Definition waiting (w : World) (base : list (string * string)) (f : jsval) (d : N)
  : Prop :=
  Inv w ∧ writes w = base ∧ clock w < d
  ∧ ∃ t, t ∈ timers w ∧ action t = SaveTimer f ∧ due t = d.

(** Time passing in several steps, and how much passes in all. *)
Definition elapse (dts : list N) (w : World) : World := run (Advance <$> dts) w.

Definition total (dts : list N) : N := foldr N.add 0 dts.

(** A burst of edits: each one [gap] milliseconds after the previous one. *)
Fixpoint burst (es : list (N * string * string)) (w : World) : World :=
  match es with
  | [] => w
  | (gap, name, value) :: es' =>
      burst es' (step (Change name value) (step (Advance gap) w))
  end.

Definition nonEmptyForm (f : jsval) : bool :=
  match isEmptyForm f with
  | Ok false => true
  | _ => false
  end.

(** Every edit of the burst comes before the debounce delay has passed and
    leaves a non-empty form. *)
Fixpoint burst_ok (es : list (N * string * string)) (w : World) : bool :=
  match es with
  | [] => true
  | (gap, name, value) :: es' =>
      let w' := step (Change name value) (step (Advance gap) w) in
      (gap <? SAVE_DELAY) && nonEmptyForm (form w') && burst_ok es' w'
  end.

(** The stored entry is absent, empty, or raises while it is decoded: in
    [JSON.parse], or in the read of [.form] from what was parsed. *)
Definition unreadable (store : Storage) : bool :=
  match items store !! STORAGE_KEY with
  | None => true
  | Some text =>
      if truthy (JStr text) then
        match JSON.parse text with
        | Throw _ => true
        | Ok data =>
            match get_prop data "form" with
            | Throw _ => true
            | Ok _ => false
            end
        end
      else true
  end.

(** The exception met while decoding, if any. *)
Definition decode_error (store : Storage) : option exn :=
  match items store !! STORAGE_KEY with
  | None => None
  | Some text =>
      if truthy (JStr text) then
        match JSON.parse text with
        | Throw e => Some e
        | Ok data =>
            match get_prop data "form" with
            | Throw e => Some e
            | Ok _ => None
            end
        end
      else None
  end.

(** A document: the two text fields of the form. *)
Definition document (title content : string) : jsval :=
  JObj [("title", JStr title); ("content", JStr content)].

(** An empty store with the usual five megabytes. *)
Definition emptyStore : Storage := {| items := ∅; quota := 5242880; calls := [] |}.

(** A store that holds [text] under the component's key. *)
Definition storeWith (text : string) : Storage :=
  {| items := {[STORAGE_KEY := text]}; quota := 5242880; calls := [] |}.

(** A store too small for any record of the component. *)
Definition tinyStore : Storage := {| items := ∅; quota := 16; calls := [] |}.

(** ** The view: [FormStatus] and [FormPreview] *)

(** *** Dates read back from text

    [Date_parse] reads text in the format [toISOString] writes,
    [YYYY-MM-DDTHH:mm:ss.sssZ], the year also as a sign and six digits, and
    gives its time value in milliseconds since the epoch. It reads no other
    text: the other forms of the standard and what each engine accepts beyond
    them are not modelled, and [Date_new] leaves the date of such text
    open. *)

Definition DayFromYear (y : Z) : Z :=
  (365 * (y - 1970) + (y - 1969) / 4 - (y - 1901) / 100 + (y - 1601) / 400)%Z.

Definition InLeapYear (y : Z) : bool :=
  ((y mod 4 =? 0) && (negb (y mod 100 =? 0) || (y mod 400 =? 0)))%Z.

(** Days of the year before the first of month [m], [m] from 1 to 12. *)
Definition DaysBeforeMonth (leap : bool) (m : Z) : Z :=
  (nth (Z.to_nat (m - 1)) [0; 31; 59; 90; 120; 151; 181; 212; 243; 273; 304; 334] 0
   + (if leap && (2 <? m) then 1 else 0))%Z.

Definition DaysInMonth (leap : bool) (m : Z) : Z :=
  (if m =? 2 then (if leap then 29 else 28)
   else if (m =? 4) || (m =? 6) || (m =? 9) || (m =? 11) then 30 else 31)%Z.

Definition MakeDay (y m d : Z) : Z :=
  (DayFromYear y + DaysBeforeMonth (InLeapYear y) m + d - 1)%Z.

Definition MakeTime (h mi s ms : Z) : Z :=
  (h * 3600000 + mi * 60000 + s * 1000 + ms)%Z.

(** [TimeClip]: a time value is at most 8.64e15 milliseconds from the epoch. *)
Definition TimeClip (t : Z) : option Z :=
  if (Z.abs t <=? 8640000000000000)%Z then Some t else None.

(** The first [k] characters of [s] and the rest, if [s] has that many. *)
Fixpoint take_chars (k : nat) (s : string) : option (string * string) :=
  match k, s with
  | O, _ => Some ("", s)
  | S k', String c s' =>
      match take_chars k' s' with
      | Some (a, rest) => Some (String c a, rest)
      | None => None
      end
  | S _, "" => None
  end.

(** A field of exactly [k] decimal digits. *)
Definition read_digits (k : nat) (s : string) : option (Z * string) :=
  '(a, rest) ← take_chars k s;
  d ← NilZero.uint_of_string a;
  Some (Z.of_N (N.of_uint d), rest).

Definition read_char (c : ascii) (s : string) : option string :=
  match s with
  | String c' rest => if Ascii.eqb c c' then Some rest else None
  | "" => None
  end.

Definition read_year (s : string) : option (Z * string) :=
  match s with
  | String "+" rest => read_digits 6 rest
  | String "-" rest =>
      '(y, rest') ← read_digits 6 rest;
      if (y =? 0)%Z then None else Some ((- y)%Z, rest')
  | _ => read_digits 4 s
  end.

Definition Date_parse (s : string) : option Z :=
  '(y, s) ← read_year s;
  s ← read_char "-" s;
  '(m, s) ← read_digits 2 s;
  s ← read_char "-" s;
  '(d, s) ← read_digits 2 s;
  s ← read_char "T" s;
  '(h, s) ← read_digits 2 s;
  s ← read_char ":" s;
  '(mi, s) ← read_digits 2 s;
  s ← read_char ":" s;
  '(sec, s) ← read_digits 2 s;
  s ← read_char "." s;
  '(ms, s) ← read_digits 3 s;
  s ← read_char "Z" s;
  if String.eqb s ""
     && (1 <=? m)%Z && (m <=? 12)%Z
     && (1 <=? d)%Z && (d <=? DaysInMonth (InLeapYear y) m)%Z
     && (h <=? 23)%Z && (mi <=? 59)%Z && (sec <=? 59)%Z
  then TimeClip (MakeDay y m d * 86400000 + MakeTime h mi sec ms)%Z
  else None.

(** [rs] in order, up to the first that throws. *)
Definition collect {A} (rs : list (result A)) : result (list A) :=
  foldr (fun r acc =>
           match r, acc with
           | Throw e, _ => Throw e
           | Ok _, Throw e => Throw e
           | Ok a, Ok l => Ok (a :: l)
           end) (Ok []) rs.

Definition has_own (ps : list (string * jsval)) (k : string) : bool :=
  existsb (fun p => String.eqb (fst p) k) ps.

(** [ToString], as [new Date(value)] applies it to an array or an object.
    The values are data, as [JSON.parse] returns them, so a property of an
    object is never a function. An object with a property [toString] of its
    own hides the method it would inherit, and the conversion throws a
    [TypeError] ([valueOf], own or inherited, gives no primitive value);
    any other object answers [[object Object]]. An array joins the texts of
    its members, nothing for [null] and [undefined]. A number is written as
    the decimal it is kept as. *)
Fixpoint ToString (v : jsval) : result string :=
  match v with
  | JUndefined => Ok "undefined"
  | JNull => Ok "null"
  | JBool true => Ok "true"
  | JBool false => Ok "false"
  | JNum neg m e => Ok (JSON.show_num neg m e)
  | JStr s => Ok s
  | JArr xs =>
      match collect (map (fun x => match x with
                                   | JUndefined | JNull => Ok ""
                                   | _ => ToString x
                                   end) xs) with
      | Ok ts => Ok (JSON.join "," ts)
      | Throw e => Throw e
      end
  | JObj ps => if has_own ps "toString" then Throw TypeError else Ok "[object Object]"
  end.

(** A [Date]: a time value, the invalid date, or a date that is left open
    because the model does not settle it. *)
Inductive date : Type :=
| Time (t : Z)
| InvalidDate
| OpenDate.

Definition Date_text (s : string) : date :=
  match Date_parse s with
  | Some t => Time t
  | None => OpenDate
  end.

Definition clipped (t : Z) : date :=
  match TimeClip t with
  | Some t' => Time t'
  | None => InvalidDate
  end.

(** [new Date(value)]. Text is parsed; an array or an object is turned into
    text first, which may throw; a whole number is a time value; the date of
    a number with a fraction is left open (its rounding to a double is not
    modelled); [true] is one millisecond, [false] and [null] the epoch. *)
Definition Date_new (value : jsval) : result date :=
  match value with
  | JStr s => Ok (Date_text s)
  | JArr _ | JObj _ =>
      match ToString value with
      | Ok s => Ok (Date_text s)
      | Throw e => Throw e
      end
  | JNum neg m e =>
      if (0 <=? e)%Z then
        let t := (Z.of_N m * 10 ^ e)%Z in
        Ok (clipped (if neg then - t else t)%Z)
      else if (Z.of_N m mod 10 ^ (- e) =? 0)%Z then
        let t := (Z.of_N m / 10 ^ (- e))%Z in
        Ok (clipped (if neg then - t else t)%Z)
      else Ok OpenDate
  | JBool true => Ok (Time 1)
  | JBool false | JNull => Ok (Time 0)
  | JUndefined => Ok InvalidDate
  end.

(** *** [FormStatus] *)

Record statusInfo : Type := { text : string; color : string }.

Definition getStatusInfo (status : SaveStatus) : statusInfo :=
  match status with
  | saving => {| text := "💾 Saving..."; color := "#2196F3" |}
  | saved => {| text := "✅ All changes saved"; color := "#4CAF50" |}
  | unsaved => {| text := "⚠️ Unsaved changes"; color := "#FF9800" |}
  | error => {| text := "❌ Error saving"; color := "#F44336" |}
  | idle => {| text := "📝 Start typing..."; color := "#999" |}
  end.

(** What [formatTimestamp] returns: a text of its own, or what
    [date.toLocaleString()] makes of the date, which depends on the locale
    and the time zone of the user and is kept as the date ([None] for the
    invalid date); [Unsettled] when the date is left open. *)
Inductive label : Type :=
| Text (s : string)
| LocaleString (date : option Z)
| Unsettled.

(** [formatTimestamp], called while the clock reads [now]. On an invalid
    date every comparison is false. For the minutes that are compared and
    printed, below sixty, the division of doubles and the division of
    integers agree. *)
Definition formatTimestamp (timestamp : jsval) (now : N) : result (option label) :=
  if negb (truthy timestamp) then Ok None
  else
    match Date_new timestamp with
    | Throw e => Throw e
    | Ok OpenDate => Ok (Some Unsettled)
    | Ok InvalidDate => Ok (Some (LocaleString None))
    | Ok (Time date) =>
        let diffMs := (Z.of_N now - date)%Z in
        let diffMins := (diffMs / 60000)%Z in
        if (diffMins <? 1)%Z then Ok (Some (Text "just now"))
        else if (diffMins =? 1)%Z then Ok (Some (Text "1 minute ago"))
        else if (diffMins <? 60)%Z then
          Ok (Some (Text (JSON.show_N (Z.to_N diffMins) ++ " minutes ago")))
        else Ok (Some (LocaleString (Some date)))
    end.

(** What [FormStatus] draws: the status line, and under it the line
    [Last saved: ...] when there is one. It throws what [formatTimestamp]
    throws. *)
Record statusView : Type := {
  statusLine : statusInfo;
  lastSavedLine : option (option label)
}.

Definition is_saved (s : SaveStatus) : bool :=
  match s with
  | saved => true
  | _ => false
  end.

Definition FormStatus (status : SaveStatus) (lastSaved : jsval) (now : N)
  : result statusView :=
  let statusInfo := getStatusInfo status in
  if truthy lastSaved && is_saved status then
    match formatTimestamp lastSaved now with
    | Ok l => Ok {| statusLine := statusInfo; lastSavedLine := Some l |}
    | Throw e => Throw e
    end
  else Ok {| statusLine := statusInfo; lastSavedLine := None |}.

(** *** [FormPreview] *)

(** The length of a string in UTF-16 code units, from its UTF-8 bytes: one
    for the first byte of a character, one more when that character lies
    outside the basic plane (four bytes), none for a continuation byte. *)
Fixpoint utf16_length (s : string) : N :=
  match s with
  | "" => 0
  | String c s' =>
      let b := N_of_ascii c in
      (if (128 <=? b) && (b <? 192) then 0 else if 240 <=? b then 2 else 1)
      + utf16_length s'
  end.

(** How many bytes the white space character at the head of [s] takes, 0 if
    there is none. White space is what [\s] matches: tab, line feed, vertical
    tab, form feed, carriage return, space, U+00A0, U+1680, U+2000 to U+200A,
    U+2028, U+2029, U+202F, U+205F, U+3000 and U+FEFF. *)
Definition space_width (s : string) : nat :=
  match s with
  | String c1 s1 =>
      let b1 := N_of_ascii c1 in
      if ((9 <=? b1) && (b1 <=? 13)) || (b1 =? 32) then 1%nat
      else
        match s1 with
        | String c2 s2 =>
            let b2 := N_of_ascii c2 in
            if (b1 =? 194) && (b2 =? 160) then 2%nat
            else
              match s2 with
              | String c3 _ =>
                  let b3 := N_of_ascii c3 in
                  if (b1 =? 225) && (b2 =? 154) && (b3 =? 128) then 3%nat
                  else if (b1 =? 226) && (b2 =? 128)
                          && (((128 <=? b3) && (b3 <=? 138))
                              || (b3 =? 168) || (b3 =? 169) || (b3 =? 175)) then 3%nat
                  else if (b1 =? 226) && (b2 =? 129) && (b3 =? 159) then 3%nat
                  else if (b1 =? 227) && (b2 =? 128) && (b3 =? 128) then 3%nat
                  else if (b1 =? 239) && (b2 =? 187) && (b3 =? 191) then 3%nat
                  else 0%nat
              | "" => 0%nat
              end
        | "" => 0%nat
        end
  | "" => 0%nat
  end.

(** [s.split(/\s+/)], scanning [s] from the left. [skip] counts the bytes
    still to pass of the white space character being read, [piece] is the text
    since the last run of white space, and [in_run] tells whether the scan is
    inside such a run. A run ends the piece before it; the end of the string
    ends the last piece. *)
Fixpoint split_from (s : string) (skip : nat) (piece : string) (in_run : bool)
  : list string :=
  match s with
  | "" => [piece]
  | String c s' =>
      match skip with
      | S k => split_from s' k piece in_run
      | O =>
          match space_width s with
          | O => split_from s' 0 (piece ++ String c "") false
          | S k =>
              if in_run then split_from s' k piece true
              else piece :: split_from s' k "" true
          end
      end
  end.

Definition split_spaces (s : string) : list string := split_from s 0 "" false.

(** [Boolean], as the callback of [filter] on strings. *)
Definition Boolean (s : string) : bool := truthy (JStr s).

Definition word_count (s : string) : N :=
  N.of_nat (length (List.filter Boolean (split_spaces s))).

(** A value between tags. React draws text and numbers, draws nothing for
    booleans, [null] and [undefined], draws the members of an array, and
    throws on any other object. *)
Fixpoint valid_child (v : jsval) : bool :=
  match v with
  | JObj _ => false
  | JArr xs => forallb valid_child xs
  | _ => true
  end.

(** [{v && <tag>{v}</tag>}]: the element when [v] is truthy, [v] itself
    when it is not. *)
Inductive slot : Type :=
| Element (inner : jsval)
| Bare (v : jsval).

Definition guarded (v : jsval) : slot := if truthy v then Element v else Bare v.

Record preview : Type := {
  heading : slot;
  body : slot;
  characters : N;
  words : N
}.

(** The outcome of a render: something, nothing ([null]), or an exception. *)
Inductive rendered (A : Type) : Type :=
| Shown (a : A)
| Nothing
| Crash.
Arguments Shown {A} a.
Arguments Nothing {A}.
Arguments Crash {A}.

(** [FormPreview]. Past the test for an empty form, [form.content.length]
    throws on [undefined] and [null], and [form.content.split] is a function
    only when the content is a string. *)
Definition FormPreview (f : jsval) : rendered preview :=
  match isEmptyForm f with
  | Throw _ => Crash
  | Ok true => Nothing
  | Ok false =>
      match get_prop f "title", get_prop f "content" with
      | Ok t, Ok (JStr c) =>
          if valid_child t then
            Shown {| heading := guarded t; body := guarded (JStr c);
                     characters := utf16_length c; words := word_count c |}
          else Crash
      | _, _ => Crash
      end
  end.

(** *** The render of [AutoSaveForm] *)

Record view : Type := {
  statusBar : statusView;
  titleValue : jsval;
  contentValue : jsval;
  previewPane : option preview
}.

(** What a render of the component draws while the clock reads [clock w];
    [None] when the render throws. The runs of the model ([flush], [step])
    follow state, effects and timers and do not call it: they go on where a
    render of the component would have thrown. *)
Definition render (w : World) : option view :=
  match get_prop (form w) "title", get_prop (form w) "content" with
  | Ok t, Ok c =>
      match FormStatus (status w) (lastSaved w) (clock w), FormPreview (form w) with
      | Ok bar, Nothing =>
          Some {| statusBar := bar;
                  titleValue := t; contentValue := c; previewPane := None |}
      | Ok bar, Shown p =>
          Some {| statusBar := bar;
                  titleValue := t; contentValue := c; previewPane := Some p |}
      | _, _ => None
      end
  | _, _ => None
  end.

(** The number of maximal runs of characters that are not white space,
    counted in one pass. [inside] tells whether the scan is inside such a
    run. *)
Fixpoint count_runs (s : string) (skip : nat) (inside : bool) : nat :=
  match s with
  | "" => O
  | String c s' =>
      match skip with
      | S k => count_runs s' k inside
      | O =>
          match space_width s with
          | O => ((if inside then 0 else 1) + count_runs s' 0 true)%nat
          | S k => count_runs s' k false
          end
      end
  end.




(** Both fields of the form hold text. *)
Definition text_fields (f : jsval) : bool :=
  match get_prop f "title", get_prop f "content" with
  | Ok (JStr _), Ok (JStr _) => true
  | _, _ => false
  end.

(** The form the load effect commits, if it commits one, holds text in both
    fields. *)
Definition loads_text (store : Storage) : bool :=
  match items store !! STORAGE_KEY with
  | None => true
  | Some text =>
      if truthy (JStr text) then
        match JSON.parse text with
        | Throw _ => true
        | Ok data =>
            match get_prop data "form" with
            | Throw _ => true
            | Ok f => text_fields f
            end
        end
      else true
  end.

(** Neither an array nor an object. *)
Definition primitive (v : jsval) : bool :=
  match v with
  | JArr _ | JObj _ => false
  | _ => true
  end.

(** The timestamp the load effect commits, if it commits one, is neither an
    array nor an object. *)
Definition loads_stamp (store : Storage) : bool :=
  match items store !! STORAGE_KEY with
  | None => true
  | Some text =>
      if truthy (JStr text) then
        match JSON.parse text with
        | Throw _ => true
        | Ok data =>
            match get_prop data "form", get_prop data "timestamp" with
            | Ok _, Ok t => primitive t
            | _, _ => true
            end
        end
      else true
  end.

(** No white space character starts anywhere in [s]. *)
Fixpoint spaceless (s : string) : bool :=
  match s with
  | "" => true
  | String _ s' => Nat.eqb (space_width s) 0 && spaceless s'
  end.

(** [P] holds of the [n] numbers from [start] on. *)
Fixpoint all_from (n : nat) (start : N) (P : N -> bool) : bool :=
  match n with
  | O => true
  | S k => P start && all_from k (N.succ start) P
  end.

(** [n] is written with at most [k] digits. *)
Definition width_ok (k : nat) (n : N) : bool :=
  (String.length (JSON.show_N n) <=? k)%nat.

(** Every pending status timer is the one [statusTimerRef] holds, and a
    pending loaded timer carries the first id handed out. *)
Definition feedback_tracked (ts : list timer) (r : option nat) : Prop :=
  ∀ t, t ∈ ts ->
       match action t with
       | StatusTimer => r = Some (tid t)
       | LoadedTimer => tid t = 1%nat
       | SaveTimer _ => True
       end.

Definition Feedback (w : World) : Prop :=
  feedback_tracked (timers w) (statusTimerRef w).

(** ** Plain data

    The values [JSON.stringify] writes in full and [JSON.parse] reads back
    as they were. *)

(** What may follow a value inside a text: nothing, a comma, or a closing
    bracket or brace. *)
Definition closes (rest : string) : bool :=
  match rest with
  | "" => true
  | String c _ => JSON.is_char c 44 || JSON.is_char c 93 || JSON.is_char c 125
  end.

(** A key made of digits only. Such a key may be an array index, which an
    object lists before its other keys. *)
Definition digits_only (k : string) : bool :=
  negb (String.eqb k "")
  && forallb (fun c => match JSON.digit_val c with Some _ => true | None => false end)
       (chars k).

(** A whole number below [2 ^ 53], kept with no exponent. A double holds
    it exactly and [Number::toString] writes its digits, as [JSON.show_num]
    does. *)
Definition safe_integer (m : N) (e : Z) : bool :=
  (e =? 0)%Z && (m <? 2 ^ 53).

(** No surrogate stands alone in [s]. A surrogate on its own is kept in
    three bytes, the first 237 and the second from 160 on; [JSON.stringify]
    writes it as an escape, which [JSON.quote] does not. *)
Fixpoint no_lone_surrogate (s : string) : bool :=
  match s with
  | EmptyString => true
  | String c s' =>
      match s' with
      | String c' _ =>
          negb ((N_of_ascii c =? 237) && (160 <=? N_of_ascii c'))
          && no_lone_surrogate s'
      | EmptyString => true
      end
  end.

(** No [undefined]; text without a surrogate on its own; of the numbers the
    whole ones below [2 ^ 53] in size, negative zero apart; and in an object
    no key twice, no key made of digits only and none with a surrogate on
    its own. *)
Fixpoint plain (v : jsval) : bool :=
  match v with
  | JUndefined => false
  | JNull | JBool _ => true
  | JStr s => no_lone_surrogate s
  | JNum neg m e => negb (neg && (m =? 0)) && safe_integer m e
  | JArr xs => forallb plain xs
  | JObj ps =>
      forallb (fun p => plain (snd p)) ps
      && bool_decide (NoDup (map fst ps))
      && forallb (fun p => negb (digits_only (fst p)) && no_lone_surrogate (fst p)) ps
  end.

(** What a value starts with, as far as the parser looks. *)
Definition opens (c : ascii) : Prop :=
  JSON.is_ws c = false ∧ JSON.is_char c 93 = false ∧ JSON.is_char c 125 = false
  ∧ JSON.is_char c 44 = false ∧ JSON.is_char c 58 = false.

(** * The common patterns

    Templates of the same repository that share the platform above: the
    hook [useLocalStorage] with its example, and the components
    [PaginatedList], [DragAndDrop] and [ListManagement]. Each keeps its
    state in a record; a handler is a function from the state in which it is
    called to the state React commits. *)

(** ** The hook [useLocalStorage] and its example

    The component that calls the hook is taken to be mounted: the hook is
    called while it renders, [setStoredValue] from its event handlers. *)

Module Hook.

(** A component that calls the hook: the state [value] that the hook
    keeps with [useState], and the page (store, console) it runs on. *)
Record state : Type := { value : jsval; page : World }.

(** The function handed to [useState], run on the first render: what it
    throws, it catches. *)
Definition initialState (key : string) (initialValue : jsval) : M jsval :=
  try_catch
    (let* item := localStorage_getItem key in
     match item with
     | Some text =>
         if truthy (JStr text) then lift (JSON.parse text) else ret initialValue
     | None => ret initialValue
     end)
    (fun e =>
       console_error "Error reading from localStorage:" e ;;;
       ret initialValue).

(** The first render of a component that calls
    [useLocalStorage(key, initialValue)]. *)
Definition useLocalStorage (key : string) (initialValue : jsval) (w : World) : state :=
  let r := initialState key initialValue w in
  {| value := match fst r with Ok v => v | Throw _ => initialValue end;
     page := snd r |}.

(** [setStoredValue(newValue)]: [setValue] has taken the new value before
    the write is tried. *)
Definition setStoredValue (key : string) (newValue : jsval) (h : state) : state :=
  {| value := newValue;
     page := exec (try_catch
                     (localStorage_setItem key (JSON.stringify newValue))
                     (fun e => console_error "Error writing to localStorage:" e))
               (page h) |}.

(** [LocalStorageExample]: the input shows [name]; typing calls [setName]
    with the text of the input. *)
Definition LocalStorageExample (w : World) : state := useLocalStorage "name" (JStr "") w.

Definition onChange (text : string) (h : state) : state :=
  setStoredValue "name" (JStr text) h.

(** Whether [text] under [key] fits the quota of the store. *)
Definition has_room (key text : string) (w : World) : bool :=
  usage (<[key := text]> (items (localStorage w))) <=? quota (localStorage w).

End Hook.

(** ** [PaginatedList]

    The prop [itemsPerPage] is taken to be a positive integer, page numbers
    are integers. *)

Module PaginatedList.

(** [xs.slice(start, stop)] on integers: a negative index counts from the
    end, and both are brought into the bounds of [xs]. *)
Definition slice {A} (xs : list A) (start stop : Z) : list A :=
  let len := Z.of_nat (length xs) in
  let k := if (start <? 0)%Z then Z.max (len + start) 0 else Z.min start len in
  let final := if (stop <? 0)%Z then Z.max (len + stop) 0 else Z.min stop len in
  take (Z.to_nat (final - k)) (drop (Z.to_nat k) xs).

(** [{ id: i + 1, name: `Item ${i + 1}` }] *)
Definition item (i : nat) : jsval :=
  JObj [("id", JNum false (N.of_nat i + 1) 0);
        ("name", JStr ("Item " ++ JSON.show_N (N.of_nat i + 1)))].

(** [Array.from({ length: 100 }, ...)], the state [allItems]; the
    component never sets it. *)
Definition initialItems : list jsval := map item (seq 0 100).

Section Page.

Context {A : Type}.
Variable allItems : list A.
Variable itemsPerPage : positive.

(** [Math.ceil(allItems.length / itemsPerPage)]: the least integer that is
    not below the quotient. *)
Definition totalPages : Z :=
  (- ((- Z.of_nat (length allItems)) / Z.pos itemsPerPage))%Z.

Definition currentItems (currentPage : Z) : list A :=
  let startIndex := ((currentPage - 1) * Z.pos itemsPerPage)%Z in
  slice allItems startIndex (startIndex + Z.pos itemsPerPage).

(** [goToPage(page)]: the page that [setCurrentPage] receives. *)
Definition goToPage (page : Z) : Z := Z.max 1 (Z.min page totalPages).

Inductive button : Type := Previous | Next.

(** A click on a button, from the page shown; a disabled button takes no
    click. *)
Definition click (currentPage : Z) (b : button) : Z :=
  match b with
  | Previous =>
      if (currentPage =? 1)%Z then currentPage else goToPage (currentPage - 1)
  | Next =>
      if (currentPage =? totalPages)%Z then currentPage
      else goToPage (currentPage + 1)
  end.

(** The page shown after the clicks [bs]; the first render shows page 1. *)
Definition clicks (bs : list button) : Z := foldl click 1%Z bs.

(** The pages there are, in order. *)
Definition pages : list Z := Z.of_nat <$> seq 1 (Z.to_nat totalPages).

End Page.

End PaginatedList.

(** ** [DragAndDrop]

    An index is the position of a list element that is drawn. *)

Module DragAndDrop.

(** What [xs.splice(start, deleteCount, ...new)] leaves in [xs], for an
    index and a count: both are brought into the bounds of [xs]. *)
Definition splice {A} (xs : list A) (start deleteCount : nat) (new : list A) : list A :=
  take start xs ++ new ++ drop (start + deleteCount) xs.

Record state : Type := { items : list jsval; dragging : option nat }.

Definition initialState : state :=
  {| items := [JStr "Item 1"; JStr "Item 2"; JStr "Item 3"]; dragging := None |}.

Definition handleDragStart (index : nat) (st : state) : state :=
  {| items := items st; dragging := Some index |}.

Definition handleDragOver (index : nat) (st : state) : state :=
  match dragging st with
  | None => st
  | Some from =>
      if (from =? index)%nat then st
      else
        let newItems := items st in
        let draggedItem := default JUndefined (newItems !! from) in
        let newItems := splice newItems from 1 [] in
        let newItems := splice newItems index 0 [draggedItem] in
        {| items := newItems; dragging := Some index |}
  end.

Definition handleDragEnd (st : state) : state :=
  {| items := items st; dragging := None |}.

Inductive event : Type :=
| DragStart (index : nat)
| DragOver (index : nat)
| DragEnd.

Definition step (st : state) (e : event) : state :=
  match e with
  | DragStart index => handleDragStart index st
  | DragOver index => handleDragOver index st
  | DragEnd => handleDragEnd st
  end.

Definition run (es : list event) (st : state) : state := foldl step st es.

(** The event comes from one of [n] list elements. *)
Definition on_element (n : nat) (e : event) : bool :=
  match e with
  | DragStart index | DragOver index => (index <? n)%nat
  | DragEnd => true
  end.

End DragAndDrop.

(** ** [ListManagement]

    An item is a record of the three fields the component gives it.
    [updateItem], which could give an item any field, is called from
    nowhere and is left out. *)

Module ListManagement.

(** [s.trimStart()]; [skip] counts the bytes still to pass of the white
    space character being read. *)
Fixpoint trimStart_from (s : string) (skip : nat) : string :=
  match s with
  | "" => ""
  | String _ s' =>
      match skip with
      | S k => trimStart_from s' k
      | O =>
          match space_width s with
          | O => s
          | S k => trimStart_from s' k
          end
      end
  end.

Definition trimStart (s : string) : string := trimStart_from s 0.

(** [s.trimEnd()]: [kept] is the text up to the last character that is no
    white space, [pending] the white space read since. *)
Fixpoint trimEnd_from (s : string) (skip : nat) (kept pending : string) : string :=
  match s with
  | "" => kept
  | String c s' =>
      match skip with
      | S k => trimEnd_from s' k kept (pending ++ String c "")
      | O =>
          match space_width s with
          | O => trimEnd_from s' 0 (kept ++ pending ++ String c "") ""
          | S k => trimEnd_from s' k kept (pending ++ String c "")
          end
      end
  end.

Definition trimEnd (s : string) : string := trimEnd_from s 0 "" "".

Definition trim (s : string) : string := trimEnd (trimStart s).

Record item : Type := { id : N; text : string; completed : bool }.

Record state : Type := { items : list item; inputValue : string }.

Definition initialState : state :=
  {| items := [{| id := 1; text := "Item 1"; completed := false |};
               {| id := 2; text := "Item 2"; completed := true |}];
     inputValue := "" |}.

(** The input's [onChange]. *)
Definition setInputValue (v : string) (st : state) : state :=
  {| items := items st; inputValue := v |}.

(** [addItem], called when [Date.now()] reads [now]. *)
Definition addItem (now : N) (st : state) : state :=
  if negb (truthy (JStr (trim (inputValue st)))) then st
  else
    let newItem := {| id := now; text := inputValue st; completed := false |} in
    {| items := items st ++ [newItem]; inputValue := "" |}.

Definition toggleItem (id0 : N) (st : state) : state :=
  {| items :=
       map (fun item =>
              if id item =? id0 then
                {| id := id item; text := text item;
                   completed := negb (completed item) |}
              else item)
         (items st);
     inputValue := inputValue st |}.

(** An item with its [completed] negated. *)
Definition flipped (x : item) : item :=
  {| id := id x; text := text x; completed := negb (completed x) |}.

Definition deleteItem (id0 : N) (st : state) : state :=
  {| items := List.filter (fun item => negb (id item =? id0)) (items st);
     inputValue := inputValue st |}.

Definition activeItems (st : state) : list item :=
  List.filter (fun item => negb (completed item)) (items st).

Definition completedItems (st : state) : list item :=
  List.filter (fun item => completed item) (items st).

Inductive event : Type :=
| Input (v : string)
| Add (now : N)
| Toggle (id0 : N)
| Delete (id0 : N).

Definition step (st : state) (e : event) : state :=
  match e with
  | Input v => setInputValue v st
  | Add now => addItem now st
  | Toggle id0 => toggleItem id0 st
  | Delete id0 => deleteItem id0 st
  end.

Definition run (es : list event) (st : state) : state := foldl step st es.

(** The clock readings of the [Add] events of a run go up, starting above
    [last]. *)
Fixpoint ticking (last : N) (es : list event) : bool :=
  match es with
  | [] => true
  | Add now :: es' => (last <? now) && ticking now es'
  | _ :: es' => ticking last es'
  end.

End ListManagement.

(** * Facts about the timer queue *)

Section TimerQueue.

Implicit Types (ts : list timer) (t : timer) (id n : nat).

Lemma elem_of_cancel id ts t : t ∈ cancel id ts ↔ tid t ≠ id ∧ t ∈ ts.
Proof. unfold cancel. by rewrite list_elem_of_filter. Qed.

Lemma cancel_idemp id ts : cancel id (cancel id ts) = cancel id ts.
Proof.
  unfold cancel. induction ts as [|t ts IH]; [done|].
  rewrite filter_cons. destruct (decide (tid t ≠ id)) as [Hne|Heq]; [|done].
  rewrite filter_cons. destruct (decide (tid t ≠ id)); [|done]. by rewrite IH.
Qed.

Lemma saves_tracked_cancel id ts m hc r :
  saves_tracked ts m hc r → saves_tracked (cancel id ts) m hc r.
Proof. intros H t [_ Hin]%elem_of_cancel. by apply H. Qed.

Lemma save_free_cancel id ts : save_free ts → save_free (cancel id ts).
Proof.
  unfold save_free. rewrite !Forall_forall.
  intros H t [_ Hin]%elem_of_cancel. by apply H.
Qed.

(** Cancelling the tracked id leaves no save timer behind. *)
Lemma saves_tracked_cancel_ref id ts m hc :
  saves_tracked ts m hc (Some id) → save_free (cancel id ts).
Proof.
  intros H. apply Forall_forall. intros t [Hne Hin]%elem_of_cancel.
  destruct (is_save t) eqn:Hs; [|done].
  destruct (H t Hin Hs) as (_ & _ & [= ->]). done.
Qed.

Lemma saves_tracked_no_ref ts m hc : saves_tracked ts m hc None → save_free ts.
Proof.
  intros H. apply Forall_forall. intros t Hin.
  destruct (is_save t) eqn:Hs; [|done]. by destruct (H t Hin Hs) as (_ & _ & ?).
Qed.

Lemma saves_tracked_no_cleanup ts m r : saves_tracked ts m false r → save_free ts.
Proof.
  intros H. apply Forall_forall. intros t Hin.
  destruct (is_save t) eqn:Hs; [|done]. by destruct (H t Hin Hs) as (_ & ? & _).
Qed.

Lemma saves_tracked_unmounted ts hc r : saves_tracked ts false hc r → save_free ts.
Proof.
  intros H. apply Forall_forall. intros t Hin.
  destruct (is_save t) eqn:Hs; [|done]. by destruct (H t Hin Hs) as (? & _ & _).
Qed.

Lemma save_free_tracked ts m hc r : save_free ts → saves_tracked ts m hc r.
Proof.
  unfold save_free. rewrite Forall_forall. intros H t Hin Hs.
  rewrite (H t Hin) in Hs. done.
Qed.

Lemma save_free_snoc ts t : save_free ts → is_save t = false → save_free (ts ++ [t]).
Proof. intros H Ht. apply Forall_app. split; [done|]. by constructor. Qed.

Lemma saves_tracked_snoc ts t m hc r :
  saves_tracked ts m hc r → is_save t = false → saves_tracked (ts ++ [t]) m hc r.
Proof.
  intros H Ht t' [Hin|Hin]%elem_of_app Hs; [by apply H|].
  apply list_elem_of_singleton in Hin as ->. congruence.
Qed.

(** Arming a save timer on a queue without one. *)
Lemma saves_tracked_arm ts id d f :
  save_free ts →
  saves_tracked (ts ++ [{| tid := id; due := d; action := SaveTimer f |}])
    true true (Some id).
Proof.
  unfold save_free. rewrite Forall_forall.
  intros H t [Hin|Hin]%elem_of_app Hs.
  - rewrite (H t Hin) in Hs. done.
  - apply list_elem_of_singleton in Hin as ->. done.
Qed.

Lemma ids_ok_cancel id ts n : ids_ok ts n → ids_ok (cancel id ts) n.
Proof.
  intros [Hnd Hlt]. split.
  - unfold cancel. clear Hlt. induction ts as [|t ts IH]; [constructor|].
    simpl in Hnd. apply NoDup_cons in Hnd as [Hnotin Hnd].
    rewrite filter_cons. destruct (decide (tid t ≠ id)); [|by apply IH].
    simpl. apply NoDup_cons. split; [|by apply IH].
    intros Hin. apply Hnotin.
    apply list_elem_of_fmap in Hin as (t' & -> & Hin').
    apply list_elem_of_filter in Hin' as [_ Hin'].
    apply list_elem_of_fmap. eauto.
  - rewrite Forall_forall in *. intros t [_ Hin]%elem_of_cancel. by apply Hlt.
Qed.

Lemma ids_ok_snoc ts n d cb :
  ids_ok ts n → ids_ok (ts ++ [{| tid := n; due := d; action := cb |}]) (S n).
Proof.
  intros [Hnd Hlt]. split.
  - rewrite fmap_app. simpl. apply NoDup_app. split; [done|]. split.
    + intros x Hin Hx. apply list_elem_of_singleton in Hx as ->.
      apply list_elem_of_fmap in Hin as (t & Heq & Hin).
      rewrite Forall_forall in Hlt. specialize (Hlt t Hin). lia.
    + apply NoDup_singleton.
  - apply Forall_app. split.
    + eapply Forall_impl; [exact Hlt|]. simpl. intros. lia.
    + constructor; [simpl; lia|constructor].
Qed.

End TimerQueue.

(** * The invariant of reachable worlds *)

Create HintDb timers.
Create HintDb nonempty.
Create HintDb owned.
#[local] Hint Resolve saves_tracked_cancel ids_ok_cancel ids_ok_snoc saves_tracked_arm
  save_free_cancel save_free_tracked saves_tracked_snoc save_free_snoc : timers.
#[local] Hint Immediate saves_tracked_cancel_ref saves_tracked_no_ref
  saves_tracked_no_cleanup saves_tracked_unmounted : timers.

(** Shape of the invariant goals. *)
Ltac inv_split := split; [split; [|split]|]; simpl.
Ltac inv0_split := split; [|split]; simpl.
Ltac unfold_js :=
  unfold handleChange, handleClear, handleManualSave, run_callback,
    saveToLocalStorage, autoSaveEffect, autoSaveCleanup, loadEffect,
    try_catch, bind, lift, exec, ret, getForm, setForm, setStatus, setLastSaved,
    get_saveTimerRef, set_saveTimerRef, get_statusTimerRef, set_statusTimerRef,
    setTimeout, clearTimeout, localStorage_getItem, localStorage_setItem,
    localStorage_removeItem, console_error, Date_toISOString in *.

Lemma flush_inv w : Inv0 w -> Inv (flush w).
Proof.
  destruct w as [f s l sr str m fc hc c ts nt st con].
  unfold Inv, Inv0, flush. simpl. intros (Hs & Hi & Hm).
  destruct m, fc; simpl; try (inv_split; by auto).
  - unfold_js. simpl.
    destruct hc, sr as [id|]; simpl; destruct (isEmptyForm f) as [[]|]; simpl.
    all: inv_split; try done.
    all: eauto 6 with timers.
  - by specialize (Hm eq_refl).
Qed.

Lemma saveToLocalStorage_inv0 f w : Inv0 w -> Inv0 (exec (saveToLocalStorage f) w).
Proof.
  destruct w as [f0 s l sr str m fc hc c ts nt st con].
  unfold Inv0. unfold_js. simpl. intros (Hs & Hi & Hm).
  destruct m; simpl; destruct (_ <=? _); simpl; destruct str; simpl.
  all: inv0_split; try done; eauto 6 with timers.
Qed.

Lemma clearTimeout_inv0 r w : Inv0 w -> Inv0 (exec (clearTimeout r) w).
Proof.
  destruct w as [f0 s l sr str m fc hc c ts nt st con].
  unfold Inv0. unfold_js. simpl. intros (Hs & Hi & Hm).
  destruct r; simpl; inv0_split; eauto with timers.
Qed.

Lemma handleManualSave_inv0 w : Inv0 w -> Inv0 (exec handleManualSave w).
Proof.
  intros H. unfold handleManualSave, bind, exec, getForm. simpl.
  apply (saveToLocalStorage_inv0 _ _ (clearTimeout_inv0 (saveTimerRef w) w H)).
Qed.

Lemma handleChange_inv0 n v w : Inv0 w -> Inv0 (exec (handleChange n v) w).
Proof.
  destruct w as [f0 s l sr str m fc hc c ts nt st con].
  unfold Inv0. unfold_js. simpl. intros (Hs & Hi & Hm).
  destruct m; simpl; inv0_split; auto.
Qed.

Lemma handleClear_inv0 b w : Inv0 w -> Inv0 (exec (handleClear b) w).
Proof.
  destruct w as [f0 s l sr str m fc hc c ts nt st con].
  unfold Inv0. unfold_js. simpl. intros (Hs & Hi & Hm).
  destruct b, m; simpl; inv0_split; auto.
Qed.

Lemma run_callback_inv0 cb w : Inv0 w -> Inv0 (exec (run_callback cb) w).
Proof.
  destruct cb; [| apply saveToLocalStorage_inv0 |].
  all: destruct w as [f0 s l sr str m fc hc c ts nt st con].
  all: unfold Inv0; unfold_js; simpl; intros (Hs & Hi & Hm).
  all: destruct m; simpl; inv0_split; auto.
Qed.

Lemma dequeue_inv0 t w : Inv0 w -> Inv0 (dequeue t w).
Proof.
  unfold dequeue. destruct w as [f0 s l sr str m fc hc c ts nt st con].
  unfold Inv0. simpl. intros (Hs & Hi & Hm). inv0_split; eauto with timers.
Qed.

Lemma Inv_Inv0 w : Inv w -> Inv0 w.
Proof. by intros [H _]. Qed.

Lemma fire_inv t w : Inv w -> Inv (fire t w).
Proof.
  intros H. unfold fire. apply flush_inv, run_callback_inv0, dequeue_inv0, Inv_Inv0, H.
Qed.

Lemma run_timers_inv fuel horizon w : Inv w -> Inv (run_timers fuel horizon w).
Proof.
  revert w. induction fuel as [|k IH]; intros w H; simpl; [done|].
  destruct (next_timer horizon (timers w)); [|done]. by apply IH, fire_inv.
Qed.

Lemma with_clock_inv now w : Inv w -> Inv (with_clock now w).
Proof. by destruct w. Qed.

Lemma advance_inv dt w : Inv w -> Inv (advance dt w).
Proof. intros H. unfold advance. by apply with_clock_inv, run_timers_inv. Qed.

Lemma dispatch_inv h w :
  (Inv0 w -> Inv0 (exec h w)) -> Inv w -> Inv (dispatch h w).
Proof.
  intros Hh H. unfold dispatch. destruct (mounted w); [|done].
  apply flush_inv, Hh, Inv_Inv0, H.
Qed.

Lemma unmount_inv w : Inv w -> Inv (unmount w).
Proof.
  destruct w as [f0 s l sr str m fc hc c ts nt st con].
  unfold Inv, Inv0, unmount. unfold_js. simpl. intros ((Hs & Hi & Hm) & Hfc).
  destruct m; simpl; [|by inv_split].
  destruct hc, sr; simpl; inv_split; eauto with timers.
Qed.

Lemma step_inv e w : Inv w -> Inv (step e w).
Proof.
  destruct e; simpl.
  - apply dispatch_inv, handleChange_inv0.
  - apply dispatch_inv, handleManualSave_inv0.
  - apply dispatch_inv, handleClear_inv0.
  - apply unmount_inv.
  - apply advance_inv.
Qed.

Lemma mountEffects_inv0 store now : Inv0 (mountEffects store now).
Proof.
  unfold Inv0, mountEffects, initialWorld. unfold_js. simpl.
  assert (Hsf : save_free []) by constructor.
  assert (Hid : ids_ok [] 1) by (split; constructor).
  destruct (items store !! STORAGE_KEY) as [text|]; simpl.
  2: inv0_split; eauto with timers.
  destruct (negb _); simpl.
  2: inv0_split; eauto with timers.
  destruct (JSON.parse text) as [data|]; simpl.
  2: inv0_split; eauto with timers.
  destruct (get_prop data "form"); simpl.
  2: inv0_split; eauto with timers.
  destruct (get_prop data "timestamp"); simpl.
  all: inv0_split; eauto with timers.
  - apply (saves_tracked_snoc []); eauto with timers.
  - apply (ids_ok_snoc [] 1), Hid.
Qed.

Lemma mount_inv store now : Inv (mount store now).
Proof. apply flush_inv, mountEffects_inv0. Qed.

Lemma reachable_inv w : reachable w -> Inv w.
Proof. induction 1; [apply mount_inv | by apply step_inv]. Qed.

(** * The operations in closed form *)

Section ClosedForms.

Lemma flush_committed w : formChanged w = false -> flush w = w.
Proof. intros H. unfold flush. rewrite H. by destruct (mounted w). Qed.

Lemma save_ok f w :
  fits f w = true ->
  exec (saveToLocalStorage f) w =
  {| form := form w;
     status := if mounted w then saving else status w;
     lastSaved := if mounted w then JStr (toISOString (clock w)) else lastSaved w;
     saveTimerRef := saveTimerRef w;
     statusTimerRef := Some (nextTimer w);
     mounted := mounted w; formChanged := formChanged w; hasCleanup := hasCleanup w;
     clock := clock w;
     timers := cancel_ref (statusTimerRef w) (timers w)
               ++ [{| tid := nextTimer w; due := clock w + 500; action := StatusTimer |}];
     nextTimer := S (nextTimer w);
     localStorage :=
       {| items := <[STORAGE_KEY := record f (clock w)]> (items (localStorage w));
          quota := quota (localStorage w);
          calls := calls (localStorage w) ++ [SetItem STORAGE_KEY (record f (clock w)) true] |};
     console := console w |}.
Proof.
  unfold fits, record. destruct w as [f0 s l sr str m fc hc c ts nt st con].
  unfold_js. destruct m, str; simpl; by intros ->.
Qed.

Lemma save_fail f w :
  fits f w = false ->
  saveToLocalStorage f w =
  (Ok tt,
   {| form := form w;
      status := if mounted w then error else status w;
      lastSaved := lastSaved w;
      saveTimerRef := saveTimerRef w;
      statusTimerRef := statusTimerRef w;
      mounted := mounted w; formChanged := formChanged w; hasCleanup := hasCleanup w;
      clock := clock w;
      timers := timers w;
      nextTimer := nextTimer w;
      localStorage :=
        {| items := items (localStorage w);
           quota := quota (localStorage w);
           calls := calls (localStorage w) ++ [SetItem STORAGE_KEY (record f (clock w)) false] |};
      console := console w ++ [("Error saving to localStorage:", QuotaExceededError)] |}).
Proof.
  unfold fits, record. destruct w as [f0 s l sr str m fc hc c ts nt st con].
  unfold_js. destruct m; simpl; by intros ->.
Qed.

Lemma saveToLocalStorage_returns f w : fst (saveToLocalStorage f w) = Ok tt.
Proof.
  destruct (fits f w) eqn:Hf.
  - revert Hf. unfold fits, record. destruct w as [f0 s l sr str m fc hc c ts nt st con].
    unfold_js. destruct m; simpl; by intros ->.
  - by rewrite save_fail.
Qed.

Lemma fire_quiet t w :
  formChanged w = false -> is_save t = false ->
  fire t w =
  {| form := form w;
     status := if mounted w then saved else status w;
     lastSaved := lastSaved w;
     saveTimerRef := saveTimerRef w;
     statusTimerRef := statusTimerRef w;
     mounted := mounted w; formChanged := false; hasCleanup := hasCleanup w;
     clock := N.max (clock w) (due t);
     timers := cancel (tid t) (timers w);
     nextTimer := nextTimer w;
     localStorage := localStorage w;
     console := console w |}.
Proof.
  destruct w as [f0 s l sr str m fc hc c ts nt st con], t as [id d cb].
  unfold is_save, fire, dequeue, flush. unfold_js. simpl. intros -> Hs.
  destruct cb; try done; by destruct m.
Qed.

End ClosedForms.

(** * Which timer fires next *)

Section Queue.

Implicit Types (ts : list timer) (t : timer).

Lemma earliest_elem ts t : earliest ts = Some t -> t ∈ ts.
Proof.
  revert t. induction ts as [|t0 ts IH]; intros t; simpl; [done|].
  destruct (earliest ts) as [t'|].
  - destruct (due t' <? due t0); intros [= <-].
    + right. by apply IH.
    + left.
  - intros [= <-]. left.
Qed.

Lemma earliest_le ts t t' : earliest ts = Some t -> t' ∈ ts -> due t <= due t'.
Proof.
  revert t. induction ts as [|t0 ts IH]; intros t; simpl; [by intros ? ?%elem_of_nil|].
  intros He Hin. destruct (earliest ts) as [t1|] eqn:E1.
  - specialize (IH t1 eq_refl).
    destruct (due t1 <? due t0) eqn:Hlt; injection He as <-.
    + apply N.ltb_lt in Hlt. apply elem_of_cons in Hin as [->|Hin]; [lia|by apply IH].
    + apply N.ltb_ge in Hlt. apply elem_of_cons in Hin as [->|Hin]; [lia|].
      specialize (IH Hin). lia.
  - injection He as <-. apply elem_of_cons in Hin as [->|Hin]; [lia|].
    destruct ts; [by apply elem_of_nil in Hin|]. simpl in E1.
    destruct (earliest ts); [destruct (_ <? _)|]; done.
Qed.

Lemma earliest_none ts : earliest ts = None -> ts = [].
Proof.
  destruct ts as [|t ts]; [done|]. simpl.
  destruct (earliest ts); [destruct (_ <? _)|]; done.
Qed.

Lemma next_timer_elem horizon ts t : next_timer horizon ts = Some t -> t ∈ ts.
Proof.
  unfold next_timer. destruct (earliest ts) as [t'|] eqn:E; [|done].
  destruct (due t' <=? horizon); [|done]. intros [= <-]. by apply earliest_elem.
Qed.

Lemma next_timer_due horizon ts t : next_timer horizon ts = Some t -> due t <= horizon.
Proof.
  unfold next_timer. destruct (earliest ts) as [t'|] eqn:E; [|done].
  destruct (due t' <=? horizon) eqn:Hle; [|done]. intros [= <-]. by apply N.leb_le.
Qed.

Lemma next_timer_le horizon ts t t' :
  next_timer horizon ts = Some t -> t' ∈ ts -> due t <= due t'.
Proof.
  unfold next_timer. destruct (earliest ts) as [t0|] eqn:E; [|done].
  destruct (due t0 <=? horizon); [|done]. intros [= <-]. by apply earliest_le.
Qed.

(** No timer of the queue is due within the horizon. *)
Lemma next_timer_none horizon ts t :
  next_timer horizon ts = None -> t ∈ ts -> horizon < due t.
Proof.
  unfold next_timer. destruct (earliest ts) as [t0|] eqn:E.
  - destruct (due t0 <=? horizon) eqn:Hle; [done|]. intros _ Hin.
    apply N.leb_gt in Hle. pose proof (earliest_le _ _ _ E Hin). lia.
  - intros _ Hin. apply earliest_none in E. subst. by apply elem_of_nil in Hin.
Qed.

Lemma is_save_false_Forall ts t : save_free ts -> t ∈ ts -> is_save t = false.
Proof. unfold save_free. rewrite Forall_forall. auto. Qed.

End Queue.

(** * Time passing without a save timer *)

Section Quiet.

(** Without a pending save timer, the passing of time leaves the store, the
    form and the refs alone. *)
Lemma run_timers_quiet fuel horizon w :
  formChanged w = false -> save_free (timers w) ->
  let w' := run_timers fuel horizon w in
  localStorage w' = localStorage w ∧ save_free (timers w')
  ∧ form w' = form w ∧ lastSaved w' = lastSaved w ∧ mounted w' = mounted w
  ∧ formChanged w' = false ∧ nextTimer w' = nextTimer w.
Proof.
  revert w. induction fuel as [|k IH]; intros w Hfc Hsf; simpl; [done|].
  destruct (next_timer horizon (timers w)) as [t|] eqn:Hn; [|done].
  pose proof (is_save_false_Forall _ _ Hsf (next_timer_elem _ _ _ Hn)) as Ht.
  rewrite (fire_quiet t w Hfc Ht).
  match goal with |- context [run_timers k horizon ?x] => specialize (IH x) end.
  simpl in IH. apply IH; [done|]. by apply save_free_cancel.
Qed.

Lemma advance_quiet dt w :
  formChanged w = false -> save_free (timers w) ->
  let w' := advance dt w in
  localStorage w' = localStorage w ∧ save_free (timers w')
  ∧ form w' = form w ∧ lastSaved w' = lastSaved w ∧ mounted w' = mounted w
  ∧ formChanged w' = false ∧ nextTimer w' = nextTimer w.
Proof.
  intros Hfc Hsf. unfold advance.
  pose proof (run_timers_quiet (weight (timers w)) (clock w + dt) w Hfc Hsf) as H.
  simpl in H. by destruct (run_timers _ _ w).
Qed.

Lemma elapse_cons dt dts w : elapse (dt :: dts) w = elapse dts (advance dt w).
Proof. reflexivity. Qed.

(** With no save timer pending, time passes without a trace in the store,
    the form or the timestamp. *)
Lemma elapse_quiet dts w :
  formChanged w = false -> save_free (timers w) ->
  localStorage (elapse dts w) = localStorage w
  ∧ form (elapse dts w) = form w ∧ lastSaved (elapse dts w) = lastSaved w
  ∧ mounted (elapse dts w) = mounted w.
Proof.
  revert w. induction dts as [|dt dts IH]; intros w Hfc Hsf; [done|].
  rewrite elapse_cons.
  destruct (advance_quiet dt w Hfc Hsf) as (Hst & Hsf' & Hf & Hl & Hm & Hfc' & _).
  destruct (IH (advance dt w) Hfc' Hsf') as (-> & -> & -> & ->). done.
Qed.

Lemma writes_elapse_quiet dts w :
  formChanged w = false -> save_free (timers w) -> writes (elapse dts w) = writes w.
Proof.
  intros Hfc Hsf. destruct (elapse_quiet dts w Hfc Hsf) as (Hst & _).
  unfold writes. by rewrite Hst.
Qed.

End Quiet.

(** * Unmount, clear, and a save that fails *)

Section SaveAndClear.

Lemma set_calls_app cs cs' : set_calls (cs ++ cs') = (set_calls cs ++ set_calls cs')%list.
Proof.
  induction cs as [|[k v b|k] cs IH]; simpl; [done| |done]. by rewrite IH.
Qed.

Lemma unmount_spec w :
  Inv w ->
  mounted (unmount w) = false ∧ formChanged (unmount w) = false
  ∧ save_free (timers (unmount w)) ∧ localStorage (unmount w) = localStorage w.
Proof.
  destruct w as [f0 s l sr str m fc hc c ts nt st con].
  unfold Inv, Inv0, unmount. unfold_js. simpl. intros ((Hs & Hi & Hm) & ->).
  destruct m; simpl.
  - destruct hc, sr; simpl; repeat split; eauto with timers.
  - repeat split; eauto with timers.
Qed.

Lemma step_unmounted e w :
  mounted w = false -> formChanged w = false -> save_free (timers w) ->
  mounted (step e w) = false ∧ formChanged (step e w) = false
  ∧ save_free (timers (step e w)) ∧ localStorage (step e w) = localStorage w.
Proof.
  intros Hm Hfc Hsf. destruct e; simpl; unfold dispatch, unmount; rewrite ?Hm; try done.
  pose proof (advance_quiet dt w Hfc Hsf) as H. simpl in H.
  destruct H as (? & ? & ? & ? & ? & ? & ?). repeat split; congruence.
Qed.

(** What is left to fire after an unmount is heard by no one: state setters
    of an unmounted component do nothing, and no save timer is left. *)
Lemma step_unmounted_state e w :
  mounted w = false -> formChanged w = false -> save_free (timers w) ->
  form (step e w) = form w ∧ status (step e w) = status w
  ∧ lastSaved (step e w) = lastSaved w.
Proof.
  intros Hm Hfc Hsf. destruct e; simpl; unfold dispatch, unmount; rewrite ?Hm; try done.
  unfold advance.
  assert (H : ∀ fuel horizon u, mounted u = false -> formChanged u = false ->
              save_free (timers u) ->
              form (run_timers fuel horizon u) = form u
              ∧ status (run_timers fuel horizon u) = status u
              ∧ lastSaved (run_timers fuel horizon u) = lastSaved u).
  { clear. induction fuel as [|k IH]; intros horizon u Hm Hfc Hsf; simpl; [done|].
    destruct (next_timer horizon (timers u)) as [t|] eqn:Hn; [|done].
    pose proof (is_save_false_Forall _ _ Hsf (next_timer_elem _ _ _ Hn)) as Ht.
    rewrite (fire_quiet t u Hfc Ht).
    match goal with |- context [run_timers k horizon ?x] =>
      destruct (IH horizon x) as (-> & -> & ->) end; simpl; try done.
    - by apply save_free_cancel.
    - by rewrite Hm. }
  destruct (H (weight (timers w)) (clock w + dt) w Hm Hfc Hsf) as (? & ? & ?).
  by destruct (run_timers _ _ w).
Qed.

(** An unmounted component without a save timer stays as it is, whatever
    events and however much time follow. *)
Lemma run_unmounted es u :
  mounted u = false -> formChanged u = false -> save_free (timers u) ->
  localStorage (run es u) = localStorage u
  ∧ form (run es u) = form u ∧ status (run es u) = status u
  ∧ lastSaved (run es u) = lastSaved u.
Proof.
  unfold run. revert u. induction es as [|e es IH]; intros u Hm Hfc Hsf; simpl; [done|].
  destruct (step_unmounted e u Hm Hfc Hsf) as (Hm' & Hfc' & Hsf' & Hst').
  destruct (step_unmounted_state e u Hm Hfc Hsf) as (Hf' & Hs' & Hl').
  destruct (IH (step e u) Hm' Hfc' Hsf') as (-> & -> & -> & ->). done.
Qed.

(** C3. Once the component is unmounted, nothing is written to the store
    any more, whatever happens next and however much time passes: the
    pending save timer is cancelled by the unmount, and the store, with its
    list of [setItem] calls, stays as it was. *)
Theorem no_write_after_unmount w es :
  reachable w ->
  let w' := run es (step Unmount w) in
  save_free (timers (step Unmount w))
  ∧ writes w' = writes w ∧ localStorage w' = localStorage w.
Proof.
  intros Hr w'. apply reachable_inv in Hr.
  destruct (unmount_spec w Hr) as (Hm & Hfc & Hsf & Hst).
  destruct (run_unmounted es (unmount w) Hm Hfc Hsf) as (Hst' & _).
  split; [done|]. subst w'. unfold writes. simpl. by rewrite Hst', Hst.
Qed.

(** C10. When the confirmation prompt is declined, [handleClear] changes
    nothing: form, status, timestamp, timers and store are as before. *)
Theorem clear_declined_is_noop w : reachable w -> step (Clear false) w = w.
Proof.
  intros [_ Hfc]%reachable_inv. simpl. unfold dispatch.
  destruct (mounted w); [|done]. by apply flush_committed.
Qed.


Lemma saves_tracked_cancel_any ts m hc r :
  saves_tracked ts m hc r -> save_free (cancel_ref r ts).
Proof. destruct r; simpl; eauto with timers. Qed.

Lemma clear_true_spec w :
  Inv w -> mounted w = true ->
  let w' := step (Clear true) w in
  form w' = emptyForm ∧ status w' = idle ∧ lastSaved w' = JNull
  ∧ items (localStorage w') !! STORAGE_KEY = None
  ∧ save_free (timers w') ∧ formChanged w' = false
  ∧ writes w' = writes w.
Proof.
  intros Hr Hm w'. subst w'.
  destruct w as [f0 s l sr str m fc hc c ts nt st con].
  unfold Inv, Inv0 in Hr. simpl in *. destruct Hr as ((Hs & Hi & _) & ->). subst m.
  unfold dispatch, flush, writes. unfold_js. simpl.
  destruct hc, sr as [id|]; simpl; rewrite ?set_calls_app, ?app_nil_r, ?lookup_delete_eq;
    repeat split; eauto with timers.
Qed.

(** C5, amended. A confirmed clear on a mounted component empties the form,
    sets the status to [idle] and the timestamp to [null], removes the store
    entry and leaves no save timer pending; as time passes after it, no
    [setItem] call is made, the entry stays absent, and form and timestamp
    stay reset. *)
Theorem clear_resets w :
  reachable w -> mounted w = true ->
  let w' := step (Clear true) w in
  form w' = emptyForm ∧ status w' = idle ∧ lastSaved w' = JNull
  ∧ items (localStorage w') !! STORAGE_KEY = None
  ∧ save_free (timers w')
  ∧ ∀ dts, let w'' := elapse dts w' in
           writes w'' = writes w
           ∧ items (localStorage w'') !! STORAGE_KEY = None
           ∧ form w'' = emptyForm ∧ lastSaved w'' = JNull.
Proof.
  intros Hr Hm w'. apply reachable_inv in Hr.
  destruct (clear_true_spec w Hr Hm) as (Hf & Hs & Hl & Hk & Hsf & Hfc & Hw).
  fold w' in Hf, Hs, Hl, Hk, Hsf, Hfc, Hw. clearbody w'.
  repeat split; try done.
  - rewrite writes_elapse_quiet; done.
  - destruct (elapse_quiet dts _ Hfc Hsf) as (-> & _). done.
  - destruct (elapse_quiet dts _ Hfc Hsf) as (_ & -> & _). done.
  - destruct (elapse_quiet dts _ Hfc Hsf) as (_ & _ & -> & _). done.
Qed.

Lemma manualSave_fail w :
  mounted w = true -> formChanged w = false ->
  fits (form w) (exec (clearTimeout (saveTimerRef w)) w) = false ->
  step ManualSave w =
  {| form := form w; status := error; lastSaved := lastSaved w;
     saveTimerRef := saveTimerRef w; statusTimerRef := statusTimerRef w;
     mounted := true; formChanged := false; hasCleanup := hasCleanup w;
     clock := clock w;
     timers := cancel_ref (saveTimerRef w) (timers w);
     nextTimer := nextTimer w;
     localStorage :=
       {| items := items (localStorage w);
          quota := quota (localStorage w);
          calls := calls (localStorage w)
                   ++ [SetItem STORAGE_KEY (record (form w) (clock w)) false] |};
     console := console w ++ [("Error saving to localStorage:", QuotaExceededError)] |}.
Proof.
  destruct w as [f0 s l sr str m fc hc c ts nt st con]. simpl.
  intros -> ->. unfold fits, record, dispatch, flush. unfold_js.
  destruct sr; simpl; by intros ->.
Qed.

Lemma fire_save_fail t f w :
  action t = SaveTimer f -> formChanged w = false ->
  fits f (dequeue t w) = false ->
  fire t w =
  {| form := form w; status := if mounted w then error else status w;
     lastSaved := lastSaved w;
     saveTimerRef := saveTimerRef w; statusTimerRef := statusTimerRef w;
     mounted := mounted w; formChanged := false; hasCleanup := hasCleanup w;
     clock := N.max (clock w) (due t);
     timers := cancel (tid t) (timers w);
     nextTimer := nextTimer w;
     localStorage :=
       {| items := items (localStorage w);
          quota := quota (localStorage w);
          calls := calls (localStorage w)
                   ++ [SetItem STORAGE_KEY (record f (N.max (clock w) (due t))) false] |};
     console := console w ++ [("Error saving to localStorage:", QuotaExceededError)] |}.
Proof.
  destruct w as [f0 s l sr str m fc hc c ts nt st con], t as [id d cb]. simpl.
  intros -> ->. unfold fits, record, fire, dequeue, flush. unfold_js.
  destruct m; simpl; by intros ->.
Qed.

Lemma fire_save_ok t f w :
  action t = SaveTimer f -> formChanged w = false ->
  fits f (dequeue t w) = true ->
  fire t w =
  {| form := form w; status := if mounted w then saving else status w;
     lastSaved := if mounted w then JStr (toISOString (N.max (clock w) (due t)))
                  else lastSaved w;
     saveTimerRef := saveTimerRef w; statusTimerRef := Some (nextTimer w);
     mounted := mounted w; formChanged := false; hasCleanup := hasCleanup w;
     clock := N.max (clock w) (due t);
     timers := cancel_ref (statusTimerRef w) (cancel (tid t) (timers w))
               ++ [{| tid := nextTimer w; due := N.max (clock w) (due t) + 500;
                      action := StatusTimer |}];
     nextTimer := S (nextTimer w);
     localStorage :=
       {| items := <[STORAGE_KEY := record f (N.max (clock w) (due t))]>
                     (items (localStorage w));
          quota := quota (localStorage w);
          calls := calls (localStorage w)
                   ++ [SetItem STORAGE_KEY (record f (N.max (clock w) (due t))) true] |};
     console := console w |}.
Proof.
  destruct w as [f0 s l sr str m fc hc c ts nt st con], t as [id d cb]. simpl.
  intros -> ->. unfold fits, record, fire, dequeue, flush. unfold_js.
  destruct m, str; simpl; by intros ->.
Qed.

(** C6. When [setItem] refuses the record, in a save started by the button
    or by the debounce timer: [saveToLocalStorage] returns normally, the
    status is [error], the timestamp and the stored entries are unchanged,
    the refusal is logged, exactly that one call was made, and no further
    call follows as time passes. *)
Theorem failed_write w f w1 w' :
  reachable w -> save_attempt w f w1 w' -> fits f w1 = false ->
  fst (saveToLocalStorage f w1) = Ok tt
  ∧ status w' = error
  ∧ lastSaved w' = lastSaved w
  ∧ items (localStorage w') = items (localStorage w)
  ∧ writes w' = (writes w ++ [(STORAGE_KEY, record f (clock w1))])%list
  ∧ console w' = (console w ++ [("Error saving to localStorage:", QuotaExceededError)])%list
  ∧ ∀ dts, writes (elapse dts w') = writes w'
           ∧ lastSaved (elapse dts w') = lastSaved w.
Proof.
  intros Hr Ha Hfit. apply reachable_inv in Hr.
  split; [apply saveToLocalStorage_returns|].
  destruct Hr as ((Hs & _ & _) & Hfc).
  assert (H : status w' = error ∧ lastSaved w' = lastSaved w
              ∧ items (localStorage w') = items (localStorage w)
              ∧ writes w' = (writes w ++ [(STORAGE_KEY, record f (clock w1))])%list
              ∧ console w' = (console w ++ [("Error saving to localStorage:", QuotaExceededError)])%list
              ∧ formChanged w' = false ∧ save_free (timers w')).
  { destruct Ha as [w Hm | w horizon t f Hn Hact].
    - rewrite (manualSave_fail w Hm Hfc Hfit). unfold writes. simpl.
      rewrite set_calls_app. repeat split; try done.
      + unfold exec, clearTimeout. by destruct (saveTimerRef w).
      + by eapply saves_tracked_cancel_any.
    - pose proof (next_timer_elem _ _ _ Hn) as Hin.
      assert (Hsv : is_save t = true) by (unfold is_save; by rewrite Hact).
      destruct (Hs t Hin Hsv) as (Hm & Hhc & Href).
      rewrite (fire_save_fail t f w Hact Hfc Hfit). unfold writes. simpl.
      rewrite set_calls_app, Hm. repeat split; try done.
      rewrite Href in Hs. eauto with timers. }
  destruct H as (? & Hl & ? & ? & ? & Hfc' & Hsf). repeat split; try done.
  - by apply writes_elapse_quiet.
  - destruct (elapse_quiet dts w' Hfc' Hsf) as (_ & _ & -> & _). done.
Qed.
End SaveAndClear.

(** * The debounce *)

Section Debounce.

Implicit Types (ts : list timer) (t : timer).

Lemma cost_pos t : (1 <= cost t)%nat.
Proof. unfold cost. destruct (action t); lia. Qed.

Lemma weight_cancel_elem ts t :
  t ∈ ts -> (weight (cancel (tid t) ts) + cost t <= weight ts)%nat.
Proof.
  unfold cancel. induction ts as [|t0 ts IH]; [by intros ?%elem_of_nil|].
  intros Hin. rewrite filter_cons. simpl.
  destruct (decide (tid t0 ≠ tid t)) as [Hne|Heq]; simpl.
  - apply elem_of_cons in Hin as [->|Hin]; [done|]. specialize (IH Hin). lia.
  - apply elem_of_cons in Hin as [->|Hin].
    + clear IH Heq. induction ts as [|t1 ts IH]; simpl; [lia|].
      rewrite filter_cons. destruct (decide _); simpl; lia.
    + specialize (IH Hin). pose proof (cost_pos t0). lia.
Qed.

Lemma weight_cancel_le id ts : (weight (cancel id ts) <= weight ts)%nat.
Proof.
  unfold cancel. induction ts as [|t0 ts IH]; simpl; [lia|].
  rewrite filter_cons. destruct (decide _); simpl; lia.
Qed.

Lemma weight_snoc ts t : weight (ts ++ [t]) = (weight ts + cost t)%nat.
Proof. induction ts as [|t0 ts IH]; simpl; lia. Qed.

Lemma tid_inj ts t t' :
  NoDup (tid <$> ts) -> t ∈ ts -> t' ∈ ts -> tid t = tid t' -> t = t'.
Proof.
  induction ts as [|t0 ts IH]; [by intros _ ?%elem_of_nil|].
  simpl. intros [Hnotin Hnd]%NoDup_cons Hin Hin' Heq.
  apply elem_of_cons in Hin as [->|Hin], Hin' as [->|Hin']; try done.
  - exfalso. apply Hnotin. rewrite Heq. by apply list_elem_of_fmap_2.
  - exfalso. apply Hnotin. rewrite <- Heq. by apply list_elem_of_fmap_2.
  - by apply IH.
Qed.

(** In a reachable world at most one save timer is pending. *)
Lemma save_timer_unique w t t' :
  Inv w -> t ∈ timers w -> t' ∈ timers w ->
  is_save t = true -> is_save t' = true -> t = t'.
Proof.
  intros ((Hs & [Hnd _] & _) & _) Hin Hin' Ht Ht'.
  destruct (Hs t Hin Ht) as (_ & _ & Hr), (Hs t' Hin' Ht') as (_ & _ & Hr').
  apply (tid_inj (timers w)); try done. congruence.
Qed.

(** Time passes, but not enough for the pending save timer: it stays
    pending and nothing reaches the store. *)
Lemma run_timers_wait fuel horizon w t :
  Inv w -> t ∈ timers w -> is_save t = true -> horizon < due t ->
  let w' := run_timers fuel horizon w in
  t ∈ timers w' ∧ localStorage w' = localStorage w ∧ form w' = form w
  ∧ mounted w' = mounted w ∧ clock w' <= N.max (clock w) horizon.
Proof.
  revert w. induction fuel as [|k IH]; intros w HI Hin Ht Hlt; simpl.
  { repeat split; try done. lia. }
  destruct (next_timer horizon (timers w)) as [t1|] eqn:Hn.
  2: { repeat split; try done. lia. }
  pose proof (next_timer_elem _ _ _ Hn) as Hin1.
  pose proof (next_timer_due _ _ _ Hn) as Hdue1.
  assert (Hs1 : is_save t1 = false).
  { destruct (is_save t1) eqn:E; [|done].
    rewrite (save_timer_unique w t1 t HI Hin1 Hin E Ht) in Hdue1. lia. }
  assert (Hne : tid t ≠ tid t1).
  { intros Heq. destruct HI as ((_ & [Hnd _] & _) & _).
    rewrite (tid_inj _ _ _ Hnd Hin Hin1 Heq) in Ht. congruence. }
  pose proof (fire_inv t1 w HI) as HI'.
  destruct HI as (_ & Hfc).
  rewrite (fire_quiet t1 w Hfc Hs1) in *.
  match goal with |- context [run_timers k horizon ?x] => specialize (IH x HI') end.
  simpl in IH. destruct IH as (? & ? & ? & ? & ?); [by apply elem_of_cancel|done|done|].
  repeat split; try done. lia.
Qed.

Lemma run_timers_clock fuel horizon w :
  Inv w -> clock (run_timers fuel horizon w) <= N.max (clock w) horizon.
Proof.
  revert w. induction fuel as [|k IH]; intros w HI; simpl; [lia|].
  destruct (next_timer horizon (timers w)) as [t1|] eqn:Hn; [|lia].
  pose proof (next_timer_due _ _ _ Hn) as Hdue1.
  specialize (IH _ (fire_inv t1 w HI)).
  assert (clock (fire t1 w) = N.max (clock w) (due t1)).
  { destruct HI as (_ & Hfc).
    destruct w as [f0 s l sr str m fc hc c ts nt st con], t1 as [id d cb].
    simpl in *. subst fc. unfold fire, dequeue, flush. unfold_js.
    destruct cb; simpl; try by destruct m.
    destruct m; simpl; destruct (_ <=? _); simpl; by destruct str. }
  lia.
Qed.

(** Time passes and covers the pending save timer: [saveToLocalStorage] is
    called once, at the due time, with the form the timer was armed for. *)
Lemma run_timers_fires fuel horizon w t f :
  Inv w -> t ∈ timers w -> action t = SaveTimer f ->
  due t <= horizon -> clock w <= due t -> (weight (timers w) <= fuel)%nat ->
  let w' := run_timers fuel horizon w in
  writes w' = (writes w ++ [(STORAGE_KEY, record f (due t))])%list
  ∧ save_free (timers w').
Proof.
  revert w. induction fuel as [|k IH]; intros w HI Hin Hact Hdue Hclk Hfuel.
  { pose proof (weight_cancel_elem _ _ Hin). pose proof (cost_pos t). lia. }
  assert (Ht : is_save t = true) by (unfold is_save; by rewrite Hact).
  simpl. destruct (next_timer horizon (timers w)) as [t1|] eqn:Hn.
  2: { pose proof (next_timer_none _ _ _ Hn Hin). lia. }
  pose proof (next_timer_elem _ _ _ Hn) as Hin1.
  pose proof (next_timer_le _ _ _ _ Hn Hin) as Hle1.
  pose proof (fire_inv t1 w HI) as HI'.
  pose proof (weight_cancel_elem _ _ Hin1) as Hw.
  destruct (is_save t1) eqn:Hs1.
  - assert (t1 = t) as -> by (by apply (save_timer_unique w)).
    destruct HI as ((Hs & _ & _) & Hfc).
    destruct (Hs t Hin Ht) as (_ & _ & Href). rewrite Href in Hs.
    assert (Hmax : N.max (clock w) (due t) = due t) by lia.
    assert (Hq : ∀ x, formChanged x = false -> save_free (timers x) ->
                 writes (run_timers k horizon x) = writes x
                 ∧ save_free (timers (run_timers k horizon x))).
    { intros x Hx Hsf. destruct (run_timers_quiet k horizon x Hx Hsf) as (Hst & ? & _).
      unfold writes. by rewrite Hst. }
    destruct (fits f (dequeue t w)) eqn:Hfit.
    + rewrite (fire_save_ok t f w Hact Hfc Hfit).
      match goal with |- context [run_timers k horizon ?x] =>
        destruct (Hq x) as [Hq1 Hq2] end; simpl.
      * done.
      * apply save_free_snoc; [|done]. destruct (statusTimerRef w); simpl; eauto with timers.
      * split; [|exact Hq2]. rewrite Hq1. unfold writes. simpl.
        by rewrite set_calls_app, Hmax.
    + rewrite (fire_save_fail t f w Hact Hfc Hfit).
      match goal with |- context [run_timers k horizon ?x] =>
        destruct (Hq x) as [Hq1 Hq2] end; simpl.
      * done.
      * eauto with timers.
      * split; [|exact Hq2]. rewrite Hq1. unfold writes. simpl.
        by rewrite set_calls_app, Hmax.
  - assert (Hne : tid t ≠ tid t1).
    { intros Heq. destruct HI as ((_ & [Hnd _] & _) & _).
      rewrite (tid_inj _ _ _ Hnd Hin Hin1 Heq) in Ht. congruence. }
    destruct HI as (_ & Hfc).
    rewrite (fire_quiet t1 w Hfc Hs1) in *.
    match goal with |- context [run_timers k horizon ?x] => specialize (IH x HI') end.
    simpl in IH. apply IH; try done.
    + by apply elem_of_cancel.
    + lia.
    + pose proof (cost_pos t1). lia.
Qed.

Lemma nonEmptyForm_spec f : nonEmptyForm f = true -> isEmptyForm f = Ok false.
Proof. unfold nonEmptyForm. by destruct (isEmptyForm f) as [[]|]. Qed.

Lemma change_nonempty name value w :
  mounted w = true -> formChanged w = false ->
  nonEmptyForm (form (step (Change name value) w)) = true ->
  step (Change name value) w =
  let f' := JObj (assoc_set (spread (form w)) name (JStr value)) in
  {| form := f'; status := unsaved; lastSaved := lastSaved w;
     saveTimerRef := Some (nextTimer w); statusTimerRef := statusTimerRef w;
     mounted := true; formChanged := false; hasCleanup := true;
     clock := clock w;
     timers := cancel_ref (saveTimerRef w) (timers w)
               ++ [{| tid := nextTimer w; due := clock w + SAVE_DELAY;
                      action := SaveTimer f' |}];
     nextTimer := S (nextTimer w);
     localStorage := localStorage w;
     console := console w |}.
Proof.
  destruct w as [f0 s l sr str m fc hc c ts nt st con]. simpl.
  intros -> ->. unfold dispatch, flush, nonEmptyForm. unfold_js. simpl.
  set (f' := JObj (assoc_set (spread f0) name (JStr value))).
  destruct hc, sr as [id|]; simpl; destruct (isEmptyForm f') as [[]|] eqn:He; simpl;
    rewrite ?He; try done; intros _; by rewrite ?cancel_idemp.
Qed.

(** An edit that leaves a non-empty form arms the one pending save timer. *)
Lemma change_arms name value w :
  Inv w -> mounted w = true ->
  nonEmptyForm (form (step (Change name value) w)) = true ->
  armed (step (Change name value) w) (writes w)
  ∧ clock (step (Change name value) w) = clock w.
Proof.
  intros HI Hm Hne. pose proof (step_inv (Change name value) w HI) as HI'.
  destruct HI as (_ & Hfc).
  rewrite (change_nonempty name value w Hm Hfc Hne) in *. simpl.
  split; [|done]. split; [done|]. split; [done|]. split; [done|].
  eexists. split; [|split]; [apply elem_of_app; right; apply list_elem_of_singleton; reflexivity|done|done].
Qed.

Lemma writes_with_clock now w : writes (with_clock now w) = writes w.
Proof. by destruct w. Qed.

Lemma advance_clock dt w : Inv w -> clock (advance dt w) = clock w + dt.
Proof.
  intros HI. unfold advance.
  pose proof (run_timers_clock (weight (timers w)) (clock w + dt) w HI) as Hc.
  destruct (run_timers _ _ w); simpl in *. lia.
Qed.

(** Time passes, but the save timer is not due yet: it is still pending and
    the store has not been called. *)
Lemma advance_waits dt w base f d :
  waiting w base f d -> clock w + dt < d ->
  waiting (advance dt w) base f d
  ∧ form (advance dt w) = form w ∧ mounted (advance dt w) = mounted w.
Proof.
  intros (HI & Hw & Hclk & t & Hin & Hact & Hdue) Hlt.
  pose proof (advance_inv dt w HI) as HI'.
  pose proof (advance_clock dt w HI) as Hc.
  assert (Ht : is_save t = true) by (unfold is_save; by rewrite Hact).
  rewrite <- Hdue in Hlt.
  pose proof (run_timers_wait (weight (timers w)) (clock w + dt) w t HI Hin Ht Hlt) as H.
  simpl in H. destruct H as (Hin' & Hst & Hf & Hm' & _).
  unfold waiting, advance, writes in *.
  destruct (run_timers _ _ w); simpl in *. subst.
  split; [|done]. split; [exact HI'|]. repeat split; try done; [lia|eauto].
Qed.

(** Time passes and reaches the due time: [setItem] is called once, with the
    form the timer was armed for, and no save timer is left. *)
Lemma advance_fires dt w base f d :
  waiting w base f d -> d <= clock w + dt ->
  Inv (advance dt w) ∧ save_free (timers (advance dt w))
  ∧ writes (advance dt w) = (base ++ [(STORAGE_KEY, record f d)])%list.
Proof.
  intros (HI & Hw & Hclk & t & Hin & Hact & Hdue) Hle.
  split; [by apply advance_inv|].
  destruct (run_timers_fires (weight (timers w)) (clock w + dt) w t f)
    as [Hwr Hsf]; try done; try lia.
  unfold advance. rewrite writes_with_clock, Hwr, Hw, Hdue. split; [|done].
  by destruct (run_timers _ _ w).
Qed.

(** However the passing of time is cut into steps, the pending save is made
    exactly when the steps add up to its due time, and once. *)
Lemma elapse_waiting dts w base f d :
  waiting w base f d ->
  writes (elapse dts w)
  = (base ++ if d <=? clock w + total dts then [(STORAGE_KEY, record f d)] else [])%list.
Proof.
  revert w. induction dts as [|dt dts IH]; intros w Hw; simpl.
  - destruct Hw as (_ & Hwr & Hclk & _). unfold elapse. simpl.
    rewrite N.add_0_r. destruct (N.leb_spec d (clock w)); [lia|]. by rewrite app_nil_r.
  - rewrite elapse_cons.
    destruct (N.lt_ge_cases (clock w + dt) d) as [Hlt|Hge].
    + destruct (advance_waits dt w base f d Hw Hlt) as (Hw' & _).
      rewrite (IH _ Hw'). destruct Hw as (HI & _).
      rewrite (advance_clock dt w HI). by rewrite N.add_assoc.
    + destruct (advance_fires dt w base f d Hw Hge) as ((_ & Hfc) & Hsf & Hwr).
      rewrite writes_elapse_quiet, Hwr by done.
      destruct (N.leb_spec d (clock w + (dt + total dts))); [done|lia].
Qed.

Lemma armed_waiting w base :
  armed w base -> waiting w base (form w) (clock w + SAVE_DELAY).
Proof.
  intros (HI & Hm & Hw & t & Hin & Hact & Hdue).
  split; [done|]. split; [done|]. split; [unfold SAVE_DELAY; lia|]. eauto.
Qed.

Lemma advance_keeps gap w base :
  armed w base -> gap < SAVE_DELAY ->
  Inv (advance gap w) ∧ mounted (advance gap w) = true ∧ writes (advance gap w) = base.
Proof.
  intros Ha Hgap. pose proof Ha as (_ & Hm & _).
  destruct (advance_waits gap w base (form w) (clock w + SAVE_DELAY))
    as ((HI & Hw & _) & _ & Hm'); [by apply armed_waiting|lia|].
  by rewrite Hm' .
Qed.

Lemma edit_step gap name value w base :
  armed w base -> gap < SAVE_DELAY ->
  nonEmptyForm (form (step (Change name value) (step (Advance gap) w))) = true ->
  armed (step (Change name value) (step (Advance gap) w)) base.
Proof.
  intros Ha Hgap Hne. destruct (advance_keeps gap w base Ha Hgap) as (HI & Hm & Hw).
  destruct (change_arms name value _ HI Hm Hne) as [H _]. by rewrite Hw in H.
Qed.

Lemma burst_armed es w base :
  armed w base -> burst_ok es w = true -> armed (burst es w) base.
Proof.
  revert w. induction es as [|[[gap name] value] es IH]; intros w Ha Hok; simpl in *; [done|].
  apply andb_prop in Hok as [[Hgap Hne]%andb_prop Hok].
  apply IH; [|done]. apply edit_step; [done| |done]. by apply N.ltb_lt.
Qed.

Lemma armed_fires dts w base :
  armed w base ->
  writes (elapse dts w)
  = (base ++ if SAVE_DELAY <=? total dts
             then [(STORAGE_KEY, record (form w) (clock w + SAVE_DELAY))] else [])%list.
Proof.
  intros Ha. rewrite (elapse_waiting dts w base _ _ (armed_waiting w base Ha)).
  do 2 f_equal. destruct (N.leb_spec SAVE_DELAY (total dts));
    destruct (N.leb_spec (clock w + SAVE_DELAY) (clock w + total dts)); try done; lia.
Qed.

Lemma armed_unmount es w base :
  armed w base -> writes (run es (step Unmount w)) = base.
Proof.
  intros (HI & Hm & Hw & _). destruct (unmount_spec w HI) as (Hm' & Hfc & Hsf & Hst).
  destruct (run_unmounted es (unmount w) Hm' Hfc Hsf) as (Hst' & _).
  unfold writes in *. simpl. by rewrite Hst', Hst.
Qed.

Lemma armed_clear dts w base :
  armed w base -> writes (elapse dts (step (Clear true) w)) = base.
Proof.
  intros (HI & Hm & Hw & _).
  destruct (clear_true_spec w HI Hm) as (_ & _ & _ & _ & Hsf & Hfc & Hw').
  rewrite writes_elapse_quiet; try done. by rewrite Hw'.
Qed.


End Debounce.

(** * The stored record read back *)

Section JsonRoundTrip.

Import JSON.

#[local] Arguments String.append : simpl nomatch.

Lemma sapp_assoc (x y z : string) : (x ++ y) ++ z = x ++ (y ++ z).
Proof. induction x as [|c x IH]; simpl; [done|]. by rewrite IH. Qed.

(** One character of a quoted string is read back as one unit. *)
Lemma parse_quote_char c text us r :
  parse_string_body text = Some (us, r) ->
  ∃ u, parse_string_body (quote_char c ++ text) = Some (u :: us, r)
       ∧ ∀ us', encode_units (u :: us') = String c (encode_units us').
Proof.
  intros H.
  destruct c as [[] [] [] [] [] [] [] []];
    (eexists; split;
     [ match goal with |- context [quote_char ?c] =>
         let q := eval vm_compute in (quote_char c) in change (quote_char c) with q end;
       simpl; rewrite H; reflexivity
     | intros us'; try reflexivity; destruct us' as [|[|lo] us']; reflexivity ]).
Qed.

Lemma parse_quote_body s rest :
  ∃ us, parse_string_body (quote_body s ++ String dquote rest) = Some (us, rest)
        ∧ encode_units us = s.
Proof.
  induction s as [|c s (us & Hp & He)]; simpl.
  - by exists [].
  - rewrite sapp_assoc.
    destruct (parse_quote_char c _ _ _ Hp) as (u & Hp' & He').
    exists (u :: us). split; [done|]. by rewrite He', He.
Qed.

Ltac read_literal x :=
  lazymatch goal with
  | |- context [parse_string_body (String.append (quote_body x) (String dquote ?r))] =>
      let us := fresh "us" in
      let Hp := fresh "Hp" in
      let He := fresh "He" in
      destruct (parse_quote_body x r) as (us & Hp & He);
      rewrite Hp, ?He; clear Hp
  end.

Lemma parse_record_fuel a b ts :
  parse_value 6 (stringify (JObj [("form", document a b); ("timestamp", JStr ts)]))
  = POk (JObj [("form", document a b); ("timestamp", JStr ts)]) "".
Proof.
  unfold stringify, document. simpl. unfold quote.
  simpl. rewrite !sapp_assoc. simpl.
  read_literal a. simpl. rewrite ?He, ?sapp_assoc. simpl.
  read_literal b. simpl. rewrite ?He0, ?sapp_assoc. simpl.
  read_literal ts. simpl. rewrite ?He1.
  reflexivity.
Qed.

(** More fuel does not change a result. *)
Lemma parse_fuel_mono k :
  (∀ s v r, parse_value k s = POk v r -> parse_value (S k) s = POk v r)
  ∧ (∀ s acc v r, parse_elements k s acc = POk v r -> parse_elements (S k) s acc = POk v r)
  ∧ (∀ s acc v r, parse_members k s acc = POk v r -> parse_members (S k) s acc = POk v r).
Proof.
  induction k as [|k (IHv & IHe & IHm)]; [by repeat split|].
  remember (S k) as k' eqn:Hk.
  split; [|split].
  - intros s v r H. rewrite Hk in H. simpl in H |- *.
    destruct (skip_ws s) as [|c r0]; [done|].
    destruct (is_char c 34); [done|].
    destruct (is_char c 91).
    { destruct (skip_ws r0) as [|d r1]; [done|].
      destruct (is_char d 93); [done|]. subst k'. by apply IHe. }
    destruct (is_char c 123); [|done].
    destruct (skip_ws r0) as [|d r1]; [done|].
    destruct (is_char d 125); [done|]. subst k'. by apply IHm.
  - intros s acc v r H. rewrite Hk in H. simpl in H |- *.
    destruct (parse_value k s) as [v0 r0| |] eqn:E; try done.
    subst k'. rewrite (IHv _ _ _ E).
    destruct (skip_ws r0) as [|c r1]; [done|].
    destruct (is_char c 44); [by apply IHe|done].
  - intros s acc v r H. rewrite Hk in H. simpl in H |- *.
    destruct (skip_ws s) as [|c r0]; [done|].
    destruct (is_char c 34); [|done].
    destruct (parse_string_body r0) as [[us r1]|]; [|done].
    destruct (skip_ws r1) as [|d r2]; [done|].
    destruct (is_char d 58); [|done].
    destruct (parse_value k r2) as [v0 r3| |] eqn:E; try done.
    subst k'. rewrite (IHv _ _ _ E).
    destruct (skip_ws r3) as [|e r4]; [done|].
    destruct (is_char e 44); [by apply IHm|done].
Qed.

Lemma parse_value_more k k' s v r :
  parse_value k s = POk v r -> (k <= k')%nat -> parse_value k' s = POk v r.
Proof.
  intros H. induction 1 as [|k' _ IH]; [done|].
  by apply (parse_fuel_mono k').
Qed.

(** What [saveToLocalStorage] writes for a document is read back as written. *)
Lemma parse_record a b ts :
  parse (stringify (JObj [("form", document a b); ("timestamp", JStr ts)]))
  = Ok (JObj [("form", document a b); ("timestamp", JStr ts)]).
Proof.
  unfold parse.
  rewrite (parse_value_more 6 _ _ _ _ (parse_record_fuel a b ts)); [done|].
  unfold stringify, document. simpl. lia.
Qed.

Lemma mountEffects_loaded store now text data f t :
  items store !! STORAGE_KEY = Some text ->
  truthy (JStr text) = true ->
  JSON.parse text = Ok data ->
  get_prop data "form" = Ok f ->
  get_prop data "timestamp" = Ok t ->
  mountEffects store now =
  {| form := f; status := saved; lastSaved := t;
     saveTimerRef := None; statusTimerRef := None;
     mounted := true; formChanged := true; hasCleanup := false;
     clock := now;
     timers := [{| tid := 1; due := now + 2000; action := LoadedTimer |}];
     nextTimer := 2;
     localStorage := store; console := [] |}.
Proof.
  intros Hget Htruthy Hparse Hform Htime.
  unfold mountEffects, initialWorld. unfold_js. simpl in *.
  by rewrite Hget, Htruthy, Hparse, Hform, Htime.
Qed.

(** After a load that found a non-empty form, the re-render treats the loaded
    form as an edit: the auto-save effect runs for it, shows [unsaved] and
    arms a save. *)
Lemma mount_loaded_rearms store now text data f t :
  items store !! STORAGE_KEY = Some text ->
  truthy (JStr text) = true ->
  JSON.parse text = Ok data ->
  get_prop data "form" = Ok f ->
  get_prop data "timestamp" = Ok t ->
  nonEmptyForm f = true ->
  mount store now =
  {| form := f; status := unsaved; lastSaved := t;
     saveTimerRef := Some 2%nat; statusTimerRef := None;
     mounted := true; formChanged := false; hasCleanup := true;
     clock := now;
     timers := [{| tid := 1; due := now + 2000; action := LoadedTimer |};
                {| tid := 2; due := now + SAVE_DELAY; action := SaveTimer f |}];
     nextTimer := 3;
     localStorage := store; console := [] |}.
Proof.
  intros Hget Htruthy Hparse Hform Htime Hne. unfold mount.
  rewrite (mountEffects_loaded store now text data f t) by done.
  apply nonEmptyForm_spec in Hne. unfold flush. unfold_js. simpl. by rewrite Hne.
Qed.

(** React's commit changes neither form, timestamp nor store. *)
Lemma flush_keeps w :
  form (flush w) = form w ∧ lastSaved (flush w) = lastSaved w
  ∧ localStorage (flush w) = localStorage w.
Proof.
  destruct w as [f s l sr str m fc hc c ts nt st con].
  unfold flush. unfold_js. simpl.
  destruct m, fc; simpl; try done.
  destruct hc, sr as [id|]; simpl; by destruct (isEmptyForm f) as [[]|].
Qed.



(** C7, amended. When the stored entry is absent, empty, or raises while it
    is decoded ([JSON.parse] throws, or the parsed value is [null]), mounting
    leaves the empty form, no timestamp, status [idle], a mounted component
    with no timer and an untouched store; the exception, if any, is logged
    and goes no further. *)
Theorem load_unreadable_starts_empty store now :
  unreadable store = true ->
  let w := mount store now in
  mountEffects store now = w
  ∧ form w = emptyForm ∧ lastSaved w = JNull ∧ status w = idle
  ∧ mounted w = true ∧ timers w = [] ∧ localStorage w = store
  ∧ console w = match decode_error store with
                | Some e => [("Error loading from localStorage:", e)]
                | None => []
                end.
Proof.
  unfold unreadable, decode_error, mount, mountEffects, initialWorld, flush.
  unfold_js. simpl.
  destruct (items store !! STORAGE_KEY) as [text|]; simpl; [|by destruct store].
  destruct (negb (text =? "")%string); simpl; [|by destruct store].
  destruct (JSON.parse text) as [data|e]; simpl; [|by destruct store].
  destruct (get_prop data "form") as [f|e]; simpl; [done|by destruct store].
Qed.
End JsonRoundTrip.

(** * Enough fuel for the timer queue *)

Section Drain.

Lemma weight_cancel_ref r ts : (weight (cancel_ref r ts) <= weight ts)%nat.
Proof. destruct r; simpl; [apply weight_cancel_le|done]. Qed.

Lemma fire_weight t w :
  formChanged w = false -> t ∈ timers w ->
  (weight (timers (fire t w)) < weight (timers w))%nat
  ∧ formChanged (fire t w) = false.
Proof.
  intros Hfc Hin. pose proof (weight_cancel_elem _ _ Hin) as Hw.
  destruct (action t) as [|f|] eqn:Hact.
  - rewrite fire_quiet by (done || unfold is_save; by rewrite Hact). simpl.
    pose proof (cost_pos t). split; [lia|done].
  - assert (cost t = 2%nat) as Hc by (unfold cost; by rewrite Hact).
    destruct (fits f (dequeue t w)) eqn:Hfit.
    + rewrite (fire_save_ok t f w Hact Hfc Hfit). simpl. rewrite weight_snoc.
      pose proof (weight_cancel_ref (statusTimerRef w) (cancel (tid t) (timers w))).
      unfold cost at 1. simpl. split; [lia|done].
    + rewrite (fire_save_fail t f w Hact Hfc Hfit). simpl. split; [lia|done].
  - rewrite fire_quiet by (done || unfold is_save; by rewrite Hact). simpl.
    pose proof (cost_pos t). split; [lia|done].
Qed.

Lemma run_timers_drains fuel horizon w :
  formChanged w = false -> (weight (timers w) <= fuel)%nat ->
  next_timer horizon (timers (run_timers fuel horizon w)) = None.
Proof.
  revert w. induction fuel as [|k IH]; intros w Hfc Hfuel; simpl.
  - destruct (timers w) as [|t ts]; [done|]. simpl in Hfuel. pose proof (cost_pos t). lia.
  - destruct (next_timer horizon (timers w)) as [t|] eqn:Hn; [|done].
    destruct (fire_weight t w Hfc (next_timer_elem _ _ _ Hn)) as [Hlt Hfc'].
    apply IH; [done|lia].
Qed.

(** The fuel [advance] gives to [run_timers] is enough: afterwards every
    pending timer is due later than the time reached. *)
Lemma advance_drains dt w t :
  reachable w -> t ∈ timers (advance dt w) -> clock w + dt < due t.
Proof.
  intros [_ Hfc]%reachable_inv Hin. unfold advance in Hin.
  pose proof (run_timers_drains (weight (timers w)) (clock w + dt) w Hfc (le_n _)) as Hn.
  destruct (run_timers _ _ w); simpl in *. by apply (next_timer_none _ _ _ Hn).
Qed.

End Drain.

(** * What the save timers carry *)

Section NonEmpty.

Implicit Types (ts : list timer) (t : timer).

Lemma saves_nonempty_cancel id ts : saves_nonempty ts -> saves_nonempty (cancel id ts).
Proof.
  unfold saves_nonempty. rewrite !Forall_forall.
  intros H t [_ Hin]%elem_of_cancel. by apply H.
Qed.

Lemma saves_nonempty_cancel_ref r ts :
  saves_nonempty ts -> saves_nonempty (cancel_ref r ts).
Proof. destruct r; simpl; [apply saves_nonempty_cancel|done]. Qed.

Lemma saves_nonempty_snoc ts t :
  saves_nonempty ts -> (∀ f, action t = SaveTimer f -> isEmptyForm f = Ok false) ->
  saves_nonempty (ts ++ [t]).
Proof. intros H Ht. apply Forall_app. split; [done|]. by constructor. Qed.

#[local] Hint Resolve saves_nonempty_cancel saves_nonempty_cancel_ref : nonempty.
#[local] Hint Extern 2 (saves_nonempty (_ ++ [_])) =>
  apply saves_nonempty_snoc; [|simpl; intros ?; congruence] : nonempty.

Lemma flush_nonempty w :
  saves_nonempty (timers w) -> saves_nonempty (timers (flush w)).
Proof.
  destruct w as [f s l sr str m fc hc c ts nt st con].
  unfold flush. simpl. intros H.
  destruct m, fc; simpl; try done.
  unfold_js. simpl.
  destruct hc, sr as [id|]; simpl; destruct (isEmptyForm f) as [[]|] eqn:He; simpl;
    eauto with nonempty.
Qed.

Lemma saveToLocalStorage_nonempty f w :
  saves_nonempty (timers w) -> saves_nonempty (timers (exec (saveToLocalStorage f) w)).
Proof.
  destruct w as [f0 s l sr str m fc hc c ts nt st con].
  unfold_js. simpl. intros H.
  destruct m; simpl; destruct (_ <=? _); simpl; destruct str; simpl; eauto with nonempty.
Qed.

Lemma dequeue_nonempty t w :
  saves_nonempty (timers w) -> saves_nonempty (timers (dequeue t w)).
Proof. destruct w as [f0 s l sr str m fc hc c ts nt st con]. simpl. apply saves_nonempty_cancel. Qed.

Lemma fire_nonempty t w :
  saves_nonempty (timers w) -> saves_nonempty (timers (fire t w)).
Proof.
  intros H. unfold fire. apply flush_nonempty.
  apply (dequeue_nonempty t) in H. revert H. generalize (dequeue t w). intros u H.
  destruct (action t); simpl; [|by apply saveToLocalStorage_nonempty|].
  all: destruct u as [f0 s l sr str m fc hc c ts nt st con]; unfold_js; simpl in *; by destruct m.
Qed.

Lemma run_timers_nonempty fuel horizon w :
  saves_nonempty (timers w) -> saves_nonempty (timers (run_timers fuel horizon w)).
Proof.
  revert w. induction fuel as [|k IH]; intros w H; simpl; [done|].
  destruct (next_timer horizon (timers w)); [|done]. by apply IH, fire_nonempty.
Qed.

Lemma step_nonempty e w :
  saves_nonempty (timers w) -> saves_nonempty (timers (step e w)).
Proof.
  intros H. destruct e; simpl; unfold dispatch, unmount.
  - destruct (mounted w); [|done]. apply flush_nonempty.
    destruct w as [f0 s l sr str m fc hc c ts nt st con]; unfold_js; simpl in *. by destruct m.
  - destruct (mounted w); [|done]. apply flush_nonempty.
    unfold handleManualSave, bind, exec, getForm. simpl.
    apply saveToLocalStorage_nonempty.
    unfold clearTimeout. destruct (saveTimerRef w); [|done].
    destruct w as [f0 s l sr str m fc hc c ts nt st con]; simpl in *. by apply saves_nonempty_cancel.
  - destruct (mounted w); [|done]. apply flush_nonempty.
    destruct w as [f0 s l sr str m fc hc c ts nt st con]; unfold_js; simpl in *. by destruct confirmed, m.
  - destruct (mounted w); [|done].
    destruct w as [f0 s l sr str m fc hc c ts nt st con]; unfold_js; simpl in *.
    destruct hc, sr; simpl; eauto with nonempty.
  - unfold advance. apply (run_timers_nonempty (weight (timers w)) (clock w + dt)) in H.
    by destruct (run_timers _ _ w).
Qed.

Lemma mount_nonempty store now : saves_nonempty (timers (mount store now)).
Proof.
  unfold mount. apply flush_nonempty.
  unfold mountEffects, initialWorld. unfold_js. simpl.
  assert (H0 : saves_nonempty []) by constructor.
  destruct (items store !! STORAGE_KEY) as [text|]; simpl; [|done].
  destruct (negb _); simpl; [|done].
  destruct (JSON.parse text) as [data|]; simpl; [|done].
  destruct (get_prop data "form"); simpl; [|done].
  destruct (get_prop data "timestamp"); simpl; [|done].
  constructor; [|done]. simpl. intros ?; congruence.
Qed.

(** The debounce path only ever saves a non-empty form: every pending save
    timer of a reachable world was armed for one. *)
Lemma pending_save_nonempty w t f :
  reachable w -> t ∈ timers w -> action t = SaveTimer f -> isEmptyForm f = Ok false.
Proof.
  intros Hr. assert (H : saves_nonempty (timers w)).
  { induction Hr; [apply mount_nonempty|by apply step_nonempty]. }
  unfold saves_nonempty in H. rewrite Forall_forall in H. intros Hin. by apply H.
Qed.

End NonEmpty.

(** * Enough fuel for the parser *)

Section ParseFuel.

Import JSON.
#[local] Arguments String.append : simpl nomatch.

Lemma skip_ws_length s : (String.length (skip_ws s) <= String.length s)%nat.
Proof.
  induction s as [|c s IH]; simpl; [done|]. destruct (is_ws c); simpl; lia.
Qed.

Lemma parse_string_body_length s us r :
  parse_string_body s = Some (us, r) -> (String.length r < String.length s)%nat.
Proof.
  remember (String.length s) as n eqn:Hn. revert s us r Hn.
  induction n as [n IH] using lt_wf_ind. intros s us r Hn.
  destruct s as [|c s']; simpl; [done|].
  destruct (is_char c 34). { intros [= <- <-]. simpl in Hn. lia. }
  destruct (is_char c 92).
  - destruct s' as [|d s'']; [done|].
    destruct (is_char d 117).
    + destruct s'' as [|h1 [|h2 [|h3 [|h4 r0]]]]; try done.
      destruct (hex4 h1 h2 h3 h4); [|done].
      destruct (parse_string_body r0) as [[us0 r1]|] eqn:E; [|done].
      intros [= <- <-]. simpl in Hn.
      specialize (IH (String.length r0) ltac:(lia) r0 us0 r1 eq_refl E). simpl. lia.
    + destruct (unescape d); [|done].
      destruct (parse_string_body s'') as [[us0 r1]|] eqn:E; [|done].
      intros [= <- <-]. simpl in Hn.
      specialize (IH (String.length s'') ltac:(lia) s'' us0 r1 eq_refl E). simpl. lia.
  - destruct (_ <? _); [done|].
    destruct (parse_string_body s') as [[us0 r1]|] eqn:E; [|done].
    intros [= <- <-]. simpl in Hn.
    specialize (IH (String.length s') ltac:(lia) s' us0 r1 eq_refl E). simpl. lia.
Qed.

Lemma span_digits_length s acc cnt m c r :
  span_digits s acc cnt = (m, c, r) -> (String.length r <= String.length s)%nat.
Proof.
  revert acc cnt. induction s as [|a s IH]; intros acc cnt; simpl.
  - by intros [= <- <- <-].
  - destruct (digit_val a).
    + intros H. apply IH in H. lia.
    + intros [= <- <- <-]. simpl. lia.
Qed.

Lemma strip_prefix_length p s r :
  strip_prefix p s = Some r -> String.length s = (String.length p + String.length r)%nat.
Proof.
  revert s. induction p as [|a p IH]; intros s; simpl.
  - by intros [= ->].
  - destruct s as [|b s]; [done|]. destruct (Ascii.eqb a b); [|done].
    intros H. apply IH in H. simpl. lia.
Qed.

Lemma parse_number_length s v r :
  parse_number s = Some (v, r) -> (String.length r < String.length s)%nat.
Proof.
  unfold parse_number.
  set (p := match s with
            | String c s' => if is_char c 45 then (true, s') else (false, s)
            | EmptyString => (false, s)
            end).
  assert (Hp : (String.length p.2 <= String.length s)%nat).
  { subst p. destruct s as [|c s']; simpl; [done|]. destruct (is_char c 45); simpl; lia. }
  destruct p as [neg s1]. simpl in Hp.
  set (ip := match s1 with
             | String c s' =>
                 if is_char c 48 then Some (0, s')
                 else match digit_val c with
                      | Some _ => let '(m, _, r) := span_digits s1 0 0 in Some (m, r)
                      | None => None
                      end
             | EmptyString => None
             end).
  assert (Hip : ∀ m s2, ip = Some (m, s2) -> (String.length s2 < String.length s1)%nat).
  { subst ip. intros m s2. destruct s1 as [|c s']; [done|].
    destruct (is_char c 48). { intros [= <- <-]. simpl. lia. }
    simpl. destruct (digit_val c); [|done].
    destruct (span_digits s' _ _) as [[m' c'] r'] eqn:E.
    intros [= <- <-]. apply span_digits_length in E. simpl. lia. }
  destruct ip as [[m s2]|]; [|done]. specialize (Hip m s2 eq_refl).
  set (fr := match s2 with
             | String c s' =>
                 if is_char c 46 then
                   let '(m', cnt, r) := span_digits s' m 0 in
                   match cnt with O => None | _ => Some (m', cnt, r) end
                 else Some (m, O, s2)
             | EmptyString => Some (m, O, s2)
             end).
  assert (Hfr : ∀ m' cnt s3, fr = Some (m', cnt, s3) -> (String.length s3 <= String.length s2)%nat).
  { subst fr. intros m' cnt s3. destruct s2 as [|c s']; [by intros [= <- <- <-]|].
    destruct (is_char c 46); [|by intros [= <- <- <-]].
    destruct (span_digits s' m 0) as [[m1 c1] r1] eqn:E.
    destruct c1; [done|]. intros [= <- <- <-]. apply span_digits_length in E. simpl. lia. }
  destruct fr as [[[m' cnt] s3]|]; [|done]. specialize (Hfr m' cnt s3 eq_refl).
  destruct s3 as [|c s']; [intros [= <- <-]; lia|].
  destruct (is_char c 101 || is_char c 69); [|intros [= <- <-]; lia].
  set (sg := match s' with
             | String d s'' =>
                 if is_char d 45 then (true, s'')
                 else if is_char d 43 then (false, s'')
                 else (false, s')
             | EmptyString => (false, s')
             end).
  assert (Hsg : (String.length sg.2 <= String.length s')%nat).
  { subst sg. destruct s' as [|d s'']; simpl; [done|].
    destruct (is_char d 45); simpl; [lia|]. destruct (is_char d 43); simpl; lia. }
  destruct sg as [eneg s4]. simpl in Hsg.
  destruct (span_digits s4 0 0) as [[x xcnt] r0] eqn:E.
  destruct xcnt; [done|]. intros [= <- <-].
  apply span_digits_length in E. simpl in *. lia.
Qed.

Lemma parse_literal_length s v r :
  parse_literal s = POk v r -> (String.length r < String.length s)%nat.
Proof.
  unfold parse_literal.
  destruct (strip_prefix "true" s) as [r0|] eqn:E1.
  { intros [= <- <-]. apply strip_prefix_length in E1. simpl in E1. lia. }
  destruct (strip_prefix "false" s) as [r0|] eqn:E2.
  { intros [= <- <-]. apply strip_prefix_length in E2. simpl in E2. lia. }
  destruct (strip_prefix "null" s) as [r0|] eqn:E3.
  { intros [= <- <-]. apply strip_prefix_length in E3. simpl in E3. lia. }
  destruct (parse_number s) as [[v0 r0]|] eqn:E4; [|done].
  intros [= <- <-]. by apply parse_number_length in E4.
Qed.

Lemma parse_literal_fuel s : parse_literal s ≠ PFuel.
Proof.
  unfold parse_literal.
  destruct (strip_prefix "true" s); [done|].
  destruct (strip_prefix "false" s); [done|].
  destruct (strip_prefix "null" s); [done|].
  by destruct (parse_number s) as [[? ?]|].
Qed.

(** A successful parse consumes at least one character. *)
Lemma parse_consumes k :
  (∀ s v r, parse_value k s = POk v r -> (String.length r < String.length s)%nat)
  ∧ (∀ s acc v r, parse_elements k s acc = POk v r -> (String.length r < String.length s)%nat)
  ∧ (∀ s acc v r, parse_members k s acc = POk v r -> (String.length r < String.length s)%nat).
Proof.
  induction k as [|k (IHv & IHe & IHm)]; [by repeat split|].
  split; [|split].
  - intros s v r. simpl. pose proof (skip_ws_length s) as Hs.
    destruct (skip_ws s) as [|c r0]; [done|]. simpl in Hs.
    destruct (is_char c 34).
    { destruct (parse_string_body r0) as [[us r1]|] eqn:E; [|done].
      intros [= <- <-]. apply parse_string_body_length in E. lia. }
    destruct (is_char c 91).
    { pose proof (skip_ws_length r0) as Hs0.
      destruct (skip_ws r0) as [|d r1]; [done|]. simpl in Hs0.
      destruct (is_char d 93). { intros [= <- <-]. lia. }
      intros H. apply IHe in H. simpl in H. lia. }
    destruct (is_char c 123).
    { pose proof (skip_ws_length r0) as Hs0.
      destruct (skip_ws r0) as [|d r1]; [done|]. simpl in Hs0.
      destruct (is_char d 125). { intros [= <- <-]. lia. }
      intros H. apply IHm in H. simpl in H. lia. }
    intros H. apply parse_literal_length in H. simpl in H. lia.
  - intros s acc v r. simpl.
    destruct (parse_value k s) as [v0 r0| |] eqn:E; try done.
    apply IHv in E. pose proof (skip_ws_length r0) as Hs0.
    destruct (skip_ws r0) as [|c r1]; [done|]. simpl in Hs0.
    destruct (is_char c 44). { intros H. apply IHe in H. lia. }
    destruct (is_char c 93); [|done]. intros [= <- <-]. lia.
  - intros s acc v r. simpl. pose proof (skip_ws_length s) as Hs.
    destruct (skip_ws s) as [|c r0]; [done|]. simpl in Hs.
    destruct (is_char c 34); [|done].
    destruct (parse_string_body r0) as [[us r1]|] eqn:E; [|done].
    apply parse_string_body_length in E.
    pose proof (skip_ws_length r1) as Hs1.
    destruct (skip_ws r1) as [|d r2]; [done|]. simpl in Hs1.
    destruct (is_char d 58); [|done].
    destruct (parse_value k r2) as [v0 r3| |] eqn:E2; try done.
    apply IHv in E2. pose proof (skip_ws_length r3) as Hs3.
    destruct (skip_ws r3) as [|e r4]; [done|]. simpl in Hs3.
    destruct (is_char e 44). { intros H. apply IHm in H. lia. }
    destruct (is_char e 125); [|done]. intros [= <- <-]. lia.
Qed.

(** With fuel above twice the length of the text, the parser never runs out. *)
Lemma parse_fuel_enough k :
  (∀ s, (2 * String.length s < k)%nat -> parse_value k s ≠ PFuel)
  ∧ (∀ s acc, (2 * String.length s + 1 < k)%nat -> parse_elements k s acc ≠ PFuel)
  ∧ (∀ s acc, (2 * String.length s < k)%nat -> parse_members k s acc ≠ PFuel).
Proof.
  induction k as [|k (IHv & IHe & IHm)]; [repeat split; intros; lia|].
  destruct (parse_consumes k) as (Cv & Ce & Cm).
  split; [|split].
  - intros s Hk. simpl. pose proof (skip_ws_length s) as Hs.
    destruct (skip_ws s) as [|c r0]; [done|]. simpl in Hs.
    destruct (is_char c 34).
    { by destruct (parse_string_body r0) as [[us r1]|]. }
    destruct (is_char c 91).
    { pose proof (skip_ws_length r0) as Hs0.
      destruct (skip_ws r0) as [|d r1] eqn:E; [done|].
      destruct (is_char d 93); [done|]. apply IHe. simpl in *. lia. }
    destruct (is_char c 123).
    { pose proof (skip_ws_length r0) as Hs0.
      destruct (skip_ws r0) as [|d r1] eqn:E; [done|].
      destruct (is_char d 125); [done|]. apply IHm. simpl in *. lia. }
    apply parse_literal_fuel.
  - intros s acc Hk. simpl.
    destruct (parse_value k s) as [v0 r0| |] eqn:E.
    + apply Cv in E. pose proof (skip_ws_length r0) as Hs0.
      destruct (skip_ws r0) as [|c r1]; [done|]. simpl in Hs0.
      destruct (is_char c 44); [apply IHe; lia|]. by destruct (is_char c 93).
    + done.
    + exfalso. revert E. apply IHv. lia.
  - intros s acc Hk. simpl. pose proof (skip_ws_length s) as Hs.
    destruct (skip_ws s) as [|c r0]; [done|]. simpl in Hs.
    destruct (is_char c 34); [|done].
    destruct (parse_string_body r0) as [[us r1]|] eqn:E; [|done].
    apply parse_string_body_length in E.
    pose proof (skip_ws_length r1) as Hs1.
    destruct (skip_ws r1) as [|d r2]; [done|]. simpl in Hs1.
    destruct (is_char d 58); [|done].
    destruct (parse_value k r2) as [v0 r3| |] eqn:E2.
    + apply Cv in E2. pose proof (skip_ws_length r3) as Hs3.
      destruct (skip_ws r3) as [|e r4]; [done|]. simpl in Hs3.
      destruct (is_char e 44); [apply IHm; lia|]. by destruct (is_char e 125).
    + done.
    + exfalso. revert E2. apply IHv. lia.
Qed.

(** The fuel [JSON.parse] gives the parser is always enough: a [SyntaxError]
    never comes from a lack of fuel. *)
Lemma parse_never_starves s : parse_value (2 * String.length s + 1) s ≠ PFuel.
Proof. apply parse_fuel_enough. lia. Qed.

End ParseFuel.

(** * Timers that an unmount leaves pending *)

Section Owned.

Implicit Types (ts : list timer) (t : timer).

Lemma ref_owned_cancel id ts r n : ref_owned ts r n -> ref_owned (cancel id ts) r n.
Proof.
  intros (Ho & Hf & Hlt). split; [|split]; [|done|].
  - intros t [_ Hin]%elem_of_cancel. by apply Ho.
  - rewrite Forall_forall in *. intros t [_ Hin]%elem_of_cancel. by apply Hlt.
Qed.

Lemma ref_owned_cancel_ref r' ts r n :
  ref_owned ts r n -> ref_owned (cancel_ref r' ts) r n.
Proof. destruct r'; simpl; [apply ref_owned_cancel|done]. Qed.

Lemma ref_owned_snoc ts r n d cb :
  ref_owned ts r n ->
  ref_owned (ts ++ [{| tid := n; due := d; action := cb |}]) r (S n).
Proof.
  intros (Ho & Hf & Hlt). split; [|split].
  - intros t [Hin|Hin]%elem_of_app Hr; [by apply Ho|].
    apply list_elem_of_singleton in Hin as ->. simpl in Hr.
    specialize (Hf _ Hr). lia.
  - intros id Hr. specialize (Hf _ Hr). lia.
  - apply Forall_app. split.
    + eapply Forall_impl; [exact Hlt|]. simpl. intros. lia.
    + constructor; [simpl; lia|constructor].
Qed.

Lemma ref_owned_arm ts r n d f :
  ref_owned ts r n ->
  ref_owned (ts ++ [{| tid := n; due := d; action := SaveTimer f |}]) (Some n) (S n).
Proof.
  intros (Ho & Hf & Hlt). split; [|split].
  - intros t [Hin|Hin]%elem_of_app Hr.
    + rewrite Forall_forall in Hlt. specialize (Hlt t Hin). injection Hr as Hr. lia.
    + by apply list_elem_of_singleton in Hin as ->.
  - intros id [= <-]. lia.
  - apply Forall_app. split.
    + eapply Forall_impl; [exact Hlt|]. simpl. intros. lia.
    + constructor; [simpl; lia|constructor].
Qed.

#[local] Hint Resolve ref_owned_cancel ref_owned_cancel_ref ref_owned_snoc ref_owned_arm : owned.

Lemma flush_own w : Own w -> Own (flush w).
Proof.
  destruct w as [f s l sr str m fc hc c ts nt st con].
  unfold Own, flush. simpl. intros H.
  destruct m, fc; simpl; try done.
  unfold_js. simpl.
  destruct hc, sr as [id|]; simpl; destruct (isEmptyForm f) as [[]|] eqn:He; simpl;
    eauto with owned.
Qed.

Lemma saveToLocalStorage_own f w : Own w -> Own (exec (saveToLocalStorage f) w).
Proof.
  destruct w as [f0 s l sr str m fc hc c ts nt st con].
  unfold Own. unfold_js. simpl. intros H.
  destruct m; simpl; destruct (_ <=? _); simpl; destruct str; simpl; eauto with owned.
Qed.

Lemma fire_own t w : Own w -> Own (fire t w).
Proof.
  intros H. unfold fire. apply flush_own.
  assert (Hd : Own (dequeue t w)).
  { destruct w as [f0 s l sr str m fc hc c ts nt st con]. unfold Own in *. simpl in *.
    by apply ref_owned_cancel. }
  revert Hd. generalize (dequeue t w). intros u Hd.
  destruct (action t); simpl; [|by apply saveToLocalStorage_own|].
  all: destruct u as [f0 s l sr str m fc hc c ts nt st con]; unfold Own in *;
    unfold_js; simpl in *; by destruct m.
Qed.

Lemma run_timers_own fuel horizon w : Own w -> Own (run_timers fuel horizon w).
Proof.
  revert w. induction fuel as [|k IH]; intros w H; simpl; [done|].
  destruct (next_timer horizon (timers w)); [|done]. by apply IH, fire_own.
Qed.

Lemma step_own e w : Own w -> Own (step e w).
Proof.
  intros H. destruct e; simpl; unfold dispatch, unmount.
  - destruct (mounted w); [|done]. apply flush_own.
    destruct w as [f0 s l sr str m fc hc c ts nt st con]; unfold Own in *;
      unfold_js; simpl in *. by destruct m.
  - destruct (mounted w); [|done]. apply flush_own.
    unfold handleManualSave, bind, exec, getForm. simpl.
    apply saveToLocalStorage_own.
    unfold clearTimeout. destruct (saveTimerRef w) eqn:Hr; [|done].
    destruct w as [f0 s l sr str m fc hc c ts nt st con]; unfold Own in *; simpl in *.
    subst sr. by apply ref_owned_cancel.
  - destruct (mounted w); [|done]. apply flush_own.
    destruct w as [f0 s l sr str m fc hc c ts nt st con]; unfold Own in *;
      unfold_js; simpl in *. by destruct confirmed, m.
  - destruct (mounted w); [|done].
    destruct w as [f0 s l sr str m fc hc c ts nt st con]; unfold Own in *;
      unfold_js; simpl in *.
    destruct hc, sr; simpl; eauto with owned.
  - unfold advance. apply (run_timers_own (weight (timers w)) (clock w + dt)) in H.
    by destruct (run_timers _ _ w).
Qed.

Lemma mount_own store now : Own (mount store now).
Proof.
  unfold mount. apply flush_own.
  unfold Own, mountEffects, initialWorld. unfold_js. simpl.
  assert (H0 : ref_owned [] None 1) by (split; [|split]; [by intros ? ?%elem_of_nil|done|constructor]).
  destruct (items store !! STORAGE_KEY) as [text|]; simpl; [|done].
  destruct (negb _); simpl; [|done].
  destruct (JSON.parse text) as [data|]; simpl; [|done].
  destruct (get_prop data "form"); simpl; [|done].
  destruct (get_prop data "timestamp"); simpl; [|done].
  apply (ref_owned_snoc [] None 1), H0.
Qed.

Lemma reachable_own w : reachable w -> Own w.
Proof. induction 1; [apply mount_own|by apply step_own]. Qed.

(** Timers that do not save go through an unmount untouched. *)
Lemma unmount_keeps_other_timers w t :
  reachable w -> t ∈ timers w -> is_save t = false -> t ∈ timers (step Unmount w).
Proof.
  intros Hr Hin Hs. pose proof (reachable_own w Hr) as (Ho & _ & _).
  simpl. unfold unmount.
  destruct w as [f0 s l sr str m fc hc c ts nt st con]; unfold_js; simpl in *.
  destruct m; simpl; [|done]. destruct hc; simpl; [|done].
  destruct sr as [id|]; simpl; [|done].
  apply elem_of_cancel. split; [|done]. intros Heq.
  rewrite (Ho t Hin) in Hs; [done|by rewrite Heq].
Qed.

(** C4, amended. Unmounting cancels the pending save timer and no other:
    a status timer that was pending stays pending; whatever fires or is
    clicked afterwards changes neither form, status, timestamp nor store. *)
Theorem unmount_cancels_save_timer_only w es :
  reachable w ->
  let u := step Unmount w in
  let w' := run es u in
  save_free (timers u)
  ∧ (∀ t, t ∈ timers w -> is_save t = false -> t ∈ timers u)
  ∧ form w' = form u ∧ status w' = status u ∧ lastSaved w' = lastSaved u
  ∧ localStorage w' = localStorage u.
Proof.
  intros Hr u w'. pose proof (reachable_inv w Hr) as HI.
  destruct (unmount_spec w HI) as (Hm & Hfc & Hsf & _).
  split; [done|]. split; [intros t; by apply unmount_keeps_other_timers|].
  destruct (run_unmounted es (unmount w) Hm Hfc Hsf) as (? & ? & ? & ?). done.
Qed.

End Owned.

(** * Concrete runs *)

Section ConcreteRuns.


(** C1 (the code departs from the claim). On a freshly mounted component over
    an empty store the form is empty; the Save Now button still shows
    [saving], writes the empty form to the store, and half a second later
    shows [saved]. *)
Theorem manualSave_persists_empty_form :
  let w0 := mount emptyStore 0 in
  let w1 := step ManualSave w0 in
  form w0 = emptyForm
  ∧ isEmptyForm (form w0) = Ok true
  ∧ status w1 = saving
  ∧ writes w1 = [(STORAGE_KEY, record emptyForm 0)]
  ∧ items (localStorage w1) !! STORAGE_KEY = Some (record emptyForm 0)
  ∧ status (step (Advance 500) w1) = saved.
Proof. vm_compute. repeat split. Qed.

(** C4, as stated, fails: the status timer armed by a save is still pending
    after the component is unmounted, and it fires when its 500 ms have
    passed. *)
Lemma status_timer_survives_unmount :
  let w := run [Change "title" "A"; ManualSave; Unmount] (mount emptyStore 0) in
  mounted w = false
  ∧ timers w = [{| tid := 2; due := 500; action := StatusTimer |}]
  ∧ next_timer 500 (timers w) = Some {| tid := 2; due := 500; action := StatusTimer |}
  ∧ timers (step (Advance 500) w) = [].
Proof. vm_compute. repeat split. Qed.

(** C5, as stated, fails: a save followed by a confirmed clear leaves the
    status timer of the save pending, and when it fires the status goes from
    [idle] to [saved]. *)
Lemma clear_leaves_status_timer :
  let w := run [Change "title" "A"; ManualSave; Clear true] (mount emptyStore 0) in
  status w = idle
  ∧ timers w = [{| tid := 2; due := 500; action := StatusTimer |}]
  ∧ status (step (Advance 500) w) = saved.
Proof. vm_compute. repeat split. Qed.

(** C7, as stated, fails: stored text that is JSON but not a record of form
    and timestamp is loaded as if it were one. The empty object gives an
    [undefined] form, status [saved], and a component that goes down when the
    form is read; a record without a timestamp gives its form and a status
    other than [idle]. *)
Lemma load_shapeless_record :
  let bare := storeWith "{}" in
  let partial := storeWith (JSON.stringify (JObj [("form", document "x" "y")])) in
  unreadable bare = false
  ∧ status (mountEffects bare 0) = saved
  ∧ form (mountEffects bare 0) = JUndefined
  ∧ mounted (mount bare 0) = false
  ∧ unreadable partial = false
  ∧ status (mountEffects partial 0) = saved
  ∧ form (mount partial 0) = document "x" "y"
  ∧ lastSaved (mount partial 0) = JUndefined
  ∧ status (mount partial 0) = unsaved.
Proof. vm_compute. repeat split. Qed.


Lemma no_write_after_unmount_witness :
  let w := step (Change "title" "A") (mount emptyStore 0) in
  reachable w
  ∧ writes (run [Advance 5000; ManualSave] (step Unmount w)) = writes w.
Proof.
  intros w.
  assert (Hr : reachable w) by apply reach_step, reach_mount.
  split; [exact Hr|].
  exact (proj1 (proj2 (no_write_after_unmount w [Advance 5000; ManualSave] Hr))).
Defined.

Lemma clear_resets_witness :
  let w := run [Change "title" "A"; ManualSave] (mount emptyStore 0) in
  (reachable w ∧ mounted w = true)
  ∧ status (step (Clear true) w) = idle.
Proof.
  intros w.
  assert (Hr : reachable w) by (do 2 apply reach_step; apply reach_mount).
  assert (Hm : mounted w = true) by (vm_compute; reflexivity).
  split; [by split|].
  exact (proj1 (proj2 (clear_resets w Hr Hm))).
Defined.

Lemma failed_write_witness :
  let w := step (Change "title" "A") (mount tinyStore 0) in
  (reachable w
   ∧ save_attempt w (form w) (exec (clearTimeout (saveTimerRef w)) w) (step ManualSave w)
   ∧ fits (form w) (exec (clearTimeout (saveTimerRef w)) w) = false)
  ∧ status (step ManualSave w) = error.
Proof.
  intros w.
  assert (Hr : reachable w) by apply reach_step, reach_mount.
  assert (Ha : save_attempt w (form w) (exec (clearTimeout (saveTimerRef w)) w)
                 (step ManualSave w)) by (apply attempt_manual; reflexivity).
  assert (Hf : fits (form w) (exec (clearTimeout (saveTimerRef w)) w) = false)
    by (vm_compute; reflexivity).
  split; [by repeat split|].
  exact (proj1 (proj2 (failed_write w (form w) _ _ Hr Ha Hf))).
Defined.

Lemma load_unreadable_starts_empty_witness :
  unreadable (storeWith "{title: oops") = true
  ∧ status (mount (storeWith "{title: oops") 0) = idle.
Proof.
  assert (Hu : unreadable (storeWith "{title: oops") = true) by (vm_compute; reflexivity).
  split; [exact Hu|].
  exact (proj1 (proj2 (proj2 (proj2 (load_unreadable_starts_empty _ 0 Hu))))).
Defined.



Lemma unmount_cancels_save_timer_only_witness :
  let w := run [Change "title" "A"; ManualSave] (mount emptyStore 0) in
  reachable w
  ∧ status (run [Advance 500] (step Unmount w)) = status (step Unmount w).
Proof.
  intros w.
  assert (Hr : reachable w) by (do 2 apply reach_step; apply reach_mount).
  split; [exact Hr|].
  exact (proj1 (proj2 (proj2 (proj2 (unmount_cancels_save_timer_only w [Advance 500] Hr))))).
Defined.

Lemma clear_declined_is_noop_witness :
  let w := run [Change "title" "A"; ManualSave; Change "content" "B"]
             (mount (storeWith (record (document "x" "y") 5)) 10) in
  (reachable w
   ∧ form w = document "A" "B"
   ∧ status w = unsaved
   ∧ lastSaved w = JStr (toISOString 10)
   ∧ length (timers w) = 3%nat
   ∧ items (localStorage w) !! STORAGE_KEY = Some (record (document "A" "y") 10))
  ∧ step (Clear false) w = w.
Proof.
  intros w.
  assert (Hr : reachable w) by (do 3 apply reach_step; apply reach_mount).
  split; [split; [exact Hr|vm_compute; repeat split]|].
  exact (clear_declined_is_noop w Hr).
Defined.

End ConcreteRuns.

(** * Dates written and read back *)

Section IsoDates.

#[local] Arguments String.append : simpl nomatch.

Lemma all_from_spec n start P x :
  all_from n start P = true -> start <= x -> x < start + N.of_nat n -> P x = true.
Proof.
  revert start. induction n as [|k IH]; intros start; simpl; [lia|].
  intros [H1 H2]%andb_prop Hlo Hhi.
  destruct (N.eq_dec x start) as [->|Hne]; [done|].
  apply (IH (N.succ start)); [done|lia|lia].
Qed.

(** The first of March of year [Y], and the first of January of the year
    after, counted from the epoch. *)
Lemma DayFromYear_march (Y : Z) :
  (DayFromYear Y + 59 + (if InLeapYear Y then 1 else 0)
   = 365 * Y + Y / 4 - Y / 100 + Y / 400 - 719468)%Z.
Proof.
  unfold DayFromYear.
  destruct (InLeapYear Y) eqn:Hleap; unfold InLeapYear in Hleap;
    [ apply andb_prop in Hleap as [H4%Z.eqb_eq H100];
      apply orb_prop in H100 as [H100%negb_true_iff%Z.eqb_neq | H100%Z.eqb_eq]
    | apply andb_false_iff in Hleap as [H4%Z.eqb_neq | H100];
      [| apply orb_false_iff in H100 as [H100%negb_false_iff%Z.eqb_eq H400%Z.eqb_neq]] ];
    Z.div_mod_to_equations; lia.
Qed.

Lemma DayFromYear_january (Y : Z) :
  (DayFromYear (Y + 1) = 365 * Y + Y / 4 - Y / 100 + Y / 400 - 719468 + 306)%Z.
Proof. unfold DayFromYear. Z.div_mod_to_equations. lia. Qed.

(** The year of the era that [toISOString] computes for day [doe] of the
    era starts on or before that day and has it among its days; the
    366th day exists in leap years only. *)
Lemma year_of_era_Z (doe : Z) :
  (0 <= doe < 146097)%Z ->
  let yoe := ((doe - doe / 1460 + doe / 36524 - doe / 146096) / 365)%Z in
  let start := (365 * yoe + yoe / 4 - yoe / 100)%Z in
  (0 <= yoe <= 399 ∧ start <= doe <= start + 365
   ∧ (doe = start + 365 -> (yoe + 1) mod 4 = 0 ∧ ((yoe + 1) mod 100 ≠ 0 ∨ yoe = 399)))%Z.
Proof.
  intros H yoe start. subst start.
  assert (Hy : (0 <= yoe <= 399)%Z) by (subst yoe; Z.div_mod_to_equations; lia).
  assert (Hc : (yoe / 100 = 0 ∨ yoe / 100 = 1 ∨ yoe / 100 = 2 ∨ yoe / 100 = 3)%Z)
    by (clearbody yoe; Z.div_mod_to_equations; lia).
  assert (Hq : (doe / 36524 = 0 ∨ doe / 36524 = 1 ∨ doe / 36524 = 2
                ∨ doe / 36524 = 3 ∨ doe / 36524 = 4)%Z)
    by (Z.div_mod_to_equations; lia).
  assert (Hr : (doe / 146096 = 0 ∨ doe / 146096 = 1)%Z)
    by (Z.div_mod_to_equations; lia).
  subst yoe.
  destruct Hc as [Hc|[Hc|[Hc|Hc]]], Hq as [Hq|[Hq|[Hq|[Hq|Hq]]]], Hr as [Hr|Hr];
    rewrite ?Hc, ?Hq, ?Hr in *; Z.div_mod_to_equations; lia.
Qed.

Lemma year_of_era doe :
  doe < 146097 ->
  let yoe := (doe - doe / 1460 + doe / 36524 - doe / 146096) / 365 in
  let start := 365 * yoe + yoe / 4 - yoe / 100 in
  yoe <= 399 ∧ start <= doe ∧ doe <= start + 365
  ∧ (doe = start + 365 -> (yoe + 1) mod 4 = 0 ∧ ((yoe + 1) mod 100 ≠ 0 ∨ yoe = 399)).
Proof.
  intros H yoe start.
  assert (H1 : doe / 1460 <= doe) by (zify; Z.div_mod_to_equations; lia).
  assert (H2 : doe / 146096 <= doe - doe / 1460 + doe / 36524)
    by (zify; Z.div_mod_to_equations; lia).
  assert (Hyz : Z.of_N yoe
          = ((Z.of_N doe - Z.of_N doe / 1460 + Z.of_N doe / 36524 - Z.of_N doe / 146096) / 365)%Z).
  { subst yoe. rewrite N2Z.inj_div, N2Z.inj_sub, N2Z.inj_add, N2Z.inj_sub, !N2Z.inj_div by done.
    done. }
  destruct (year_of_era_Z (Z.of_N doe)) as (Hy & Hs & Hf); [lia|].
  rewrite <- Hyz in Hy, Hs, Hf. clearbody yoe. subst start.
  assert (H3 : yoe / 100 <= 365 * yoe + yoe / 4) by (zify; Z.div_mod_to_equations; lia).
  assert (Hst : Z.of_N (365 * yoe + yoe / 4 - yoe / 100)
          = (365 * Z.of_N yoe + Z.of_N yoe / 4 - Z.of_N yoe / 100)%Z).
  { rewrite N2Z.inj_sub, N2Z.inj_add, N2Z.inj_mul, !N2Z.inj_div by done. done. }
  rewrite <- Hst in Hs, Hf. clear Hst Hyz H1 H2 H3.
  set (start := 365 * yoe + yoe / 4 - yoe / 100) in *. clearbody start.
  split; [lia|]. split; [lia|]. split; [lia|].
  intros Hd. destruct Hf as [H4 H100]; [lia|].
  split; [|destruct H100; [left|right]]; zify; Z.to_euclidean_division_equations; lia.
Qed.

(** The calendar date [toISOString] prints for day [z] counted from
    0000-03-01, and what [MakeDay] makes of it. *)
Lemma civil_round_trip (z : N) :
  let era := z / 146097 in
  let doe := z mod 146097 in
  let yoe := (doe - doe / 1460 + doe / 36524 - doe / 146096) / 365 in
  let doy := doe - (365 * yoe + yoe / 4 - yoe / 100) in
  let mp := (5 * doy + 2) / 153 in
  let d := doy - (153 * mp + 2) / 5 + 1 in
  let m := if mp <? 10 then mp + 3 else mp - 9 in
  let y := yoe + era * 400 + (if m <=? 2 then 1 else 0) in
  1 <= m <= 12 ∧ 1 <= d
  ∧ (Z.of_N d <= DaysInMonth (InLeapYear (Z.of_N y)) (Z.of_N m))%Z
  ∧ MakeDay (Z.of_N y) (Z.of_N m) (Z.of_N d) = (Z.of_N z - 719468)%Z.
Proof.
  intros era doe yoe doy mp d m y.
  assert (Hdoe : doe < 146097) by (apply N.mod_lt; lia).
  assert (Hz : z = 146097 * era + doe) by (apply N.div_mod; lia).
  destruct (year_of_era doe Hdoe) as (Hyoe & Hlo & Hhi & Hfeb). fold yoe in Hyoe, Hlo, Hhi, Hfeb.
  assert (Hdoy : doy <= 365 ∧ doe = 365 * yoe + yoe / 4 - yoe / 100 + doy)
    by (subst doy; lia).
  assert (Hmp : mp <= 11) by (subst mp; clearbody doy; zify; Z.div_mod_to_equations; lia).
  assert (Hd : 153 * mp + 2 <= 5 * doy + 4 ∧ d = doy - (153 * mp + 2) / 5 + 1
               ∧ 5 * doy + 2 < 153 * (mp + 1)).
  { subst d mp. clearbody doy. zify. Z.div_mod_to_equations. lia. }
  pose (Y := (Z.of_N yoe + 400 * Z.of_N era)%Z).
  assert (HY : (365 * Y + Y / 4 - Y / 100 + Y / 400 - 719468
                = Z.of_N z - Z.of_N doy - 719468)%Z).
  { subst Y. clearbody doy yoe doe era. zify. Z.div_mod_to_equations. lia. }
  pose proof (DayFromYear_march Y) as Hmar.
  pose proof (DayFromYear_january Y) as Hjan.
  rewrite HY in Hmar, Hjan.
  assert (Hleap : doy = 365 -> InLeapYear (Y + 1) = true).
  { intros Hl. destruct Hfeb as [H4 H100]; [lia|]. unfold InLeapYear, Y.
    clearbody yoe era. clear -H4 H100 Hyoe.
    apply andb_true_intro. split; [apply Z.eqb_eq|apply orb_true_intro].
    - zify. Z.to_euclidean_division_equations. lia.
    - destruct H100 as [H100| ->].
      + left. apply negb_true_iff, Z.eqb_neq. zify. Z.to_euclidean_division_equations. lia.
      + right. apply Z.eqb_eq. zify. Z.to_euclidean_division_equations. lia. }
  destruct Hd as (Hd1 & Hd2 & Hd3). destruct Hdoy as [Hdoy _].
  assert (Hm : m = if mp <? 10 then mp + 3 else mp - 9) by reflexivity.
  assert (Hy : Z.of_N y = if m <=? 2 then (Y + 1)%Z else Y).
  { subst y Y. destruct (m <=? 2); lia. }
  clearbody d m y mp doy yoe era doe Y. clear Hz Hdoe HY Hlo Hhi Hfeb Hyoe.
  unfold MakeDay.
  assert (Hc : mp = 0 ∨ mp = 1 ∨ mp = 2 ∨ mp = 3 ∨ mp = 4 ∨ mp = 5 ∨ mp = 6
               ∨ mp = 7 ∨ mp = 8 ∨ mp = 9 ∨ mp = 10 ∨ mp = 11) by lia.
  destruct Hc as [->|[->|[->|[->|[->|[->|[->|[->|[->|[->|[->| ->]]]]]]]]]]];
    vm_compute in Hm; subst m;
    match type of Hy with
    | context [?a <=? ?b] =>
        let v := eval vm_compute in (a <=? b) in change (a <=? b) with v in Hy
    end; cbv beta iota in Hy; rewrite Hy.
  all: match goal with
       | |- context [InLeapYear ?a] => destruct (InLeapYear a) eqn:El
       end; rewrite ?El in Hmar;
    match goal with
    | |- context [DaysInMonth ?b ?x] =>
        let v := eval vm_compute in (DaysInMonth b x) in
        change (DaysInMonth b x) with v
    end;
    match goal with
    | |- context [DaysBeforeMonth ?b ?x] =>
        let v := eval vm_compute in (DaysBeforeMonth b x) in
        change (DaysBeforeMonth b x) with v
    end.
  all: try (zify; Z.div_mod_to_equations; lia).
  all: assert (doy < 365 ∨ doy = 365) as [?|Hl] by lia;
    [|rewrite (Hleap Hl) in El; discriminate]; zify; Z.div_mod_to_equations; lia.
Qed.

#[local] Arguments pad : simpl never.

Lemma take_chars_app a rest :
  take_chars (String.length a) (a ++ rest) = Some (a, rest).
Proof. induction a as [|c a IH]; simpl; [done|]. by rewrite IH. Qed.

Lemma zeros_cons j :
  String.concat "" (replicate (S j) "0") = String "0" (String.concat "" (replicate j "0")).
Proof. by destruct j. Qed.

Lemma pad_length k n : width_ok k n = true -> String.length (pad k n) = k.
Proof.
  unfold width_ok, pad. intros H%Nat.leb_le.
  set (s := JSON.show_N n) in *. clearbody s.
  assert (Hz : ∀ j, String.length (String.concat "" (replicate j "0") ++ s)
                    = (j + String.length s)%nat).
  { induction j as [|j IH]; [done|]. rewrite zeros_cons. simpl. by rewrite IH. }
  rewrite Hz. lia.
Qed.

Lemma to_uint_nonnil n : N.to_uint n ≠ Decimal.Nil.
Proof. destruct n; [done|]. apply DecimalPos.Unsigned.to_uint_nonnil. Qed.

Lemma uint_of_pad k n :
  ∃ d, NilZero.uint_of_string (pad k n) = Some d ∧ N.of_uint d = n.
Proof.
  unfold pad, JSON.show_N.
  pose proof (to_uint_nonnil n) as Hn.
  pose proof (DecimalN.Unsigned.of_to n) as Hof.
  set (u := N.to_uint n) in *. clearbody u.
  generalize (k - String.length (NilZero.string_of_uint u))%nat. intros j.
  assert (Hs : NilEmpty.uint_of_string (NilZero.string_of_uint u) = Some u).
  { destruct u; try done; apply NilEmpty.usu. }
  assert (Hj : ∃ d, NilEmpty.uint_of_string
                      (String.concat "" (replicate j "0") ++ NilZero.string_of_uint u)
                    = Some d ∧ N.of_uint d = N.of_uint u).
  { induction j as [|j (d & Hd & Hv)]; [by exists u|].
    exists (Decimal.D0 d). rewrite zeros_cons. simpl. by rewrite Hd. }
  destruct Hj as (d & Hd & Hv). exists d. split; [|congruence].
  destruct (_ ++ _) eqn:E; [exfalso|done].
  destruct j; [|by rewrite zeros_cons in E]. by destruct u.
Qed.

Lemma read_digits_pad k n rest :
  width_ok k n = true -> read_digits k (pad k n ++ rest) = Some (Z.of_N n, rest).
Proof.
  intros Hw. unfold read_digits.
  rewrite <- (pad_length k n Hw) at 1. rewrite take_chars_app. simpl.
  destruct (uint_of_pad k n) as (d & -> & <-). done.
Qed.

Lemma width_two n : n < 100 -> width_ok 2 n = true.
Proof.
  intros H. apply (all_from_spec (N.to_nat 100) 0); [|lia|lia]. vm_compute. reflexivity.
Qed.

Lemma width_three n : n < 1000 -> width_ok 3 n = true.
Proof.
  intros H. apply (all_from_spec (N.to_nat 1000) 0); [|lia|lia]. vm_compute. reflexivity.
Qed.

Lemma width_four n : n < 10000 -> width_ok 4 n = true.
Proof.
  intros H. apply (all_from_spec (N.to_nat 10000) 0); [|lia|lia]. vm_compute. reflexivity.
Qed.

Lemma read_year_pad y rest :
  y < 10000 -> read_year (pad 4 y ++ rest) = Some (Z.of_N y, rest).
Proof.
  intros Hy. rewrite <- (read_digits_pad 4 y rest) by by apply width_four.
  destruct (uint_of_pad 4 y) as (d & Hd & _).
  destruct (pad 4 y) as [|c s] eqn:E; [done|].
  simpl in Hd. destruct (NilEmpty.uint_of_string s) as [d'|]; [|done].
  apply uint_of_char_spec in Hd.
  destruct Hd as [[-> _]|[[-> _]|[[-> _]|[[-> _]|[[-> _]|[[-> _]|[[-> _]|[[-> _]|[[-> _]|[-> _]]]]]]]]]];
    reflexivity.
Qed.

Lemma DayFromYear_late (y : Z) : (10000 <= y -> 2932897 <= DayFromYear y)%Z.
Proof. unfold DayFromYear. intros. Z.div_mod_to_equations. lia. Qed.

Lemma DaysBeforeMonth_nonneg leap m : (0 <= DaysBeforeMonth leap m)%Z.
Proof.
  unfold DaysBeforeMonth. generalize (Z.to_nat (m - 1)). intros n.
  do 12 (destruct n as [|n]; [simpl; case_match; lia|]).
  destruct n; simpl; case_match; lia.
Qed.

(** A day before the year 10000 belongs to a year below 10000. *)
Lemma year_below (y m d z : N) :
  1 <= d -> MakeDay (Z.of_N y) (Z.of_N m) (Z.of_N d) = (Z.of_N z - 719468)%Z ->
  z < 3652365 -> y < 10000.
Proof.
  intros Hd Hday Hz. destruct (N.lt_ge_cases y 10000) as [|Hge]; [done|exfalso].
  pose proof (DaysBeforeMonth_nonneg (InLeapYear (Z.of_N y)) (Z.of_N m)).
  assert (2932897 <= DayFromYear (Z.of_N y))%Z by (apply DayFromYear_late; lia).
  unfold MakeDay in Hday. lia.
Qed.

Lemma time_of_day r :
  r < 86400000 ->
  let h := r / 3600000 in
  let mi := r / 60000 mod 60 in
  let s := r / 1000 mod 60 in
  let ms := r mod 1000 in
  h < 24 ∧ mi < 60 ∧ s < 60 ∧ ms < 1000
  ∧ MakeTime (Z.of_N h) (Z.of_N mi) (Z.of_N s) (Z.of_N ms) = Z.of_N r.
Proof.
  intros Hr h mi s ms. unfold MakeTime. subst h mi s ms.
  zify. Z.to_euclidean_division_equations. lia.
Qed.

(** How [Date_parse] reads a text in the shape [toISOString] writes. *)
Lemma Date_parse_fields y m d h mi s ms :
  y < 10000 -> m < 100 -> d < 100 -> h < 100 -> mi < 100 -> s < 100 -> ms < 1000 ->
  Date_parse (pad 4 y ++ "-" ++ pad 2 m ++ "-" ++ pad 2 d ++ "T" ++ pad 2 h ++ ":"
              ++ pad 2 mi ++ ":" ++ pad 2 s ++ "." ++ pad 3 ms ++ "Z")
  = if (1 <=? Z.of_N m)%Z && (Z.of_N m <=? 12)%Z && (1 <=? Z.of_N d)%Z
       && (Z.of_N d <=? DaysInMonth (InLeapYear (Z.of_N y)) (Z.of_N m))%Z
       && (Z.of_N h <=? 23)%Z && (Z.of_N mi <=? 59)%Z && (Z.of_N s <=? 59)%Z
    then TimeClip (MakeDay (Z.of_N y) (Z.of_N m) (Z.of_N d) * 86400000
                   + MakeTime (Z.of_N h) (Z.of_N mi) (Z.of_N s) (Z.of_N ms))%Z
    else None.
Proof.
  intros Hy Hm Hd Hh Hmi Hs Hms. unfold Date_parse.
  rewrite read_year_pad by done. simpl.
  rewrite read_digits_pad by by apply width_two. simpl.
  rewrite read_digits_pad by by apply width_two. simpl.
  rewrite read_digits_pad by by apply width_two. simpl.
  rewrite read_digits_pad by by apply width_two. simpl.
  rewrite read_digits_pad by by apply width_two. simpl.
  rewrite (read_digits_pad 3 ms "Z") by by apply width_three. done.
Qed.

(** A timestamp written by [toISOString] before the year 10000 is read back
    by [new Date] as the instant it was written for. *)
Lemma Date_parse_toISOString t :
  t < 253402300800000 -> Date_parse (toISOString t) = Some (Z.of_N t).
Proof.
  intros Ht. unfold toISOString.
  set (r := t mod 86400000). set (z := t / 86400000 + 719468).
  assert (Hr : r < 86400000) by (apply N.mod_lt; lia).
  assert (Hz : Z.of_N t = ((Z.of_N z - 719468) * 86400000 + Z.of_N r)%Z ∧ z < 3652365).
  { subst r z. zify. Z.to_euclidean_division_equations. lia. }
  clearbody r z. destruct Hz as [Hz Hlt].
  destruct (civil_round_trip z) as (Hm & Hd1 & Hd & Hday).
  destruct (time_of_day r Hr) as (Hh & Hmi & Hs & Hms & Htime).
  cbv zeta. cbv zeta in Hm, Hd1, Hd, Hday, Hh, Hmi, Hs, Hms, Htime.
  set (era := z / 146097) in *. set (doe := z mod 146097) in *.
  set (yoe := (doe - doe / 1460 + doe / 36524 - doe / 146096) / 365) in *.
  set (doy := doe - (365 * yoe + yoe / 4 - yoe / 100)) in *.
  set (mp := (5 * doy + 2) / 153) in *.
  set (d := doy - (153 * mp + 2) / 5 + 1) in *.
  set (m := if mp <? 10 then mp + 3 else mp - 9) in *.
  set (y := yoe + era * 400 + (if m <=? 2 then 1 else 0)) in *.
  set (h := r / 3600000) in *. set (mi := r / 60000 mod 60) in *.
  set (s := r / 1000 mod 60) in *. set (ms := r mod 1000) in *.
  clearbody y m d h mi s ms. clear era doe yoe doy mp.
  assert (Hy : y < 10000) by (by apply (year_below y m d z)).
  assert (Hd31 : d < 100).
  { revert Hd. unfold DaysInMonth. repeat case_match; lia. }
  replace (y <=? 9999) with true by (symmetry; apply N.leb_le; lia).
  rewrite Date_parse_fields by lia.
  replace (1 <=? Z.of_N m)%Z with true by (symmetry; apply Z.leb_le; lia).
  replace (Z.of_N m <=? 12)%Z with true by (symmetry; apply Z.leb_le; lia).
  replace (1 <=? Z.of_N d)%Z with true by (symmetry; apply Z.leb_le; lia).
  replace (Z.of_N d <=? DaysInMonth (InLeapYear (Z.of_N y)) (Z.of_N m))%Z with true
    by (symmetry; by apply Z.leb_le).
  replace (Z.of_N h <=? 23)%Z with true by (symmetry; apply Z.leb_le; lia).
  replace (Z.of_N mi <=? 59)%Z with true by (symmetry; apply Z.leb_le; lia).
  replace (Z.of_N s <=? 59)%Z with true by (symmetry; apply Z.leb_le; lia).
  simpl. rewrite Hday, Htime. unfold TimeClip.
  replace (_ <=? _)%Z with true by (symmetry; apply Z.leb_le; lia).
  f_equal. lia.
Qed.

End IsoDates.

(** * The status line *)

Section StatusLine.

#[local] Arguments String.append : simpl nomatch.
#[local] Arguments pad : simpl never.

Lemma append_nonempty a c b : String.eqb (a ++ String c b) "" = false.
Proof. by destruct a. Qed.

Lemma toISOString_truthy t : truthy (JStr (toISOString t)) = true.
Proof.
  unfold truthy, toISOString. cbv zeta.
  match goal with |- context [String.eqb (?a ++ "-" ++ ?b) ""] =>
    change (a ++ "-" ++ b) with (a ++ String "-" b) end.
  by rewrite append_nonempty.
Qed.

(** During the first minute after a save its timestamp reads [just now]. *)
Lemma formatTimestamp_first_minute t now :
  t < 253402300800000 -> now < t + 60000 ->
  formatTimestamp (JStr (toISOString t)) now = Ok (Some (Text "just now")).
Proof.
  intros Ht Hnow. unfold formatTimestamp. rewrite toISOString_truthy. simpl.
  unfold Date_text. rewrite Date_parse_toISOString by done.
  replace ((Z.of_N now - Z.of_N t) / 60000 <? 1)%Z with true; [done|].
  symmetry. apply Z.ltb_lt. Z.div_mod_to_equations. lia.
Qed.

(** X1. For a timestamp that [saveToLocalStorage] wrote at
    clock reading [t], before the year 10000, [formatTimestamp] at clock
    reading [now] answers [just now] during the first minute (and when the
    clock has been set back), [1 minute ago] during the second, the number of
    whole minutes up to the hour, and the date in the user's locale from
    then on. *)
Theorem formatTimestamp_written t now :
  t < 253402300800000 ->
  formatTimestamp (JStr (toISOString t)) now
  = Ok (Some (if now <? t + 60000 then Text "just now"
              else if now <? t + 120000 then Text "1 minute ago"
              else if now <? t + 3600000
                   then Text (JSON.show_N ((now - t) / 60000) ++ " minutes ago")
                   else LocaleString (Some (Z.of_N t)))).
Proof.
  intros Ht. unfold formatTimestamp. rewrite toISOString_truthy. simpl.
  unfold Date_text. rewrite Date_parse_toISOString by done.
  set (q := ((Z.of_N now - Z.of_N t) / 60000)%Z).
  destruct (N.ltb_spec now (t + 60000)).
  { replace (q <? 1)%Z with true; [done|]. symmetry. apply Z.ltb_lt.
    subst q. Z.div_mod_to_equations. lia. }
  replace (q <? 1)%Z with false
    by (symmetry; apply Z.ltb_ge; subst q; Z.div_mod_to_equations; lia).
  destruct (N.ltb_spec now (t + 120000)).
  { replace (q =? 1)%Z with true; [done|]. symmetry. apply Z.eqb_eq.
    subst q. Z.div_mod_to_equations. lia. }
  replace (q =? 1)%Z with false
    by (symmetry; apply Z.eqb_neq; subst q; Z.div_mod_to_equations; lia).
  destruct (N.ltb_spec now (t + 3600000)).
  - replace (q <? 60)%Z with true
      by (symmetry; apply Z.ltb_lt; subst q; Z.div_mod_to_equations; lia).
    do 5 f_equal. subst q. zify. Z.to_euclidean_division_equations. lia.
  - replace (q <? 60)%Z with false; [done|]. symmetry. apply Z.ltb_ge.
    subst q. Z.div_mod_to_equations. lia.
Qed.

Lemma formatTimestamp_written_witness :
  1700000000000 < 253402300800000
  ∧ formatTimestamp (JStr (toISOString 1700000000000)) 1700000125000
    = Ok (Some (Text "2 minutes ago")).
Proof.
  split; [lia|]. by rewrite (formatTimestamp_written 1700000000000 1700000125000).
Defined.

End StatusLine.

(** * Feedback after a save *)

Section Feedback.

Implicit Types (ts : list timer) (t : timer).

Lemma fits_ext f w w' :
  clock w = clock w' -> localStorage w = localStorage w' -> fits f w = fits f w'.
Proof. unfold fits. by intros -> ->. Qed.

(** Once the status is [saved], timers that do not save leave it so. *)
Lemma run_timers_stays_saved fuel horizon w :
  formChanged w = false -> save_free (timers w) -> status w = saved ->
  status (run_timers fuel horizon w) = saved.
Proof.
  revert w. induction fuel as [|k IH]; intros w Hfc Hsf Hst; simpl; [done|].
  destruct (next_timer horizon (timers w)) as [t|] eqn:Hn; [|done].
  pose proof (is_save_false_Forall _ _ Hsf (next_timer_elem _ _ _ Hn)) as Ht.
  apply IH; rewrite (fire_quiet t w Hfc Ht); simpl; [done|by apply save_free_cancel|].
  by destruct (mounted w).
Qed.

(** Timers that do not save log nothing, and change the status to [saved]
    if at all. *)
Lemma run_timers_quiet_more fuel horizon w :
  formChanged w = false -> save_free (timers w) ->
  console (run_timers fuel horizon w) = console w
  ∧ (status (run_timers fuel horizon w) = status w
     ∨ status (run_timers fuel horizon w) = saved).
Proof.
  revert w. induction fuel as [|k IH]; intros w Hfc Hsf; simpl; [by split; [|left]|].
  destruct (next_timer horizon (timers w)) as [t|] eqn:Hn; [|by split; [|left]].
  pose proof (is_save_false_Forall _ _ Hsf (next_timer_elem _ _ _ Hn)) as Ht.
  rewrite (fire_quiet t w Hfc Ht).
  match goal with |- context [run_timers k horizon ?x] =>
    destruct (IH x) as (Hc & Hs); [done|by apply save_free_cancel|] end.
  split; [done|]. simpl in Hs. destruct (mounted w); destruct Hs as [->| ->]; auto.
Qed.

(** A timer that does not save and is due sets the status to [saved]. *)
Lemma run_timers_settles fuel horizon w t :
  formChanged w = false -> save_free (timers w) -> mounted w = true ->
  t ∈ timers w -> due t <= horizon -> (weight (timers w) <= fuel)%nat ->
  status (run_timers fuel horizon w) = saved.
Proof.
  intros Hfc Hsf Hm Hin Hdue Hfuel. destruct fuel as [|k].
  { pose proof (weight_cancel_elem _ _ Hin). pose proof (cost_pos t). lia. }
  simpl. destruct (next_timer horizon (timers w)) as [t1|] eqn:Hn.
  2: { pose proof (next_timer_none _ _ _ Hn Hin). lia. }
  pose proof (is_save_false_Forall _ _ Hsf (next_timer_elem _ _ _ Hn)) as Ht.
  apply run_timers_stays_saved; rewrite (fire_quiet t1 w Hfc Ht); simpl;
    [done|by apply save_free_cancel|by rewrite Hm].
Qed.

(** Time passes and covers a pending save timer whose record fits the
    store: the record is stored under the clock reading of the due time, the
    timestamp is that reading, and once the feedback delay has passed as
    well the status is [saved]. *)
Lemma run_timers_saves fuel horizon w t f :
  Inv w -> mounted w = true -> t ∈ timers w -> action t = SaveTimer f ->
  due t <= horizon -> clock w <= due t -> (weight (timers w) <= fuel)%nat ->
  fits f (with_clock (due t) w) = true ->
  let w' := run_timers fuel horizon w in
  form w' = form w ∧ lastSaved w' = JStr (toISOString (due t))
  ∧ items (localStorage w') = <[STORAGE_KEY := record f (due t)]> (items (localStorage w))
  ∧ mounted w' = true ∧ console w' = console w
  ∧ save_free (timers w') ∧ formChanged w' = false
  ∧ (status w' = saving ∨ status w' = saved)
  ∧ (due t + 500 <= horizon -> status w' = saved).
Proof.
  revert w. induction fuel as [|k IH]; intros w HI Hm Hin Hact Hdue Hclk Hfuel Hfit.
  { pose proof (weight_cancel_elem _ _ Hin). pose proof (cost_pos t). lia. }
  assert (Ht : is_save t = true) by (unfold is_save; by rewrite Hact).
  simpl. destruct (next_timer horizon (timers w)) as [t1|] eqn:Hn.
  2: { pose proof (next_timer_none _ _ _ Hn Hin). lia. }
  pose proof (next_timer_elem _ _ _ Hn) as Hin1.
  pose proof (next_timer_le _ _ _ _ Hn Hin) as Hle1.
  pose proof (fire_inv t1 w HI) as HI'.
  pose proof (weight_cancel_elem _ _ Hin1) as Hw.
  destruct (is_save t1) eqn:Hs1.
  - assert (t1 = t) as -> by (by apply (save_timer_unique w)).
    destruct HI as ((Hs & _ & _) & Hfc).
    destruct (Hs t Hin Ht) as (_ & _ & Href). rewrite Href in Hs.
    assert (Hmax : N.max (clock w) (due t) = due t) by lia.
    assert (Hfit' : fits f (dequeue t w) = true).
    { rewrite <- Hfit. apply fits_ext; [|by destruct w].
      transitivity (N.max (clock w) (due t)); [by destruct w|by rewrite Hmax; destruct w]. }
    rewrite (fire_save_ok t f w Hact Hfc Hfit'), Hm, Hmax.
    set (x := {| form := form w |}).
    assert (Hsf : save_free (timers x)).
    { apply save_free_snoc; [|done]. destruct (statusTimerRef w); simpl; eauto with timers. }
    destruct (run_timers_quiet k horizon x eq_refl Hsf) as (Hst & Hsf' & Hf & Hl & Hm' & Hfc' & _).
    rewrite Hst, Hf, Hl, Hm'. repeat split; try done.
    + by destruct (run_timers_quiet_more k horizon x eq_refl Hsf) as [-> _].
    + by destruct (run_timers_quiet_more k horizon x eq_refl Hsf) as [_ [->| ->]]; [left|right].
    + intros Hlate.
      apply (run_timers_settles k horizon x
               {| tid := nextTimer w; due := due t + 500; action := StatusTimer |});
        try done.
      * apply elem_of_app. right. by apply list_elem_of_singleton.
      * subst x. simpl. rewrite weight_snoc.
        pose proof (weight_cancel_ref (statusTimerRef w) (cancel (tid t) (timers w))).
        assert (cost t = 2%nat) by (unfold cost; by rewrite Hact).
        unfold cost at 1. simpl. lia.
  - assert (Hne : tid t ≠ tid t1).
    { intros Heq. destruct HI as ((_ & [Hnd _] & _) & _).
      rewrite (tid_inj _ _ _ Hnd Hin Hin1 Heq) in Ht. congruence. }
    destruct HI as (_ & Hfc).
    rewrite (fire_quiet t1 w Hfc Hs1) in *.
    match goal with |- context [run_timers k horizon ?x] => specialize (IH x HI') end.
    simpl in IH. apply IH; try done.
    + by apply elem_of_cancel.
    + lia.
    + pose proof (cost_pos t1). lia.
Qed.


Lemma advance_saves dt w t f :
  Inv w -> mounted w = true -> t ∈ timers w -> action t = SaveTimer f ->
  due t <= clock w + dt -> clock w <= due t ->
  fits f (with_clock (due t) w) = true ->
  let w' := advance dt w in
  form w' = form w ∧ lastSaved w' = JStr (toISOString (due t))
  ∧ items (localStorage w') = <[STORAGE_KEY := record f (due t)]> (items (localStorage w))
  ∧ mounted w' = true ∧ console w' = console w
  ∧ save_free (timers w') ∧ formChanged w' = false
  ∧ (status w' = saving ∨ status w' = saved)
  ∧ (due t + 500 <= clock w + dt -> status w' = saved).
Proof.
  intros HI Hm Hin Hact Hdue Hclk Hfit.
  pose proof (run_timers_saves (weight (timers w)) (clock w + dt) w t f HI Hm Hin Hact
                Hdue Hclk (le_n _) Hfit) as H.
  unfold advance. simpl in H. by destruct (run_timers _ _ w).
Qed.


Lemma manualSave_ok w :
  mounted w = true -> formChanged w = false -> fits (form w) w = true ->
  step ManualSave w =
  {| form := form w; status := saving;
     lastSaved := JStr (toISOString (clock w));
     saveTimerRef := saveTimerRef w; statusTimerRef := Some (nextTimer w);
     mounted := true; formChanged := false; hasCleanup := hasCleanup w;
     clock := clock w;
     timers := cancel_ref (statusTimerRef w) (cancel_ref (saveTimerRef w) (timers w))
               ++ [{| tid := nextTimer w; due := clock w + 500; action := StatusTimer |}];
     nextTimer := S (nextTimer w);
     localStorage :=
       {| items := <[STORAGE_KEY := record (form w) (clock w)]> (items (localStorage w));
          quota := quota (localStorage w);
          calls := calls (localStorage w)
                   ++ [SetItem STORAGE_KEY (record (form w) (clock w)) true] |};
     console := console w |}.
Proof.
  destruct w as [f0 s l sr str m fc hc c ts nt st con]. simpl.
  intros -> ->. unfold fits, record, dispatch, flush. unfold_js.
  destruct sr, str; simpl; by intros ->.
Qed.

(** X3. On a mounted component whose record fits the store, the
    Save Now button stores the record of the current form under the current
    clock reading, sets status [saving] and the timestamp, and cancels the
    pending debounce timer: however time passes afterwards, no further
    [setItem] call is made; half a second later the status is [saved]. *)
Theorem manual_save_replaces_pending w :
  reachable w -> mounted w = true -> fits (form w) w = true ->
  let w1 := step ManualSave w in
  form w1 = form w
  ∧ status w1 = saving
  ∧ lastSaved w1 = JStr (toISOString (clock w))
  ∧ items (localStorage w1) !! STORAGE_KEY = Some (record (form w) (clock w))
  ∧ writes w1 = (writes w ++ [(STORAGE_KEY, record (form w) (clock w))])%list
  ∧ save_free (timers w1)
  ∧ (∀ dts, writes (elapse dts w1) = writes w1)
  ∧ (∀ dt, 500 <= dt -> status (step (Advance dt) w1) = saved).
Proof.
  intros Hr Hm Hfit w1. apply reachable_inv in Hr.
  pose proof Hr as ((Hs & _ & _) & Hfc).
  assert (Hsf : save_free (timers w1)).
  { subst w1. rewrite (manualSave_ok w Hm Hfc Hfit). simpl.
    apply save_free_snoc; [|done].
    destruct (statusTimerRef w); simpl; [apply save_free_cancel|];
      by eapply saves_tracked_cancel_any. }
  assert (Hfc1 : formChanged w1 = false)
    by (subst w1; by rewrite (manualSave_ok w Hm Hfc Hfit)).
  split; [|split; [|split; [|split; [|split; [|split; [done|split]]]]]];
    try (subst w1; by rewrite (manualSave_ok w Hm Hfc Hfit)).
  - subst w1. rewrite (manualSave_ok w Hm Hfc Hfit). simpl. by rewrite lookup_insert_eq.
  - subst w1. rewrite (manualSave_ok w Hm Hfc Hfit). unfold writes. simpl.
    by rewrite set_calls_app.
  - intros dts. by apply writes_elapse_quiet.
  - intros dt Hdt. simpl. unfold advance.
    assert (Hst : status (run_timers (weight (timers w1)) (clock w1 + dt) w1) = saved).
    { apply (run_timers_settles _ _ w1
               {| tid := nextTimer w; due := clock w + 500; action := StatusTimer |});
        try done; subst w1; rewrite (manualSave_ok w Hm Hfc Hfit); simpl; try done.
      - apply elem_of_app. right. by apply list_elem_of_singleton.
      - lia. }
    by destruct (run_timers _ _ w1).
Qed.

Lemma elapse_quiet_status dts w :
  formChanged w = false -> save_free (timers w) ->
  status (elapse dts w) = status w ∨ status (elapse dts w) = saved.
Proof.
  revert w. induction dts as [|dt dts IH]; intros w Hfc Hsf; [by left|].
  rewrite elapse_cons.
  destruct (advance_quiet dt w Hfc Hsf) as (_ & Hsf' & _ & _ & _ & Hfc' & _).
  assert (Hs : status (advance dt w) = status w ∨ status (advance dt w) = saved).
  { unfold advance.
    destruct (run_timers_quiet_more (weight (timers w)) (clock w + dt) w Hfc Hsf) as [_ H].
    by destruct (run_timers _ _ w). }
  destruct (IH _ Hfc' Hsf') as [->| ->]; [done|by right].
Qed.

End Feedback.

(** * The preview *)

Section Preview.

#[local] Arguments String.append : simpl nomatch.

Lemma split_from_runs s skip piece in_run :
  (in_run = true -> piece = "") ->
  length (List.filter Boolean (split_from s skip piece in_run))
  = ((if String.eqb piece "" then 0 else 1)
     + count_runs s skip (negb (String.eqb piece "")))%nat.
Proof.
  revert skip piece in_run.
  induction s as [|c s IH]; intros skip piece in_run Hrun.
  { simpl. unfold Boolean, truthy. destruct (String.eqb piece ""); simpl; lia. }
  cbn [split_from count_runs]. destruct skip as [|k]; [|by apply IH].
  destruct (space_width (String c s)) as [|k].
  - rewrite IH by done. rewrite append_nonempty. simpl.
    destruct (String.eqb piece ""); simpl; lia.
  - destruct in_run.
    + rewrite IH by done. by rewrite (Hrun eq_refl).
    + cbn [List.filter]. unfold Boolean at 1, truthy.
      destruct (String.eqb piece ""); simpl; rewrite IH by done; simpl; lia.
Qed.

(** [split], [filter] and [length] count the maximal runs of characters that
    are not white space. *)
Lemma word_count_runs s : word_count s = N.of_nat (count_runs s 0 false).
Proof. unfold word_count, split_spaces. by rewrite split_from_runs. Qed.


Lemma space_width_le s : (space_width s <= String.length s)%nat.
Proof.
  destruct s as [|c1 [|c2 [|c3 s]]]; unfold space_width; simpl;
    repeat case_match; lia.
Qed.

(** A space after [s] does not turn the end of [s] into white space. *)
Lemma space_width_app c s rest :
  space_width (String c s ++ String " " rest) = space_width (String c s).
Proof.
  destruct s as [|c2 [|c3 s]]; unfold space_width; simpl.
  - destruct (_ || _); [done|]. rewrite andb_false_r.
    destruct rest; [done|]. by rewrite !andb_false_r, !andb_false_l.
  - destruct (_ || _); [done|]. destruct (_ && _); [done|].
    by rewrite !andb_false_r.
  - done.
Qed.

Lemma count_runs_app a b skip inside :
  (skip <= String.length a)%nat ->
  count_runs (a ++ String " " b) skip inside
  = (count_runs a skip inside + count_runs b 0 false)%nat.
Proof.
  revert skip inside. induction a as [|c a IH]; intros skip inside Hskip.
  { simpl in Hskip. by replace skip with O by lia. }
  change (String c a ++ String " " b) with (String c (a ++ String " " b)).
  cbn [count_runs]. destruct skip as [|k]; [|apply IH; simpl in Hskip; lia].
  change (String c (a ++ String " " b)) with (String c a ++ String " " b).
  rewrite space_width_app.
  pose proof (space_width_le (String c a)) as Hle.
  destruct (space_width (String c a)) as [|k].
  - rewrite IH by lia. lia.
  - apply IH. simpl in Hle. lia.
Qed.

Lemma count_runs_spaceless s :
  spaceless s = true ->
  count_runs s 0 true = O
  ∧ count_runs s 0 false = if String.eqb s "" then O else 1%nat.
Proof.
  induction s as [|c s IH]; [done|]. cbn [spaceless count_runs].
  intros [Hw%Nat.eqb_eq Hs]%andb_prop. rewrite Hw.
  destruct (IH Hs) as [-> _]. done.
Qed.

(** X10. The [Words] figure of the preview adds up over
    a space: the count of two texts joined by a space is the sum of their
    counts. *)
Theorem word_count_joined a b :
  word_count (a ++ " " ++ b) = word_count a + word_count b.
Proof.
  rewrite !word_count_runs.
  change (" " ++ b) with (String " " b). rewrite count_runs_app by lia. lia.
Qed.

(** X11. Words that hold no white space, written one
    after the other with a space between each two, count as many as they
    are. *)
Theorem word_count_sentence ws :
  forallb (fun w => spaceless w && negb (String.eqb w "")) ws = true ->
  word_count (JSON.join " " ws) = N.of_nat (length ws).
Proof.
  assert (Hone : ∀ w, spaceless w && negb (String.eqb w "") = true -> word_count w = 1).
  { intros w [Hs Hne]%andb_prop. rewrite word_count_runs.
    destruct (count_runs_spaceless w Hs) as [_ ->].
    by destruct (String.eqb w ""). }
  induction ws as [|w ws IH]; [done|].
  intros [Hw Hws]%andb_prop. destruct ws as [|w' ws]; [by apply Hone|].
  change (JSON.join " " (w :: w' :: ws)) with (w ++ " " ++ JSON.join " " (w' :: ws)).
  rewrite word_count_runs. change (" " ++ JSON.join " " (w' :: ws))
    with (String " " (JSON.join " " (w' :: ws))).
  rewrite count_runs_app by lia.
  pose proof (Hone w Hw) as H1. pose proof (IH Hws) as H2.
  rewrite word_count_runs in H1, H2. simpl length in *. lia.
Qed.

Lemma word_count_sentence_witness :
  forallb (fun w => spaceless w && negb (String.eqb w "")) ["auto"; "save"; "form"] = true
  ∧ word_count "auto save form" = 3.
Proof. split; [reflexivity|]. exact (word_count_sentence ["auto"; "save"; "form"] eq_refl). Defined.

Lemma assoc_get_set ps k v k' :
  assoc_get (assoc_set ps k v) k' = if String.eqb k k' then v else assoc_get ps k'.
Proof.
  induction ps as [|[k0 v0] ps IH]; simpl; [done|].
  destruct (String.eqb_spec k0 k) as [->|Hne]; simpl.
  - by destruct (String.eqb k k').
  - rewrite IH. destruct (String.eqb_spec k0 k') as [->|?]; [|done].
    by destruct (String.eqb_spec k k') as [->|?].
Qed.

Lemma dispatch_form h w :
  form (dispatch h w) = if mounted w then form (exec h w) else form w.
Proof.
  unfold dispatch. destruct (mounted w); [|done].
  by destruct (flush_keeps (exec h w)) as [-> _].
Qed.

Lemma handleChange_form name value w :
  form (exec (handleChange name value) w)
  = if mounted w then JObj (assoc_set (spread (form w)) name (JStr value)) else form w.
Proof.
  destruct w as [f0 s l sr str m fc hc c ts nt st con]. unfold_js. simpl. by destruct m.
Qed.

Lemma handleManualSave_form w : form (exec handleManualSave w) = form w.
Proof.
  unfold handleManualSave, bind, get_saveTimerRef, getForm, exec.
  set (w1 := snd (clearTimeout (saveTimerRef w) w)).
  assert (Hw1 : form w1 = form w)
    by (subst w1; unfold clearTimeout; by destruct (saveTimerRef w), w).
  replace (clearTimeout (saveTimerRef w) w) with (Ok tt, w1)
    by (subst w1; unfold clearTimeout; by destruct (saveTimerRef w)).
  destruct (fits (form w1) w1) eqn:Hfit.
  - pose proof (save_ok (form w1) w1 Hfit) as H. unfold exec in H. by rewrite H.
  - by rewrite (save_fail (form w1) w1 Hfit).
Qed.

Lemma handleClear_form confirmed w :
  form (exec (handleClear confirmed) w)
  = if confirmed && mounted w then emptyForm else form w.
Proof.
  destruct w as [f0 s l sr str m fc hc c ts nt st con]. unfold_js. simpl.
  destruct confirmed; [|done]. simpl. by destruct m.
Qed.

Lemma unmount_form w : form (unmount w) = form w.
Proof.
  destruct w as [f0 s l sr str m fc hc c ts nt st con]. unfold unmount. unfold_js. simpl.
  by destruct m, hc, sr.
Qed.

(** X8. Typing into the input called [name] sets that field
    of the form and leaves every other field as it was; the store and the
    timestamp are not touched by the edit itself. *)
Theorem change_sets_field w ps name value k :
  mounted w = true -> form w = JObj ps ->
  let w' := step (Change name value) w in
  get_prop (form w') k
  = (if String.eqb name k then Ok (JStr value) else get_prop (form w) k)
  ∧ localStorage w' = localStorage w ∧ lastSaved w' = lastSaved w.
Proof.
  intros Hm Hf w'. subst w'. simpl.
  assert (Hform : form (dispatch (handleChange name value) w)
                  = JObj (assoc_set ps name (JStr value))).
  { by rewrite dispatch_form, handleChange_form, Hm, Hf. }
  rewrite Hform, Hf. simpl. rewrite assoc_get_set.
  split; [by destruct (String.eqb name k)|].
  unfold dispatch. rewrite Hm.
  destruct (flush_keeps (exec (handleChange name value) w)) as (_ & -> & ->).
  clear Hform. destruct w as [f0 s l sr str m fc hc c ts nt st con].
  unfold_js. simpl in *. by subst m.
Qed.

Lemma change_sets_field_witness :
  let w := mount emptyStore 0 in
  mounted w = true ∧ form w = JObj [("title", JStr ""); ("content", JStr "")]
  ∧ get_prop (form (step (Change "title" "Draft") w)) "content" = Ok (JStr "").
Proof.
  split; [reflexivity|]. split; [reflexivity|].
  exact (proj1 (change_sets_field (mount emptyStore 0) _ "title" "Draft" "content"
                  eq_refl eq_refl)).
Defined.

Lemma fire_form t w : form (fire t w) = form w.
Proof.
  unfold fire. destruct (flush_keeps (exec (run_callback (action t)) (dequeue t w))) as [-> _].
  assert (Hq : ∀ x, form (exec (setStatus saved) x) = form x).
  { intros x. destruct x as [f0 s l sr str m fc hc c ts nt st con]. unfold_js. simpl.
    by destruct m. }
  assert (Hd : form (dequeue t w) = form w) by by destruct w.
  destruct (action t) as [|f|]; simpl; rewrite ?Hq; try done.
  destruct (fits f (dequeue t w)) eqn:Hfit.
  - by rewrite (save_ok f _ Hfit).
  - unfold exec. by rewrite (save_fail f _ Hfit).
Qed.

Lemma run_timers_form fuel horizon w : form (run_timers fuel horizon w) = form w.
Proof.
  revert w. induction fuel as [|k IH]; intros w; simpl; [done|].
  destruct (next_timer horizon (timers w)); [|done]. by rewrite IH, fire_form.
Qed.

Lemma advance_form dt w : form (advance dt w) = form w.
Proof.
  unfold advance. pose proof (run_timers_form (weight (timers w)) (clock w + dt) w) as H.
  by destruct (run_timers _ _ w).
Qed.

Lemma text_fields_set ps name value :
  text_fields (JObj ps) = true ->
  text_fields (JObj (assoc_set ps name (JStr value))) = true.
Proof.
  unfold text_fields. simpl. rewrite !assoc_get_set.
  by destruct (String.eqb name "title"), (String.eqb name "content"),
    (assoc_get ps "title"), (assoc_get ps "content").
Qed.

Lemma text_fields_object f : text_fields f = true -> ∃ ps, f = JObj ps.
Proof. destruct f; try done. by eexists. Qed.

Lemma text_fields_step e w :
  text_fields (form w) = true -> text_fields (form (step e w)) = true.
Proof.
  intros Ht. destruct e as [name value| |confirmed| |dt]; unfold step.
  - rewrite dispatch_form, handleChange_form. destruct (mounted w); [|done].
    destruct (text_fields_object _ Ht) as [ps Hps]. rewrite Hps in *.
    by apply text_fields_set.
  - rewrite dispatch_form, handleManualSave_form. by destruct (mounted w).
  - rewrite dispatch_form, handleClear_form. by destruct (mounted w), confirmed.
  - by rewrite unmount_form.
  - by rewrite advance_form.
Qed.

Lemma text_fields_run es w :
  text_fields (form w) = true -> text_fields (form (run es w)) = true.
Proof.
  revert w. induction es as [|e es IH]; intros w Ht; [done|].
  apply IH. by apply text_fields_step.
Qed.

(** The preview of a form whose fields hold text. *)
Lemma FormPreview_text f a b :
  get_prop f "title" = Ok (JStr a) -> get_prop f "content" = Ok (JStr b) ->
  FormPreview f
  = if String.eqb a "" && String.eqb b "" then Nothing
    else Shown {| heading := guarded (JStr a); body := guarded (JStr b);
                  characters := utf16_length b; words := word_count b |}.
Proof.
  intros Ha Hb. unfold FormPreview, isEmptyForm. rewrite Ha, Hb. simpl.
  destruct (String.eqb a ""); simpl; [|done]. by destruct (String.eqb b "").
Qed.

(** [new Date] throws on arrays and objects only. *)
Lemma Date_new_primitive v : primitive v = true -> ∃ d, Date_new v = Ok d.
Proof.
  destruct v as [| |[]|neg m e|s|xs|ps]; try done; simpl; eauto.
  repeat case_match; eauto.
Qed.

Lemma FormStatus_primitive s l now :
  primitive l = true -> ∃ bar, FormStatus s l now = Ok bar.
Proof.
  intros Hp. unfold FormStatus. destruct (truthy l && is_saved s); [|eauto].
  unfold formatTimestamp. destruct (negb (truthy l)); [eauto|].
  destruct (Date_new_primitive l Hp) as [d ->].
  destruct d as [t| |]; [|eauto..]. cbv zeta.
  destruct (_ <? 1)%Z; [eauto|]. destruct (_ =? 1)%Z; [eauto|].
  destruct (_ <? 60)%Z; eauto.
Qed.

Lemma render_text w :
  text_fields (form w) = true -> primitive (lastSaved w) = true ->
  is_Some (render w).
Proof.
  unfold text_fields, render. intros Ht Hp.
  destruct (get_prop (form w) "title") as [[]|] eqn:Ha; try done.
  destruct (get_prop (form w) "content") as [[]|] eqn:Hb; try done.
  destruct (FormStatus_primitive (status w) (lastSaved w) (clock w) Hp) as [bar ->].
  rewrite (FormPreview_text _ _ _ Ha Hb). by destruct (_ && _).
Qed.

(** The timestamp is replaced by a save and by a clear only, with text and
    with [null]. *)
Lemma save_lastSaved f w :
  primitive (lastSaved w) = true ->
  primitive (lastSaved (exec (saveToLocalStorage f) w)) = true.
Proof.
  intros Hp. destruct (fits f w) eqn:Hfit.
  - rewrite (save_ok f w Hfit). simpl. by destruct (mounted w).
  - unfold exec. by rewrite (save_fail f w Hfit).
Qed.

Lemma dispatch_lastSaved h w :
  lastSaved (dispatch h w) = if mounted w then lastSaved (exec h w) else lastSaved w.
Proof.
  unfold dispatch. destruct (mounted w); [|done].
  by destruct (flush_keeps (exec h w)) as (_ & -> & _).
Qed.

Lemma fire_lastSaved t w :
  primitive (lastSaved w) = true -> primitive (lastSaved (fire t w)) = true.
Proof.
  intros Hp. unfold fire.
  destruct (flush_keeps (exec (run_callback (action t)) (dequeue t w))) as (_ & -> & _).
  assert (Hq : ∀ x, lastSaved (exec (setStatus saved) x) = lastSaved x).
  { intros x. destruct x as [f0 s l sr str m fc hc c ts nt st con]. unfold_js. simpl.
    by destruct m. }
  assert (Hd : lastSaved (dequeue t w) = lastSaved w) by by destruct w.
  destruct (action t) as [|f|]; simpl; rewrite ?Hq; try by rewrite Hd.
  apply save_lastSaved. by rewrite Hd.
Qed.

Lemma run_timers_lastSaved fuel horizon w :
  primitive (lastSaved w) = true ->
  primitive (lastSaved (run_timers fuel horizon w)) = true.
Proof.
  revert w. induction fuel as [|k IH]; intros w Hp; simpl; [done|].
  destruct (next_timer horizon (timers w)); [|done]. by apply IH, fire_lastSaved.
Qed.

Lemma primitive_step e w :
  primitive (lastSaved w) = true -> primitive (lastSaved (step e w)) = true.
Proof.
  intros Hp. destruct e as [name value| |confirmed| |dt]; unfold step.
  - rewrite dispatch_lastSaved. destruct (mounted w) eqn:Hm; [|done].
    destruct w as [f0 s l sr str m fc hc c ts nt st con]. unfold_js. simpl in *.
    by subst m.
  - rewrite dispatch_lastSaved. destruct (mounted w); [|done].
    unfold handleManualSave, bind, get_saveTimerRef, getForm, exec.
    set (w1 := snd (clearTimeout (saveTimerRef w) w)).
    assert (Hw1 : lastSaved w1 = lastSaved w)
      by (subst w1; unfold clearTimeout; by destruct (saveTimerRef w), w).
    replace (clearTimeout (saveTimerRef w) w) with (Ok tt, w1)
      by (subst w1; unfold clearTimeout; by destruct (saveTimerRef w)).
    apply (save_lastSaved (form w1) w1). by rewrite Hw1.
  - rewrite dispatch_lastSaved. destruct (mounted w) eqn:Hm; [|done].
    destruct w as [f0 s l sr str m fc hc c ts nt st con]. unfold_js. simpl in *.
    subst m. by destruct confirmed.
  - destruct w as [f0 s l sr str m fc hc c ts nt st con]. unfold unmount. unfold_js.
    simpl in *. by destruct m, hc, sr.
  - unfold advance.
    pose proof (run_timers_lastSaved (weight (timers w)) (clock w + dt) w Hp) as H.
    by destruct (run_timers _ _ w).
Qed.

Lemma primitive_run es w :
  primitive (lastSaved w) = true -> primitive (lastSaved (run es w)) = true.
Proof.
  revert w. induction es as [|e es IH]; intros w Hp; [done|].
  apply IH. by apply primitive_step.
Qed.

Lemma mount_form store now :
  form (mount store now)
  = match items store !! STORAGE_KEY with
    | None => emptyForm
    | Some text =>
        if truthy (JStr text) then
          match JSON.parse text with
          | Throw _ => emptyForm
          | Ok data =>
              match get_prop data "form" with
              | Throw _ => emptyForm
              | Ok f => f
              end
          end
        else emptyForm
    end.
Proof.
  unfold mount. destruct (flush_keeps (mountEffects store now)) as [-> _].
  unfold mountEffects, initialWorld. unfold_js. simpl.
  destruct (items store !! STORAGE_KEY) as [text|]; simpl; [|done].
  destruct (String.eqb text ""); simpl; [done|].
  destruct (JSON.parse text) as [data|]; simpl; [|done].
  destruct (get_prop data "form") as [f|]; simpl; [|done].
  by destruct (get_prop data "timestamp").
Qed.

Lemma mount_lastSaved store now :
  lastSaved (mount store now)
  = match items store !! STORAGE_KEY with
    | None => JNull
    | Some text =>
        if truthy (JStr text) then
          match JSON.parse text with
          | Throw _ => JNull
          | Ok data =>
              match get_prop data "form", get_prop data "timestamp" with
              | Ok _, Ok t => t
              | _, _ => JNull
              end
          end
        else JNull
    end.
Proof.
  unfold mount. destruct (flush_keeps (mountEffects store now)) as (_ & -> & _).
  unfold mountEffects, initialWorld. unfold_js. simpl.
  destruct (items store !! STORAGE_KEY) as [text|]; simpl; [|done].
  destruct (String.eqb text ""); simpl; [done|].
  destruct (JSON.parse text) as [data|]; simpl; [|done].
  destruct (get_prop data "form") as [f|] eqn:Hf; simpl; [|done].
  destruct data; try done.
Qed.

(** X9. Over a store whose entry is unreadable, absent, or holds a
    form with text in both fields and a timestamp that is neither an array
    nor an object, the form has text in both fields and the timestamp is
    neither an array nor an object in every later state, whatever is typed,
    clicked or fired, and the render of the component (status line with
    [formatTimestamp], inputs, preview with its [length] and [split] calls)
    does not throw. *)
Theorem render_never_throws store now es :
  loads_text store = true ->
  loads_stamp store = true ->
  let w := run es (mount store now) in
  text_fields (form w) = true
  ∧ primitive (lastSaved w) = true
  ∧ is_Some (render w).
Proof.
  intros Hl Hs w. assert (Ht : text_fields (form w) = true).
  { apply text_fields_run. rewrite mount_form. unfold loads_text in Hl.
    destruct (items store !! STORAGE_KEY) as [text|]; [|done].
    destruct (truthy (JStr text)); [|done].
    destruct (JSON.parse text) as [data|]; [|done].
    by destruct (get_prop data "form"). }
  assert (Hp : primitive (lastSaved w) = true).
  { apply primitive_run. rewrite mount_lastSaved. unfold loads_stamp in Hs.
    destruct (items store !! STORAGE_KEY) as [text|]; [|done].
    destruct (truthy (JStr text)); [|done].
    destruct (JSON.parse text) as [data|]; [|done].
    destruct (get_prop data "form"); [|done].
    by destruct (get_prop data "timestamp"). }
  split; [done|]. split; [done|]. by apply render_text.
Qed.

End Preview.

(** * More of the state machine *)

Section Lifecycle.

Implicit Types (ts : list timer) (t : timer).

Lemma record_truthy f now : truthy (JStr (record f now)) = true.
Proof. reflexivity. Qed.

(** X5. A mount over a store that holds the record
    of a non-empty document commits that document and its timestamp, and the
    re-render runs the auto-save effect for it: the status is [unsaved]
    although nothing was typed, and two seconds after the mount the document
    is written back with a new timestamp, once. *)
Theorem load_then_resave store now a b stamp :
  items store !! STORAGE_KEY = Some (record (document a b) stamp) ->
  nonEmptyForm (document a b) = true ->
  let w := mount store now in
  form w = document a b ∧ lastSaved w = JStr (toISOString stamp) ∧ status w = unsaved
  ∧ ∀ dts, writes (elapse dts w)
           = (set_calls (calls store)
              ++ if SAVE_DELAY <=? total dts
                 then [(STORAGE_KEY, record (document a b) (now + SAVE_DELAY))]
                 else [])%list.
Proof.
  intros Hget Hne w.
  assert (Hw : w = _) by exact (mount_loaded_rearms store now _ _ (document a b)
                                  (JStr (toISOString stamp)) Hget (record_truthy _ _)
                                  (parse_record a b (toISOString stamp)) eq_refl eq_refl Hne).
  assert (Ha : armed w (set_calls (calls store))).
  { split; [apply mount_inv|]. rewrite Hw. split; [done|]. split; [done|].
    eexists. split; [apply elem_of_cons; right; apply list_elem_of_singleton; reflexivity|done]. }
  split; [by rewrite Hw|]. split; [by rewrite Hw|]. split; [by rewrite Hw|].
  intros dts. rewrite (armed_fires dts w _ Ha). by rewrite Hw.
Qed.

Lemma load_then_resave_witness :
  let store := storeWith (record (document "Notes" "") 1700000000000) in
  (items store !! STORAGE_KEY = Some (record (document "Notes" "") 1700000000000)
   ∧ nonEmptyForm (document "Notes" "") = true)
  ∧ status (mount store 1700000600000) = unsaved.
Proof.
  intros store.
  assert (Hget : items store !! STORAGE_KEY
                 = Some (record (document "Notes" "") 1700000000000))
    by (vm_compute; reflexivity).
  assert (Hne : nonEmptyForm (document "Notes" "") = true) by reflexivity.
  split; [by split|].
  exact (proj1 (proj2 (proj2 (load_then_resave store 1700000600000 "Notes" ""
                                1700000000000 Hget Hne)))).
Defined.

(** Whatever timers fire, [setItem] is called at most once, and then by a
    save timer that was pending. *)
Lemma run_timers_writes fuel horizon w :
  Inv w ->
  writes (run_timers fuel horizon w) = writes w
  ∨ ∃ t f d, t ∈ timers w ∧ action t = SaveTimer f
             ∧ writes (run_timers fuel horizon w)
               = (writes w ++ [(STORAGE_KEY, record f d)])%list.
Proof.
  revert w. induction fuel as [|k IH]; intros w HI; simpl; [by left|].
  destruct (next_timer horizon (timers w)) as [t1|] eqn:Hn; [|by left].
  pose proof (next_timer_elem _ _ _ Hn) as Hin1.
  pose proof (fire_inv t1 w HI) as HI'.
  destruct (action t1) as [|f|] eqn:Hact.
  - destruct HI as (_ & Hfc).
    assert (Hs1 : is_save t1 = false) by (unfold is_save; by rewrite Hact).
    rewrite (fire_quiet t1 w Hfc Hs1) in *.
    destruct (IH _ HI') as [Hw|(t & f & d & Hin & Ha & Hw)].
    + left. by rewrite Hw.
    + right. exists t, f, d. apply elem_of_cancel in Hin as [_ Hin]. done.
  - right. exists t1, f, (N.max (clock w) (due t1)). split; [done|]. split; [done|].
    assert (Ht : is_save t1 = true) by (unfold is_save; by rewrite Hact).
    destruct HI as ((Hs & _ & _) & Hfc).
    destruct (Hs t1 Hin1 Ht) as (_ & _ & Href). rewrite Href in Hs.
    assert (Hq : ∀ x, formChanged x = false -> save_free (timers x) ->
                 writes (run_timers k horizon x) = writes x).
    { intros x Hx Hsf. destruct (run_timers_quiet k horizon x Hx Hsf) as (Hst & _).
      unfold writes. by rewrite Hst. }
    destruct (fits f (dequeue t1 w)) eqn:Hfit.
    + rewrite (fire_save_ok t1 f w Hact Hfc Hfit). rewrite Hq; simpl; [|done|].
      * unfold writes. simpl. by rewrite set_calls_app.
      * apply save_free_snoc; [|done]. destruct (statusTimerRef w); simpl; eauto with timers.
    + rewrite (fire_save_fail t1 f w Hact Hfc Hfit). rewrite Hq; simpl; [|done|].
      * unfold writes. simpl. by rewrite set_calls_app.
      * eauto with timers.
  - destruct HI as (_ & Hfc).
    assert (Hs1 : is_save t1 = false) by (unfold is_save; by rewrite Hact).
    rewrite (fire_quiet t1 w Hfc Hs1) in *.
    destruct (IH _ HI') as [Hw|(t & f & d & Hin & Ha & Hw)].
    + left. by rewrite Hw.
    + right. exists t, f, d. apply elem_of_cancel in Hin as [_ Hin]. done.
Qed.

(** X6. In any state the component can reach,
    letting time pass calls [setItem] at most once, and the record it then
    writes is the record of a form that is not empty. *)
Theorem autosave_writes_nonempty w dt :
  reachable w ->
  writes (step (Advance dt) w) = writes w
  ∨ ∃ f d, isEmptyForm f = Ok false
           ∧ writes (step (Advance dt) w) = (writes w ++ [(STORAGE_KEY, record f d)])%list.
Proof.
  intros Hr. pose proof (reachable_inv w Hr) as HI. simpl. unfold advance.
  rewrite writes_with_clock.
  destruct (run_timers_writes (weight (timers w)) (clock w + dt) w HI)
    as [Hw|(t & f & d & Hin & Ha & Hw)]; [by left|].
  right. exists f, d. split; [|done]. by apply (pending_save_nonempty w t).
Qed.

Lemma autosave_writes_nonempty_witness :
  let w := step (Change "title" "A") (mount emptyStore 0) in
  reachable w
  ∧ (writes (step (Advance 2000) w) = writes w
     ∨ ∃ f d, isEmptyForm f = Ok false
              ∧ writes (step (Advance 2000) w)
                = (writes w ++ [(STORAGE_KEY, record f d)])%list).
Proof.
  intros w.
  assert (Hr : reachable w) by apply reach_step, reach_mount.
  split; [exact Hr|]. exact (autosave_writes_nonempty w 2000 Hr).
Defined.

(** X7. After a confirmed clear, however time passes, the
    component draws two empty inputs, no preview and no [Last saved] line;
    the status line is the one for [idle], or the one for [saved] once a
    feedback timer that was still pending has fired. *)
Theorem cleared_view w dts :
  reachable w -> mounted w = true ->
  let w' := elapse dts (step (Clear true) w) in
  render w'
  = Some {| statusBar := {| statusLine := getStatusInfo (status w');
                            lastSavedLine := None |};
            titleValue := JStr ""; contentValue := JStr ""; previewPane := None |}
  ∧ (status w' = idle ∨ status w' = saved).
Proof.
  intros Hr Hm w'. apply reachable_inv in Hr.
  destruct (clear_true_spec w Hr Hm) as (Hf & Hs & Hl & _ & Hsf & Hfc & _).
  destruct (elapse_quiet dts _ Hfc Hsf) as (_ & Hf' & Hl' & _).
  pose proof (elapse_quiet_status dts _ Hfc Hsf) as Hs'.
  fold w' in Hf', Hl', Hs'. rewrite Hf in Hf'. rewrite Hl in Hl'. rewrite Hs in Hs'.
  clearbody w'. split; [|done].
  unfold render, FormStatus. rewrite Hf', Hl'. done.
Qed.

Lemma cleared_view_witness :
  let w := run [Change "title" "A"; ManualSave] (mount emptyStore 0) in
  (reachable w ∧ mounted w = true)
  ∧ render (elapse [500] (step (Clear true) w))
    = Some {| statusBar := {| statusLine := getStatusInfo saved; lastSavedLine := None |};
              titleValue := JStr ""; contentValue := JStr ""; previewPane := None |}.
Proof.
  intros w.
  assert (Hr : reachable w) by (do 2 apply reach_step; apply reach_mount).
  assert (Hm : mounted w = true) by (vm_compute; reflexivity).
  split; [by split|].
  exact (proj1 (cleared_view w [500] Hr Hm)).
Defined.


(** While the pending save timer is not due, a timer that is due sets the
    status to [saved], and it stays so. *)
Lemma run_timers_wait_saved fuel horizon w t0 :
  Inv w -> mounted w = true -> t0 ∈ timers w -> is_save t0 = true -> horizon < due t0 ->
  status w = saved
  ∨ (∃ t, t ∈ timers w ∧ due t <= horizon) ∧ (weight (timers w) <= fuel)%nat ->
  status (run_timers fuel horizon w) = saved.
Proof.
  revert w. induction fuel as [|k IH]; intros w HI Hm Hin0 Hs0 Hlt Hcase.
  { destruct Hcase as [Hst|[(t & Hin & _) Hfuel]]; [done|].
    pose proof (weight_cancel_elem _ _ Hin). pose proof (cost_pos t). lia. }
  simpl. destruct (next_timer horizon (timers w)) as [t1|] eqn:Hn.
  2: { destruct Hcase as [Hst|[(t & Hin & Hdue) _]]; [done|].
       pose proof (next_timer_none _ _ _ Hn Hin). lia. }
  pose proof (next_timer_elem _ _ _ Hn) as Hin1.
  pose proof (next_timer_due _ _ _ Hn) as Hdue1.
  assert (Hs1 : is_save t1 = false).
  { destruct (is_save t1) eqn:E; [|done].
    rewrite (save_timer_unique w t1 t0 HI Hin1 Hin0 E Hs0) in Hdue1. lia. }
  assert (Hne : tid t0 ≠ tid t1).
  { intros Heq. destruct HI as ((_ & [Hnd _] & _) & _).
    rewrite (tid_inj _ _ _ Hnd Hin0 Hin1 Heq) in Hs0. congruence. }
  pose proof (fire_inv t1 w HI) as HI'.
  destruct HI as (_ & Hfc).
  rewrite (fire_quiet t1 w Hfc Hs1) in *.
  match goal with |- context [run_timers k horizon ?x] => specialize (IH x HI') end.
  simpl in IH. apply IH; try done.
  - by apply elem_of_cancel.
  - left. by rewrite Hm.
Qed.




Lemma manual_save_replaces_pending_witness :
  let w := step (Change "title" "A") (mount emptyStore 0) in
  (reachable w ∧ mounted w = true ∧ fits (form w) w = true)
  ∧ writes (elapse [2000; 5000] (step ManualSave w)) = writes (step ManualSave w).
Proof.
  intros w.
  assert (Hr : reachable w) by apply reach_step, reach_mount.
  assert (Hm : mounted w = true) by (vm_compute; reflexivity).
  assert (Hfit : fits (form w) w = true) by (vm_compute; reflexivity).
  split; [by repeat split|].
  exact (proj1 (proj2 (proj2 (proj2 (proj2 (proj2 (proj2
           (manual_save_replaces_pending w Hr Hm Hfit))))))) [2000; 5000]).
Defined.

Lemma render_never_throws_witness :
  let store := storeWith (record (document "notes" "first draft") 1700000000000) in
  let es := [Advance 2500; Change "content" "two words"; Advance 2500; Clear true] in
  loads_text store = true ∧ loads_stamp store = true
  ∧ is_Some (render (run es (mount store 1700000060000))).
Proof.
  intros store es.
  assert (Hl : loads_text store = true) by (vm_compute; reflexivity).
  assert (Hs : loads_stamp store = true) by (vm_compute; reflexivity).
  split; [exact Hl|]. split; [exact Hs|].
  exact (proj2 (proj2 (render_never_throws store 1700000060000 es Hl Hs))).
Defined.

End Lifecycle.

(** * No timer is left behind *)

Section Bounded.

Implicit Types (ts : list timer) (t : timer).

Lemma feedback_tracked_cancel id ts r :
  feedback_tracked ts r -> feedback_tracked (cancel id ts) r.
Proof. intros H t [_ Hin]%elem_of_cancel. by apply H. Qed.

Lemma feedback_tracked_cancel_ref r' ts r :
  feedback_tracked ts r -> feedback_tracked (cancel_ref r' ts) r.
Proof. destruct r'; simpl; [apply feedback_tracked_cancel|done]. Qed.

Lemma feedback_tracked_save ts r n d f :
  feedback_tracked ts r ->
  feedback_tracked (ts ++ [{| tid := n; due := d; action := SaveTimer f |}]) r.
Proof.
  intros H t [Hin| ->%list_elem_of_singleton]%elem_of_app; [by apply H|done].
Qed.

(** [saveToLocalStorage] clears the status timer it armed before and arms a
    new one. *)
Lemma feedback_tracked_rearm ts r n d :
  feedback_tracked ts r ->
  feedback_tracked (cancel_ref r ts ++ [{| tid := n; due := d; action := StatusTimer |}])
    (Some n).
Proof.
  intros H t [Hin| ->%list_elem_of_singleton]%elem_of_app; [|done].
  assert (Hin' : t ∈ ts).
  { destruct r; simpl in Hin; [by apply elem_of_cancel in Hin as [_ ?]|done]. }
  specialize (H t Hin'). destruct (action t); try done.
  destruct r as [id|]; [|done]. simpl in Hin.
  apply elem_of_cancel in Hin as [Hne _]. congruence.
Qed.

#[local] Hint Resolve feedback_tracked_cancel feedback_tracked_cancel_ref
  feedback_tracked_save feedback_tracked_rearm : timers.

Lemma flush_feedback w : Feedback w -> Feedback (flush w).
Proof.
  destruct w as [f s l sr str m fc hc c ts nt st con].
  unfold flush, Feedback. simpl. intros H.
  destruct m, fc; simpl; try done.
  unfold_js. simpl.
  destruct hc, sr as [id|]; simpl; destruct (isEmptyForm f) as [[]|] eqn:He; simpl;
    eauto with timers.
Qed.

Lemma saveToLocalStorage_feedback f w :
  Feedback w -> Feedback (exec (saveToLocalStorage f) w).
Proof.
  destruct w as [f0 s l sr str m fc hc c ts nt st con].
  unfold Feedback. unfold_js. simpl. intros H.
  destruct m; simpl; destruct (_ <=? _); simpl; try done;
    destruct str as [id|]; simpl; try done;
    first [by apply (feedback_tracked_rearm ts (Some id))
          |by apply (feedback_tracked_rearm ts None)].
Qed.

Lemma fire_feedback t w : Feedback w -> Feedback (fire t w).
Proof.
  intros H. unfold fire. apply flush_feedback.
  assert (Hd : Feedback (dequeue t w)).
  { destruct w as [f0 s l sr str m fc hc c ts nt st con]. unfold Feedback in *. simpl in *.
    by apply feedback_tracked_cancel. }
  revert Hd. generalize (dequeue t w). intros u Hd.
  destruct (action t); simpl; [|by apply saveToLocalStorage_feedback|].
  all: destruct u as [f0 s l sr str m fc hc c ts nt st con]; unfold Feedback in *;
    unfold_js; simpl in *; by destruct m.
Qed.

Lemma run_timers_feedback fuel horizon w :
  Feedback w -> Feedback (run_timers fuel horizon w).
Proof.
  revert w. induction fuel as [|k IH]; intros w H; simpl; [done|].
  destruct (next_timer horizon (timers w)); [|done]. by apply IH, fire_feedback.
Qed.

Lemma step_feedback e w : Feedback w -> Feedback (step e w).
Proof.
  intros H. destruct e; unfold step, dispatch, unmount.
  - destruct (mounted w); [|done]. apply flush_feedback.
    destruct w as [f0 s l sr str m fc hc c ts nt st con]; unfold Feedback in *;
      unfold_js; simpl in *. by destruct m.
  - destruct (mounted w); [|done]. apply flush_feedback.
    unfold handleManualSave, bind, exec, getForm. simpl.
    apply saveToLocalStorage_feedback.
    unfold clearTimeout. destruct (saveTimerRef w); [|done].
    destruct w as [f0 s l sr str m fc hc c ts nt st con]; unfold Feedback in *; simpl in *.
    by apply feedback_tracked_cancel.
  - destruct (mounted w); [|done]. apply flush_feedback.
    destruct w as [f0 s l sr str m fc hc c ts nt st con]; unfold Feedback in *;
      unfold_js; simpl in *. by destruct confirmed, m.
  - destruct (mounted w); [|done].
    destruct w as [f0 s l sr str m fc hc c ts nt st con]; unfold Feedback in *;
      unfold_js; simpl in *.
    destruct hc, sr; simpl; eauto with timers.
  - unfold advance. apply (run_timers_feedback (weight (timers w)) (clock w + dt)) in H.
    by destruct (run_timers _ _ w).
Qed.

Lemma mount_feedback store now : Feedback (mount store now).
Proof.
  unfold mount. apply flush_feedback.
  unfold mountEffects, initialWorld, Feedback. unfold_js. simpl.
  assert (H0 : feedback_tracked [] None) by (by intros t ?%elem_of_nil).
  destruct (items store !! STORAGE_KEY) as [text|]; simpl; [|done].
  destruct (negb _); simpl; [|done].
  destruct (JSON.parse text) as [data|]; simpl; [|done].
  destruct (get_prop data "form"); simpl; [|done].
  destruct (get_prop data "timestamp"); simpl; [|done].
  by intros t ->%list_elem_of_singleton.
Qed.

Lemma reachable_feedback w : reachable w -> Feedback w.
Proof. induction 1; [apply mount_feedback|by apply step_feedback]. Qed.

(** X12. In every state the component can reach at most three timers are
    pending: at most one that saves, at most one status timer (each save
    clears the one before) and the one armed by the load. *)
Theorem pending_timers_bounded w :
  reachable w ->
  (length (timers w) <= 3)%nat
  ∧ ∀ t t', t ∈ timers w -> t' ∈ timers w ->
            action t = action t' ∨ (is_save t = true ∧ is_save t' = true) -> t = t'.
Proof.
  intros Hr. pose proof (reachable_inv w Hr) as HI.
  pose proof (reachable_feedback w Hr) as HF.
  destruct HI as ((Hs & [Hnd _] & _) & _).
  assert (Hid : ∀ t, t ∈ timers w ->
            Some (tid t) = match action t with
                           | SaveTimer _ => saveTimerRef w
                           | StatusTimer => statusTimerRef w
                           | LoadedTimer => Some 1%nat
                           end).
  { intros t Hin. specialize (HF t Hin). destruct (action t) eqn:Ha.
    - by rewrite HF.
    - destruct (Hs t Hin) as (_ & _ & ->); [unfold is_save; by rewrite Ha|done].
    - by rewrite HF. }
  split.
  - set (k := (option_list (saveTimerRef w) ++ option_list (statusTimerRef w) ++ [1%nat])%list).
    assert (Hk : (length k <= 3)%nat)
      by (subst k; destruct (saveTimerRef w), (statusTimerRef w); simpl; lia).
    assert (Hsub : (tid <$> timers w) ⊆+ k).
    { apply NoDup_submseteq; [done|]. intros id (t & -> & Hin)%list_elem_of_fmap.
      specialize (Hid t Hin). subst k. rewrite !elem_of_app.
      destruct (action t).
      - right. right. apply list_elem_of_singleton. congruence.
      - left. rewrite <- Hid. by apply list_elem_of_singleton.
      - right. left. rewrite <- Hid. by apply list_elem_of_singleton. }
    apply submseteq_length in Hsub. rewrite length_fmap in Hsub. lia.
  - intros t t' Hin Hin' Hsame. apply (tid_inj (timers w)); try done.
    pose proof (Hid t Hin) as H1. pose proof (Hid t' Hin') as H2.
    destruct Hsame as [Heq|[Ht Ht']].
    + rewrite Heq in H1. destruct (action t'); congruence.
    + unfold is_save in Ht, Ht'. destruct (action t), (action t'); try done. congruence.
Qed.

Lemma pending_timers_bounded_witness :
  let w := run [Change "title" "A"; ManualSave; Change "title" "AB"; ManualSave]
             (mount (storeWith (record (document "x" "y") 5)) 10) in
  reachable w ∧ (length (timers w) <= 3)%nat.
Proof.
  intros w.
  assert (Hr : reachable w) by (do 4 apply reach_step; apply reach_mount).
  split; [exact Hr|]. exact (proj1 (pending_timers_bounded w Hr)).
Defined.

End Bounded.

(** * Plain data written and read back *)

Section JsonPlain.

Import JSON.

(** Evaluates the tests on characters that are known. *)
Ltac crank :=
  repeat (progress (unfold is_ws;
                    repeat match goal with
                    | |- context [is_char (Ascii ?a ?b ?c ?d ?e ?f ?g ?h) ?n] =>
                        let v := eval vm_compute in (is_char (Ascii a b c d e f g h) n) in
                        change (is_char (Ascii a b c d e f g h) n) with v
                    end;
                    cbn [orb andb skip_ws]; cbv beta iota)).

Ltac calc_chars :=
  repeat match goal with
  | |- context [is_char (Ascii ?a ?b ?c ?d ?e ?f ?g ?h) ?n] =>
      let v := eval vm_compute in (is_char (Ascii a b c d e f g h) n) in
      change (is_char (Ascii a b c d e f g h) n) with v
  end.

#[local] Arguments String.append : simpl nomatch.

Lemma jsval_ind_nested (P : jsval -> Prop) :
  P JUndefined -> P JNull -> (∀ b, P (JBool b)) -> (∀ neg m e, P (JNum neg m e)) ->
  (∀ s, P (JStr s)) ->
  (∀ xs, Forall P xs -> P (JArr xs)) ->
  (∀ ps, Forall (fun p => P (snd p)) ps -> P (JObj ps)) ->
  ∀ v, P v.
Proof.
  intros Hu Hn Hb Hnum Hs Ha Ho. fix IH 1.
  intros [| |b|neg m e|s|xs|ps]; [exact Hu|exact Hn|apply Hb|apply Hnum|apply Hs| |].
  - apply Ha. induction xs as [|x xs IHxs]; constructor; [apply IH|exact IHxs].
  - apply Ho. induction ps as [|[k x] ps IHps]; constructor; [apply IH|exact IHps].
Qed.

(** More fuel changes no result but [PFuel]. *)
Lemma parse_stable k :
  (∀ s x, parse_value k s = x -> x ≠ PFuel -> parse_value (S k) s = x)
  ∧ (∀ s acc x, parse_elements k s acc = x -> x ≠ PFuel -> parse_elements (S k) s acc = x)
  ∧ (∀ s acc x, parse_members k s acc = x -> x ≠ PFuel -> parse_members (S k) s acc = x).
Proof.
  induction k as [|k (IHv & IHe & IHm)]; [by repeat split; intros; subst|].
  remember (S k) as k' eqn:Hk.
  split; [|split].
  - intros s x H Hx. rewrite Hk in H. simpl in H |- *.
    destruct (skip_ws s) as [|c r0]; [done|].
    destruct (is_char c 34); [done|].
    destruct (is_char c 91).
    { destruct (skip_ws r0) as [|d r1]; [done|].
      destruct (is_char d 93); [done|]. subst k'. by apply IHe. }
    destruct (is_char c 123); [|done].
    destruct (skip_ws r0) as [|d r1]; [done|].
    destruct (is_char d 125); [done|]. subst k'. by apply IHm.
  - intros s acc x H Hx. rewrite Hk in H. simpl in H |- *.
    destruct (parse_value k s) as [v0 r0| |] eqn:E.
    + subst k'. rewrite (IHv _ _ E) by done.
      destruct (skip_ws r0) as [|c r1]; [done|].
      destruct (is_char c 44); [by apply IHe|done].
    + subst k'. by rewrite (IHv _ _ E).
    + by subst x.
  - intros s acc x H Hx. rewrite Hk in H. simpl in H |- *.
    destruct (skip_ws s) as [|c r0]; [done|].
    destruct (is_char c 34); [|done].
    destruct (parse_string_body r0) as [[us r1]|]; [|done].
    destruct (skip_ws r1) as [|d r2]; [done|].
    destruct (is_char d 58); [|done].
    destruct (parse_value k r2) as [v0 r3| |] eqn:E.
    + subst k'. rewrite (IHv _ _ E) by done.
      destruct (skip_ws r3) as [|e r4]; [done|].
      destruct (is_char e 44); [by apply IHm|done].
    + subst k'. by rewrite (IHv _ _ E).
    + by subst x.
Qed.

Lemma parse_value_stable k k' s :
  (k <= k')%nat -> parse_value k s ≠ PFuel -> parse_value k' s = parse_value k s.
Proof.
  induction 1 as [|k' _ IH]; [done|]. intros H.
  apply parse_stable; [by apply IH|done].
Qed.

(** A value read with some fuel is read with any fuel that is enough. *)
Lemma parse_value_any k k' s v r :
  parse_value k s = POk v r -> parse_value k' s ≠ PFuel -> parse_value k' s = POk v r.
Proof.
  intros H H'. destruct (Nat.le_ge_cases k k') as [Hle|Hge].
  - rewrite (parse_value_stable k k' s Hle); [done|by rewrite H].
  - by rewrite <- (parse_value_stable k' k s Hge H').
Qed.


Lemma is_char_eq c n : is_char c n = true -> n < 256 -> c = ascii_of_N n.
Proof.
  unfold is_char. intros H%N.eqb_eq _. by rewrite <- H, ascii_N_embedding.
Qed.

(** After a value comes nothing that could continue a number. *)
Lemma closes_head rest :
  closes rest = true ->
  match rest with
  | "" => True
  | String c _ =>
      digit_val c = None ∧ is_char c 46 = false ∧ is_char c 101 = false
      ∧ is_char c 69 = false ∧ is_ws c = false
  end.
Proof.
  destruct rest as [|c r]; [done|]. simpl.
  intros [[H|H]%orb_prop|H]%orb_prop; apply is_char_eq in H; try lia; by subst c.
Qed.

Lemma span_digits_stop rest acc cnt :
  closes rest = true -> span_digits rest acc cnt = (acc, cnt, rest).
Proof.
  intros H%closes_head. destruct rest as [|c r]; [done|]. simpl.
  by destruct H as (-> & _).
Qed.

Lemma span_digits_pos d p cnt rest :
  (∀ acc k, span_digits rest acc k = (acc, k, rest)) ->
  span_digits (NilEmpty.string_of_uint d ++ rest) (Npos p) cnt
  = (Npos (Pos.of_uint_acc d p), (cnt + Decimal.nb_digits d)%nat, rest).
Proof.
  intros Hr. revert p cnt.
  induction d as [|d IH|d IH|d IH|d IH|d IH|d IH|d IH|d IH|d IH|d IH]; intros p cnt.
  { simpl. rewrite Hr. by rewrite Nat.add_0_r. }
  all: cbn [NilEmpty.string_of_uint String.append span_digits Pos.of_uint_acc Decimal.nb_digits];
    match goal with |- context [digit_val ?c] =>
      let v := eval vm_compute in (digit_val c) in change (digit_val c) with v end;
    cbv iota beta;
    match goal with |- span_digits _ ?a _ = (Npos (Pos.of_uint_acc _ ?b), _, _) =>
      replace a with (Npos b) by lia end;
    rewrite IH; f_equal; f_equal; lia.
Qed.

Lemma span_digits_zero d cnt rest :
  (∀ acc k, span_digits rest acc k = (acc, k, rest)) ->
  span_digits (NilEmpty.string_of_uint d ++ rest) 0 cnt
  = (N.of_uint d, (cnt + Decimal.nb_digits d)%nat, rest).
Proof.
  intros Hr. revert cnt.
  induction d as [|d IH|d IH|d IH|d IH|d IH|d IH|d IH|d IH|d IH|d IH]; intros cnt.
  { simpl. rewrite Hr. by rewrite Nat.add_0_r. }
  { cbn [NilEmpty.string_of_uint String.append span_digits Decimal.nb_digits].
    change (digit_val "0") with (Some 0). cbv iota beta.
    change (0 * 10 + 0) with 0. rewrite IH. f_equal. f_equal. lia. }
  all: cbn [NilEmpty.string_of_uint String.append span_digits Decimal.nb_digits];
    match goal with |- context [digit_val ?c] =>
      let v := eval vm_compute in (digit_val c) in change (digit_val c) with v end;
    cbv iota beta;
    match goal with |- span_digits _ ?a _ = _ =>
      let v := eval vm_compute in a in change a with v end;
    rewrite span_digits_pos by done; f_equal; f_equal; lia.
Qed.

Lemma show_N_uint n : show_N n = NilEmpty.string_of_uint (N.to_uint n).
Proof.
  unfold show_N. destruct (N.to_uint n) eqn:E; try done.
  destruct n; [done|]. by apply DecimalPos.Unsigned.to_uint_nonnil in E.
Qed.

(** A number is written without a leading zero. *)
Lemma to_uint_head p : ∀ d, Pos.to_uint p ≠ Decimal.D0 d.
Proof.
  intros d H.
  assert (Hu : Decimal.unorm (Pos.to_uint p) = Pos.to_uint p).
  { by rewrite <- DecimalPos.Unsigned.to_of, DecimalPos.Unsigned.of_to. }
  unfold Decimal.unorm in Hu. destruct (Decimal.nzhead (Pos.to_uint p)) eqn:E;
    try (rewrite <- Hu in H; by apply (DecimalFacts.nzhead_nonzero (Pos.to_uint p) d);
         rewrite E, <- H).
  by apply (DecimalPos.Unsigned.to_uint_nonzero p).
Qed.


Lemma nb_digits_pos n : (0 < Decimal.nb_digits (N.to_uint n))%nat.
Proof.
  destruct (Decimal.nb_digits (N.to_uint n)) eqn:E; [|lia].
  apply DecimalFacts.nb_digits_0 in E. destruct n; [done|].
  by apply DecimalPos.Unsigned.to_uint_nonnil in E.
Qed.

(** The integer part of a number, read back. *)
Lemma read_span n rest :
  (∀ acc k, span_digits rest acc k = (acc, k, rest)) ->
  ∃ cnt, span_digits (show_N n ++ rest) 0 0 = (n, S cnt, rest).
Proof.
  intros Hr. rewrite show_N_uint, span_digits_zero by done.
  rewrite DecimalN.Unsigned.of_to. pose proof (nb_digits_pos n).
  exists (pred (Decimal.nb_digits (N.to_uint n))). f_equal. f_equal. lia.
Qed.

Lemma show_N_head n :
  ∃ c s, show_N n = String c s ∧ is_Some (digit_val c)
         ∧ (is_char c 48 = true -> n = 0 ∧ s = "").
Proof.
  rewrite show_N_uint. destruct n as [|p]; [by exists "0"%char, ""|].
  pose proof (to_uint_head p) as Hh. simpl.
  destruct (Pos.to_uint p) eqn:E;
    [by apply DecimalPos.Unsigned.to_uint_nonnil in E|by destruct (Hh u)|..];
    eexists _, _; (split; [reflexivity|]); by split.
Qed.


Lemma digit_not_char c n :
  is_Some (digit_val c) -> n < 48 ∨ 57 < n -> is_char c n = false.
Proof.
  unfold digit_val, is_char. intros [d H] Hn.
  destruct (_ && _) eqn:E; [|done]. apply andb_prop in E as [?%N.leb_le ?%N.leb_le].
  apply N.eqb_neq. lia.
Qed.

(** A number is read back as written, whatever closes it. *)
Lemma parse_number_show neg m e rest :
  closes rest = true -> negb (neg && (m =? 0)) = true ->
  parse_number (show_num neg m e ++ rest) = Some (JNum neg m e, rest).
Proof.
  intros Hr Hz. unfold show_num. rewrite !sapp_assoc.
  set (tail := (if (e =? 0)%Z then "" else "e" ++ (if (e <? 0)%Z then "-" else "+")
                                         ++ show_N (Z.abs_N e)) ++ rest).
  assert (Hstop : ∀ acc k, span_digits rest acc k = (acc, k, rest))
    by (intros; by apply span_digits_stop).
  assert (Htail : ∀ acc k, span_digits tail acc k = (acc, k, tail)).
  { subst tail. destruct (e =? 0)%Z; [done|]. by destruct (e <? 0)%Z. }
  destruct (show_N_head m) as (c & s & Hs & Hd & H0).
  destruct (read_span m tail Htail) as (cnt & Hspan).
  assert (Hneg : is_char c 45 = false) by (apply digit_not_char; [done|lia]).
  rewrite Hs in Hspan. change (String c s ++ tail) with (String c (s ++ tail)) in Hspan.
  unfold parse_number.
  assert (Hsign : (if neg && negb (m =? 0) then "-" else "") ++ show_N m ++ tail
                  = if neg then String "-" (String c (s ++ tail)) else String c (s ++ tail)).
  { rewrite Hs. destruct neg; [|done]. simpl in Hz. by rewrite Hz. }
  rewrite Hsign. clear Hsign.
  assert (Hexp : ∃ cnt', span_digits (show_N (Z.abs_N e) ++ rest) 0 0
                         = (Z.abs_N e, S cnt', rest)) by by apply read_span.
  destruct Hexp as (cnt' & Hexp).
  destruct neg; calc_chars; rewrite ?Hneg; cbv beta iota zeta.
  all: destruct (is_char c 48) eqn:E48;
    [ destruct (H0 eq_refl) as [-> ->]; try done; change ("" ++ tail) with tail
    | destruct Hd as [d ->]; rewrite Hspan; cbv beta iota zeta ].
  all: subst tail; destruct (Z.eqb_spec e 0) as [->|Hne];
    [ change ("" ++ rest) with rest; pose proof (closes_head rest Hr) as Hh;
      destruct rest as [|c' r']; [done|];
      destruct Hh as (_ & -> & -> & -> & _); done
    | rewrite !sapp_assoc; destruct (Z.ltb_spec e 0); cbn [String.append];
      repeat (progress (calc_chars; cbv beta iota zeta));
      rewrite Hexp; cbv beta iota zeta;
      repeat f_equal; rewrite N2Z.inj_abs_N; simpl; lia ].
Qed.


Lemma digit_opens c : is_Some (digit_val c) -> opens c.
Proof.
  intros Hd. unfold opens, is_ws.
  rewrite !(digit_not_char c) by (done || lia). done.
Qed.

Lemma show_num_head neg m e rest :
  ∃ c s, show_num neg m e ++ rest = String c s
         ∧ (c = "-"%char ∨ is_Some (digit_val c)).
Proof.
  unfold show_num. destruct (show_N_head m) as (c & s & -> & Hd & _).
  destruct (neg && negb (m =? 0)); simpl; eauto.
Qed.

Lemma serialize_head v t :
  serialize v = Some t -> ∃ c s, t = String c s ∧ opens c.
Proof.
  destruct v as [| |[]|neg m e|s|xs|ps]; simpl; intros H; simplify_eq;
    try by (eexists _, _; split; [reflexivity|]).
  destruct (show_num_head neg m e "") as (c & s & Hs & Hc).
  exists c, s. split.
  - rewrite <- Hs. clear. generalize (show_num neg m e).
    intros x. induction x as [|a x IH]; simpl; [done|]. by rewrite <- IH.
  - destruct Hc as [->|Hd]; [done|by apply digit_opens].
Qed.


Lemma parse_elements_more k k' s acc v r :
  parse_elements k s acc = POk v r -> (k <= k')%nat -> parse_elements k' s acc = POk v r.
Proof.
  intros H. induction 1 as [|k' _ IH]; [done|]. by apply (parse_fuel_mono k').
Qed.

Lemma parse_members_more k k' s acc v r :
  parse_members k s acc = POk v r -> (k <= k')%nat -> parse_members k' s acc = POk v r.
Proof.
  intros H. induction 1 as [|k' _ IH]; [done|]. by apply (parse_fuel_mono k').
Qed.

Lemma skip_ws_opens c s : is_ws c = false -> skip_ws (String c s) = String c s.
Proof. intros H. simpl. by rewrite H. Qed.

Lemma assoc_set_fresh acc k v :
  k ∉ map fst acc -> assoc_set acc k v = (acc ++ [(k, v)])%list.
Proof.
  induction acc as [|[k0 v0] acc IH]; simpl; [done|].
  intros [Hne Hnin]%not_elem_of_cons.
  destruct (String.eqb_spec k0 k) as [->|_]; [done|]. by rewrite IH.
Qed.

(** The elements of an array, read back one after the other. *)
Lemma parse_elements_serialize xs :
  xs ≠ [] ->
  Forall (fun x => ∀ rest, closes rest = true ->
            ∃ t, serialize x = Some t ∧ ∃ k, parse_value k (t ++ rest) = POk x rest) xs ->
  ∀ acc rest, ∃ k,
    parse_elements k
      (join "," (map (fun x => default "null" (serialize x)) xs) ++ String "]" rest) acc
    = POk (JArr (rev acc ++ xs)) rest.
Proof.
  intros Hne Hall. induction Hall as [|x xs Hx Hall IH]; [done|]. intros acc rest.
  destruct xs as [|x' xs].
  - destruct (Hx (String "]" rest) eq_refl) as (t & Ht & k & Hk).
    exists (S k). cbn [map join parse_elements]. rewrite Ht. simpl default. rewrite Hk.
    crank. done.
  - destruct (Hx (String "," (join "," (map (fun x => default "null" (serialize x)) (x' :: xs))
                               ++ String "]" rest)) eq_refl) as (t & Ht & k & Hk).
    destruct (IH ltac:(done) (x :: acc) rest) as [k' Hk'].
    exists (S (max k k')).
    change (join "," (map (fun x => default "null" (serialize x)) (x :: x' :: xs)))
      with (default "null" (serialize x) ++ "," ++
            join "," (map (fun x => default "null" (serialize x)) (x' :: xs))).
    rewrite Ht. simpl default. rewrite !sapp_assoc.
    change ("," ++ ?y) with (String "," y).
    cbn [parse_elements]. rewrite (parse_value_more k _ _ _ _ Hk) by lia.
    crank. rewrite (parse_elements_more k' _ _ _ _ _ Hk') by lia.
    simpl. by rewrite <- app_assoc.
Qed.


Lemma dquote_opens : is_char dquote 34 = true ∧ is_ws dquote = false.
Proof. done. Qed.

(** The members of an object, read back one after the other. *)
Lemma parse_members_serialize ps :
  ps ≠ [] ->
  Forall (fun p => ∀ rest, closes rest = true ->
            ∃ t, serialize (snd p) = Some t
                 ∧ ∃ k, parse_value k (t ++ rest) = POk (snd p) rest) ps ->
  ∀ acc rest, NoDup (map fst acc ++ map fst ps) ->
  ∃ k,
    parse_members k
      (join "," (omap (fun p : string * jsval =>
                         match serialize (snd p) with
                         | Some t => Some (quote (fst p) ++ ":" ++ t)
                         | None => None
                         end) ps) ++ String "}" rest) acc
    = POk (JObj (acc ++ ps)) rest.
Proof.
  intros Hne Hall. induction Hall as [|[key x] ps Hx Hall IH]; [done|].
  intros acc rest Hnd. simpl in Hx.
  assert (Hfresh : key ∉ map fst acc).
  { apply NoDup_app in Hnd as (_ & Hd & _). intros Hin. apply (Hd key Hin). by left. }
  destruct ps as [|p' ps].
  - destruct (Hx (String "}" rest) eq_refl) as (t & Ht & k & Hk).
    exists (S k). cbn [omap list_omap join fst snd]. rewrite Ht. cbn [join].
    unfold quote. rewrite !sapp_assoc. cbn [String.append]. rewrite !sapp_assoc.
    cbn [String.append parse_members].
    rewrite skip_ws_opens by apply dquote_opens.
    rewrite (proj1 dquote_opens).
    destruct (parse_quote_body key (String ":" (t ++ String "}" rest))) as (us & -> & ->).
    crank. rewrite Hk. crank. by rewrite assoc_set_fresh.
  - set (M := fun p : string * jsval =>
                match serialize (snd p) with
                | Some t => Some (quote (fst p) ++ ":" ++ t)
                | None => None
                end) in *.
    destruct (IH ltac:(done) (acc ++ [(key, x)])%list rest) as [k' Hk'].
    { rewrite map_app, <- app_assoc. exact Hnd. }
    destruct (Hx (String "," (join "," (omap M (p' :: ps)) ++ String "}" rest)) eq_refl)
      as (t & Ht & k & Hk).
    exists (S (max k k')).
    assert (Hj : join "," (omap M ((key, x) :: p' :: ps))
                 = (quote key ++ ":" ++ t) ++ "," ++ join "," (omap M (p' :: ps))).
    { cbn [omap list_omap]. unfold M at 1. cbn [fst snd]. rewrite Ht.
      destruct (Forall_inv Hall (String "}" rest) eq_refl) as (t' & Ht' & _).
      cbn [omap list_omap].
      assert (HM : M p' = Some (quote (fst p') ++ ":" ++ t')) by (unfold M; by rewrite Ht').
      by rewrite HM. }
    rewrite Hj. clear Hj.
    unfold quote. rewrite !sapp_assoc. cbn [String.append]. rewrite !sapp_assoc.
    cbn [String.append parse_members].
    rewrite skip_ws_opens by apply dquote_opens.
    rewrite (proj1 dquote_opens).
    destruct (parse_quote_body key
                (String ":" (t ++ String "," (join "," (omap M (p' :: ps)) ++ String "}" rest))))
      as (us & -> & ->).
    crank. rewrite (parse_value_more k _ _ _ _ Hk) by lia. crank.
    rewrite assoc_set_fresh by done.
    rewrite (parse_members_more k' _ _ _ _ _ Hk') by lia.
    by rewrite <- app_assoc.
Qed.

(** What [JSON.stringify] writes for plain data, the parser reads back as
    the same value, up to whatever closes the value. *)
Lemma serialize_arr xs :
  serialize (JArr xs)
  = Some ("[" ++ join "," (map (fun x => default "null" (serialize x)) xs) ++ "]").
Proof. reflexivity. Qed.

Lemma serialize_obj ps :
  serialize (JObj ps)
  = Some ("{" ++ join "," (omap (fun p : string * jsval =>
                                   match serialize (snd p) with
                                   | Some t => Some (quote (fst p) ++ ":" ++ t)
                                   | None => None
                                   end) ps) ++ "}").
Proof. reflexivity. Qed.

Lemma parse_serialize v :
  plain v = true ->
  ∀ rest, closes rest = true ->
  ∃ t, serialize v = Some t ∧ ∃ k, parse_value k (t ++ rest) = POk v rest.
Proof.
  induction v as [| |b|neg m e|s|xs IH|ps IH] using jsval_ind_nested; intros Hp rest Hr.
  - done.
  - exists "null". split; [done|]. exists 1%nat. cbn [String.append parse_value]. crank. done.
  - destruct b; eexists; (split; [reflexivity|]); exists 1%nat;
      cbn [String.append parse_value]; crank; done.
  - eexists. split; [reflexivity|]. exists 1%nat.
    simpl in Hp. apply andb_prop in Hp as [Hp _].
    pose proof (parse_number_show neg m e rest Hr Hp) as Hn.
    destruct (show_num_head neg m e rest) as (c & s & Hs & Hc). rewrite Hs in *.
    assert (Ho : opens c ∧ is_char c 34 = false ∧ is_char c 91 = false
                 ∧ is_char c 123 = false
                 ∧ Ascii.eqb "t" c = false ∧ Ascii.eqb "f" c = false
                 ∧ Ascii.eqb "n" c = false).
    { destruct Hc as [->|Hd]; [done|]. split; [by apply digit_opens|].
      rewrite !(digit_not_char c) by (done || lia).
      repeat split; apply Ascii.eqb_neq; intros <-; by destruct Hd. }
    destruct Ho as ((Hw & _) & H34 & H91 & H123 & Ht & Hf & Hnl).
    cbn [parse_value]. rewrite skip_ws_opens by done. rewrite H34, H91, H123.
    unfold parse_literal. cbn [strip_prefix]. rewrite Ht, Hf, Hnl. by rewrite Hn.
  - eexists. split; [reflexivity|]. exists 1%nat.
    unfold quote. cbn [String.append]. rewrite ?sapp_assoc.
    cbn [String.append parse_value].
    rewrite skip_ws_opens by apply dquote_opens. rewrite (proj1 dquote_opens).
    by destruct (parse_quote_body s rest) as (us & -> & ->).
  - rewrite serialize_arr. eexists. split; [reflexivity|]. simpl in Hp.
    assert (Hall : Forall (fun x => ∀ rest, closes rest = true ->
              ∃ t, serialize x = Some t ∧ ∃ k, parse_value k (t ++ rest) = POk x rest) xs).
    { rewrite Forall_forall in IH |- *. intros x Hin. apply IH; [done|].
      rewrite forallb_forall in Hp. apply Hp. by apply list_elem_of_In. }
    rewrite ?sapp_assoc. cbn [String.append].
    destruct xs as [|x xs].
    { exists 1%nat. cbn [map join String.append parse_value]. crank. done. }
    destruct (parse_elements_serialize (x :: xs) ltac:(done) Hall [] rest) as [k Hk].
    exists (S k). cbn [parse_value]. crank.
    destruct (Forall_inv Hall (String "]" rest) eq_refl) as (t & Ht & _).
    destruct (serialize_head x t Ht) as (c & s & -> & Hw & H93 & _).
    assert (Hj : ∃ s', join "," (map (fun x => default "null" (serialize x)) (x :: xs))
                       ++ String "]" rest = String c s').
    { cbn [map]. rewrite Ht. simpl default. destruct xs; cbn [join String.append]; eauto. }
    destruct Hj as [s' Hj]. rewrite Hj in *.
    rewrite skip_ws_opens by done. by rewrite H93.
  - rewrite serialize_obj. eexists. split; [reflexivity|]. simpl in Hp.
    apply andb_prop in Hp as [[Hp Hnd]%andb_prop _].
    apply bool_decide_eq_true in Hnd.
    assert (Hall : Forall (fun p => ∀ rest, closes rest = true ->
              ∃ t, serialize (snd p) = Some t
                   ∧ ∃ k, parse_value k (t ++ rest) = POk (snd p) rest) ps).
    { rewrite Forall_forall in IH |- *. intros x Hin. apply IH; [done|].
      rewrite forallb_forall in Hp. apply Hp. by apply list_elem_of_In. }
    rewrite ?sapp_assoc. cbn [String.append].
    destruct ps as [|p ps].
    { exists 1%nat. cbn [omap list_omap join String.append parse_value]. crank. done. }
    destruct (parse_members_serialize (p :: ps) ltac:(done) Hall [] rest Hnd) as [k Hk].
    exists (S k). cbn [parse_value]. crank.
    destruct (Forall_inv Hall (String "}" rest) eq_refl) as (t & Ht & _).
    match goal with |- context [skip_ws ?text] =>
      assert (Hj : ∃ s', text = String dquote s') end.
    { cbn [omap list_omap]. rewrite Ht. unfold quote.
      destruct (omap _ ps); cbn [join String.append]; eauto. }
    destruct Hj as [s' Hj]. rewrite Hj.
    rewrite skip_ws_opens by apply dquote_opens.
    change (is_char dquote 125) with false. cbv iota. rewrite <- Hj. exact Hk.
Qed.

(** Plain data goes through [JSON.stringify] and [JSON.parse] unchanged. *)
Lemma parse_stringify v : plain v = true -> JSON.parse (JSON.stringify v) = Ok v.
Proof.
  intros Hp. destruct (parse_serialize v Hp "" eq_refl) as (t & Ht & k & Hk).
  unfold JSON.parse, JSON.stringify. rewrite Ht. simpl default.
  assert (Ht' : t ++ "" = t) by (clear; induction t as [|c t IH]; simpl; [done|by rewrite IH]).
  rewrite Ht' in Hk.
  by rewrite (parse_value_any k _ t v "" Hk (parse_never_starves t)).
Qed.

End JsonPlain.

Section AnyForm.

#[local] Arguments String.append : simpl nomatch.

Lemma chars_app a b : chars (a ++ b) = (chars a ++ chars b)%list.
Proof. induction a as [|c a IH]; simpl; [done|]. by rewrite IH. Qed.

Lemma no_lone_surrogate_ascii s :
  Forall (fun c => N_of_ascii c < 128) (chars s) -> no_lone_surrogate s = true.
Proof.
  induction s as [|c s IH]; [done|]. intros [Hc Hs]%Forall_cons. cbn [no_lone_surrogate].
  destruct s as [|c' s']; [done|]. rewrite (IH Hs), andb_true_r.
  apply negb_true_iff, andb_false_iff. left. apply N.eqb_neq. lia.
Qed.

Lemma string_of_uint_ascii d :
  Forall (fun c => N_of_ascii c < 128) (chars (NilEmpty.string_of_uint d)).
Proof.
  induction d; simpl; constructor; try done; by vm_compute.
Qed.

Lemma show_N_ascii n : Forall (fun c => N_of_ascii c < 128) (chars (JSON.show_N n)).
Proof.
  unfold JSON.show_N, NilZero.string_of_uint.
  destruct (N.to_uint n); try apply string_of_uint_ascii.
  repeat constructor; by vm_compute.
Qed.

Lemma pad_ascii k n : Forall (fun c => N_of_ascii c < 128) (chars (pad k n)).
Proof.
  unfold pad. rewrite chars_app. apply Forall_app. split; [|apply show_N_ascii].
  induction (k - String.length (JSON.show_N n))%nat as [|j IH]; [constructor|].
  rewrite zeros_cons. constructor; [by vm_compute|done].
Qed.

Lemma toISOString_plain t : no_lone_surrogate (toISOString t) = true.
Proof.
  assert (Hc : ∀ c, (N_of_ascii c <? 128) = true ->
               Forall (fun c => N_of_ascii c < 128) (chars (String c ""))).
  { intros c Hc%N.ltb_lt. by repeat constructor. }
  apply no_lone_surrogate_ascii. unfold toISOString. cbv zeta.
  rewrite !chars_app, !Forall_app.
  repeat split; try apply pad_ascii; try (by apply Hc).
  case_match; [apply pad_ascii|].
  rewrite chars_app. apply Forall_app. split; [by apply Hc|apply pad_ascii].
Qed.

(** X13. A form with text in its two fields and, beside them, any plain
    data (further fields, nested arrays and objects), saved where it fits
    the store, is read back by a later mount: the form is the saved one,
    [lastSaved] is the time of the save, nothing is logged, the component is
    mounted and its render does not throw. *)
Theorem save_then_load_any_form w f now' :
  plain f = true ->
  text_fields f = true ->
  fits f w = true ->
  let w1 := exec (saveToLocalStorage f) w in
  let w2 := mount (localStorage w1) now' in
  form w2 = f
  ∧ lastSaved w2 = JStr (toISOString (clock w))
  ∧ console w2 = []
  ∧ mounted w2 = true
  ∧ is_Some (render w2).
Proof.
  intros Hp Ht Hfit w1 w2.
  assert (Hget : items (localStorage w1) !! STORAGE_KEY = Some (record f (clock w))).
  { subst w1. rewrite (save_ok f w Hfit). apply lookup_insert_eq. }
  assert (Hparse : JSON.parse (record f (clock w))
                   = Ok (JObj [("form", f); ("timestamp", JStr (toISOString (clock w)))])).
  { apply parse_stringify. simpl. rewrite Hp, toISOString_plain. by vm_compute. }
  assert (Htr : truthy (JStr (record f (clock w))) = true).
  { unfold record, JSON.stringify. rewrite serialize_obj. by simpl. }
  assert (Hw2 : form w2 = f ∧ lastSaved w2 = JStr (toISOString (clock w))
                ∧ console w2 = [] ∧ mounted w2 = true).
  { subst w2. unfold mount.
    rewrite (mountEffects_loaded _ now' _ _ f (JStr (toISOString (clock w)))
               Hget Htr Hparse eq_refl eq_refl).
    destruct (text_fields_object f Ht) as [ps ->].
    assert (He : ∃ b, isEmptyForm (JObj ps) = Ok b).
    { unfold isEmptyForm. simpl. destruct (truthy (assoc_get ps "title")); eauto. }
    destruct He as [b He]. unfold flush. simpl. unfold_js. simpl. rewrite He.
    by destruct b. }
  destruct Hw2 as (Hf & Hl & Hc & Hm). repeat split; try done.
  apply render_text; [by rewrite Hf|by rewrite Hl].
Qed.

Lemma save_then_load_any_form_witness :
  let f := JObj [("title", JStr "a"); ("content", JStr "");
                 ("tags", JArr [JStr "x"; JNum false 3 0; JNull]);
                 ("draft", JBool true)] in
  let w := mount emptyStore 7 in
  let w2 := mount (localStorage (exec (saveToLocalStorage f) w)) 9 in
  form w2 = f ∧ mounted w2 = true.
Proof.
  intros f w w2.
  assert (Hp : plain f = true) by (vm_compute; reflexivity).
  assert (Ht : text_fields f = true) by reflexivity.
  assert (Hf : fits f w = true) by (vm_compute; reflexivity).
  pose proof (save_then_load_any_form w f 9 Hp Ht Hf) as (H1 & _ & _ & H2 & _).
  split; [exact H1|exact H2].
Defined.

End AnyForm.

(** * The hook [useLocalStorage] *)

Section HookFacts.

Import Hook.

(** Whatever [JSON.stringify] returns, the text handed to [setItem] is not
    empty. *)
Lemma stringify_truthy v : truthy (JStr (JSON.stringify v)) = true.
Proof.
  unfold JSON.stringify. destruct (JSON.serialize v) as [t|] eqn:Ht; [|done].
  by destruct (serialize_head v t Ht) as (c & s & -> & _).
Qed.

Lemma initialState_stored key init w text v :
  items (localStorage w) !! key = Some text ->
  truthy (JStr text) = true ->
  JSON.parse text = Ok v ->
  initialState key init w = (Ok v, w).
Proof.
  intros Hget Ht Hp. unfold initialState. unfold_js.
  by rewrite Hget, Ht, Hp.
Qed.

Lemma setStoredValue_ok key v h :
  has_room key (JSON.stringify v) (page h) = true ->
  items (localStorage (page (setStoredValue key v h)))
  = <[key := JSON.stringify v]> (items (localStorage (page h)))
  ∧ console (page (setStoredValue key v h)) = console (page h).
Proof.
  unfold has_room, setStoredValue. intros Hr. simpl. unfold_js. simpl.
  rewrite Hr. by destruct (page h).
Qed.

Lemma setStoredValue_full key v h :
  has_room key (JSON.stringify v) (page h) = false ->
  items (localStorage (page (setStoredValue key v h))) = items (localStorage (page h))
  ∧ console (page (setStoredValue key v h))
    = (console (page h) ++ [("Error writing to localStorage:", QuotaExceededError)])%list.
Proof.
  unfold has_room, setStoredValue. intros Hr. simpl. unfold_js. simpl.
  rewrite Hr. by destruct (page h).
Qed.

(** What the first render reads depends on the entry under its key only. *)
Lemma useLocalStorage_entry key init w w' :
  items (localStorage w) !! key = items (localStorage w') !! key ->
  value (useLocalStorage key init w) = value (useLocalStorage key init w').
Proof.
  intros He. unfold useLocalStorage, initialState. unfold_js. rewrite He.
  destruct (items (localStorage w') !! key) as [text|]; [|done].
  destruct (truthy (JStr text)); [|done]. by destruct (JSON.parse text).
Qed.

(** X14. A plain value handed to [setStoredValue] and written (the entry
    fits the store) is the state of the hook at once, and what a later
    first render of the hook on the same key starts from, whatever its
    [initialValue]; neither call logs anything. *)
Theorem stored_value_read_back key v init h :
  plain v = true ->
  has_room key (JSON.stringify v) (page h) = true ->
  let h1 := setStoredValue key v h in
  let h2 := useLocalStorage key init (page h1) in
  value h1 = v ∧ value h2 = v
  ∧ console (page h2) = console (page h)
  ∧ items (localStorage (page h2)) !! key = Some (JSON.stringify v).
Proof.
  intros Hp Hr h1 h2.
  destruct (setStoredValue_ok key v h Hr) as [Hi Hc]. fold h1 in Hi, Hc.
  assert (Hget : items (localStorage (page h1)) !! key = Some (JSON.stringify v))
    by (rewrite Hi; apply lookup_insert_eq).
  subst h2. unfold useLocalStorage.
  rewrite (initialState_stored key init (page h1) _ v Hget
             (stringify_truthy v) (parse_stringify v Hp)).
  by simpl.
Qed.

(** X15. [setStoredValue(undefined)] writes the text [undefined], which is
    no JSON: the next first render on that key logs the [SyntaxError] and
    starts from its [initialValue], while the hook that wrote it holds
    [undefined]. *)
Theorem undefined_is_not_read_back key init h :
  has_room key "undefined" (page h) = true ->
  let h1 := setStoredValue key JUndefined h in
  let h2 := useLocalStorage key init (page h1) in
  value h1 = JUndefined
  ∧ items (localStorage (page h1)) !! key = Some "undefined"
  ∧ value h2 = init
  ∧ console (page h2)
    = (console (page h1) ++ [("Error reading from localStorage:", SyntaxError)])%list.
Proof.
  intros Hr h1 h2.
  destruct (setStoredValue_ok key JUndefined h Hr) as [Hi Hc]. fold h1 in Hi, Hc.
  assert (Hget : items (localStorage (page h1)) !! key = Some "undefined")
    by (rewrite Hi; apply lookup_insert_eq).
  split; [done|]. split; [done|].
  subst h2. unfold useLocalStorage, initialState. unfold_js.
  rewrite Hget. simpl. by destruct (page h1).
Qed.

(** X16. When the entry does not fit the store, [setStoredValue] still
    sets the state: the hook shows the new value, the store keeps what it
    had, the [QuotaExceededError] is logged, and a later first render starts
    from what an earlier one would have read. *)
Theorem full_store_keeps_old_entry key v init h :
  has_room key (JSON.stringify v) (page h) = false ->
  let h1 := setStoredValue key v h in
  value h1 = v
  ∧ items (localStorage (page h1)) = items (localStorage (page h))
  ∧ console (page h1)
    = (console (page h) ++ [("Error writing to localStorage:", QuotaExceededError)])%list
  ∧ value (useLocalStorage key init (page h1)) = value (useLocalStorage key init (page h)).
Proof.
  intros Hr h1. destruct (setStoredValue_full key v h Hr) as [Hi Hc]. fold h1 in Hi, Hc.
  repeat split; try done. apply useLocalStorage_entry. by rewrite Hi.
Qed.

(** X17. A hook never disturbs a hook on another key: whatever is handed
    to [setStoredValue], and whether or not it is written, a first render on
    a different key reads what it would have read before. *)
Theorem other_keys_untouched key key' v init h :
  key ≠ key' ->
  value (useLocalStorage key' init (page (setStoredValue key v h)))
  = value (useLocalStorage key' init (page h)).
Proof.
  intros Hk. apply useLocalStorage_entry.
  destruct (has_room key (JSON.stringify v) (page h)) eqn:Hr.
  - rewrite (proj1 (setStoredValue_ok key v h Hr)). by apply lookup_insert_ne.
  - by rewrite (proj1 (setStoredValue_full key v h Hr)).
Qed.

Lemma stored_value_read_back_witness :
  let v := JObj [("name", JStr "Ada"); ("langs", JArr [JStr "ml"; JNum false 2 0])] in
  let h := useLocalStorage "profile" JNull (initialWorld emptyStore 0) in
  value (useLocalStorage "profile" (JStr "") (page (setStoredValue "profile" v h))) = v.
Proof.
  intros v h.
  assert (Hp : plain v = true) by (vm_compute; reflexivity).
  assert (Hr : has_room "profile" (JSON.stringify v) (page h) = true)
    by (vm_compute; reflexivity).
  exact (proj1 (proj2 (stored_value_read_back "profile" v (JStr "") h Hp Hr))).
Defined.

Lemma undefined_is_not_read_back_witness :
  let h := LocalStorageExample (initialWorld emptyStore 0) in
  value (useLocalStorage "name" (JStr "") (page (setStoredValue "name" JUndefined h)))
  = JStr "".
Proof.
  intros h.
  assert (Hr : has_room "name" "undefined" (page h) = true) by (vm_compute; reflexivity).
  exact (proj1 (proj2 (proj2 (undefined_is_not_read_back "name" (JStr "") h Hr)))).
Defined.

Lemma full_store_keeps_old_entry_witness :
  let h := LocalStorageExample (initialWorld tinyStore 0) in
  let h1 := onChange "Augusta Ada King" h in
  value h1 = JStr "Augusta Ada King"
  ∧ items (localStorage (page h1)) = items (localStorage (page h)).
Proof.
  intros h h1.
  assert (Hr : has_room "name" (JSON.stringify (JStr "Augusta Ada King")) (page h) = false)
    by (vm_compute; reflexivity).
  pose proof (full_store_keeps_old_entry "name" (JStr "Augusta Ada King") (JStr "") h Hr)
    as (H1 & H2 & _).
  split; [exact H1|exact H2].
Defined.

Lemma other_keys_untouched_witness :
  let h := LocalStorageExample (initialWorld emptyStore 0) in
  value (useLocalStorage "theme" JNull (page (setStoredValue "name" (JStr "Ada") h)))
  = value (useLocalStorage "theme" JNull (page h)).
Proof.
  intros h.
  assert (Hk : "name" ≠ "theme") by (intros H; discriminate H).
  exact (other_keys_untouched "name" "theme" (JStr "Ada") JNull h Hk).
Defined.

End HookFacts.

(** * The pages of [PaginatedList] *)

Section Pages.

Import PaginatedList.

Local Open Scope Z_scope.

Context {A : Type}.
Implicit Types (xs allItems : list A) (n itemsPerPage : positive).

Lemma slice_window xs (s n : Z) :
  (0 <= s)%Z -> (0 <= n)%Z ->
  slice xs s (s + n) = take (Z.to_nat n) (drop (Z.to_nat s) xs).
Proof.
  intros Hs Hn. unfold slice.
  destruct (Z.ltb_spec s 0) as [|_]; [lia|].
  destruct (Z.ltb_spec (s + n) 0) as [|_]; [lia|].
  destruct (Z_le_gt_dec s (Z.of_nat (length xs))) as [Hle|Hgt].
  - rewrite (Z.min_l s) by done.
    destruct (Z_le_gt_dec (s + n) (Z.of_nat (length xs))) as [Hle'|Hgt'].
    + rewrite Z.min_l by done. f_equal. lia.
    + rewrite Z.min_r by lia.
      rewrite !take_ge; [done| |]; rewrite length_drop; lia.
  - rewrite (Z.min_r s) by lia. rewrite Nat2Z.id, drop_all.
    rewrite (drop_ge xs (Z.to_nat s)) by lia. by rewrite !take_nil.
Qed.

Lemma totalPages_bounds allItems itemsPerPage :
  let T := totalPages allItems itemsPerPage in
  let n := Z.pos itemsPerPage in
  let len := Z.of_nat (length allItems) in
  ((T - 1) * n < len <= T * n)%Z ∨ (len = 0 ∧ T = 0)%Z.
Proof.
  intros T n len. subst T. unfold totalPages. fold len. fold n.
  assert (Hn : (0 < n)%Z) by (subst n; lia).
  assert (Hl : (0 <= len)%Z) by (subst len; lia).
  destruct (Z.eq_dec len 0) as [->|Hne]; [right; split; [done|]; by rewrite Z.div_0_l by lia|].
  left. pose proof (Z.div_mod (- len) n ltac:(lia)) as Hd.
  pose proof (Z.mod_pos_bound (- len) n Hn) as Hm. nia.
Qed.

Lemma currentItems_window allItems itemsPerPage (p : Z) :
  (1 <= p)%Z ->
  currentItems allItems itemsPerPage p
  = take (Pos.to_nat itemsPerPage)
      (drop (Z.to_nat (p - 1) * Pos.to_nat itemsPerPage) allItems).
Proof.
  intros Hp. unfold currentItems. rewrite slice_window by nia.
  rewrite Z2Nat.inj_pos, Z2Nat.inj_mul, Z2Nat.inj_pos by lia. done.
Qed.

Lemma concat_windows xs (n k : nat) :
  concat ((fun i => take n (drop (i * n) xs)) <$> seq 0 k) = take (k * n) xs.
Proof.
  induction k as [|k IH]; [by rewrite take_0|].
  rewrite seq_S, fmap_app, concat_app, IH. simpl. rewrite app_nil_r.
  by rewrite take_take_drop, Nat.add_comm.
Qed.

Lemma clicks_snoc allItems itemsPerPage bs b :
  clicks allItems itemsPerPage (bs ++ [b])
  = click allItems itemsPerPage (clicks allItems itemsPerPage bs) b.
Proof. unfold clicks. by rewrite foldl_app. Qed.

Lemma clicks_range allItems itemsPerPage bs :
  (1 <= clicks allItems itemsPerPage bs
   <= Z.max 1 (totalPages allItems itemsPerPage))%Z.
Proof.
  induction bs as [|b bs IH] using rev_ind; [unfold clicks; simpl; lia|].
  rewrite clicks_snoc. unfold click, goToPage.
  destruct b; case_match; lia.
Qed.

(** X18. Whatever buttons are clicked, the list is on one of its pages,
    and when there are items that page shows at least one and at most
    [itemsPerPage] of them. *)
Theorem shown_page_in_range allItems itemsPerPage bs :
  allItems ≠ [] ->
  let p := clicks allItems itemsPerPage bs in
  (1 <= p <= totalPages allItems itemsPerPage)%Z
  ∧ currentItems allItems itemsPerPage p ≠ []
  ∧ (length (currentItems allItems itemsPerPage p) <= Pos.to_nat itemsPerPage)%nat.
Proof.
  intros Hne p.
  pose proof (clicks_range allItems itemsPerPage bs) as Hr. fold p in Hr.
  assert (Hlen : (0 < length allItems)%nat) by (destruct allItems; [done|simpl; lia]).
  destruct (totalPages_bounds allItems itemsPerPage) as [Hb|[Hb _]]; [|lia].
  simpl in Hb.
  assert (HT : (1 <= totalPages allItems itemsPerPage)%Z) by nia.
  assert (Hp : (1 <= p <= totalPages allItems itemsPerPage)%Z) by lia.
  split; [done|]. rewrite currentItems_window by lia. split.
  - intros He. apply (f_equal length) in He. rewrite length_take, length_drop in He.
    simpl in He.
    assert (Z.of_nat (Z.to_nat (p - 1) * Pos.to_nat itemsPerPage)
            < Z.of_nat (length allItems))%Z by nia.
    lia.
  - rewrite length_take. lia.
Qed.

(** X19. The pages, one after the other, show every item once, in the
    order of the list. *)
Theorem pages_cover_items allItems itemsPerPage :
  concat (currentItems allItems itemsPerPage <$> pages allItems itemsPerPage)
  = allItems.
Proof.
  unfold pages. set (T := Z.to_nat (totalPages allItems itemsPerPage)).
  transitivity (concat ((fun i => take (Pos.to_nat itemsPerPage)
                                   (drop (i * Pos.to_nat itemsPerPage) allItems))
                        <$> seq 0 T)).
  - f_equal. rewrite <- list_fmap_compose. rewrite <- (fmap_S_seq 0 T) at 1.
    rewrite <- list_fmap_compose. apply list_fmap_ext. intros i x _. simpl.
    rewrite currentItems_window by lia. do 3 f_equal. lia.
  - rewrite concat_windows. apply take_ge.
    destruct (totalPages_bounds allItems itemsPerPage) as [Hb|[Hb _]]; simpl in Hb; [|lia].
    subst T. nia.
Qed.

End Pages.

Section TheHundredItems.

Import PaginatedList.

Lemma shown_page_in_range_witness :
  let p := clicks initialItems 10 [Next; Next; Previous; Previous; Previous; Next] in
  (1 <= p <= totalPages initialItems 10)%Z
  ∧ (length (currentItems initialItems 10 p) <= 10)%nat.
Proof.
  intros p.
  assert (Hne : initialItems ≠ []) by (intros H; discriminate H).
  pose proof (shown_page_in_range initialItems 10
                [Next; Next; Previous; Previous; Previous; Next] Hne) as (H1 & _ & H3).
  split; [exact H1|exact H3].
Defined.

End TheHundredItems.

(** * [DragAndDrop]: an item moved *)

Section Dragging.

Import DragAndDrop.

Lemma handleDragOver_moves index from st x :
  dragging st = Some from -> from ≠ index ->
  items st !! from = Some x ->
  (index < length (items st))%nat ->
  handleDragOver index st
  = {| items := (take index (delete from (items st))
                 ++ x :: drop index (delete from (items st)))%list;
       dragging := Some index |}.
Proof.
  intros Hd Hne Hx Hi. unfold handleDragOver. rewrite Hd.
  destruct (Nat.eqb_spec from index) as [|_]; [done|].
  rewrite Hx. simpl. unfold splice. f_equal. simpl.
  rewrite Nat.add_0_r.
  assert (Hdel : (take from (items st) ++ drop (from + 1) (items st))%list
                 = delete from (items st)).
  { rewrite Nat.add_1_r. clear -Hx. revert from Hx.
    induction (items st) as [|y ys IH]; intros [|k] Hk; simpl in *; try done.
    f_equal. by apply IH. }
  by rewrite Hdel.
Qed.

(** X20. While an item is dragged, passing over another element moves
    the item there: it stands at the position passed over, which
    [dragging] now holds, and the other items keep their order. *)
Theorem drag_over_moves_item index from st x :
  dragging st = Some from -> from ≠ index ->
  items st !! from = Some x ->
  (index < length (items st))%nat ->
  let st' := handleDragOver index st in
  items st' !! index = Some x
  ∧ delete index (items st') = delete from (items st)
  ∧ dragging st' = Some index
  ∧ length (items st') = length (items st).
Proof.
  intros Hd Hne Hx Hi st'. subst st'.
  rewrite (handleDragOver_moves index from st x Hd Hne Hx Hi). simpl.
  assert (Hl : length (delete from (items st)) = (length (items st) - 1)%nat)
    by (apply length_delete; eauto).
  assert (Hf : (from < length (items st))%nat) by (apply lookup_lt_is_Some; eauto).
  assert (Ht : length (take index (delete from (items st))) = index)
    by (rewrite length_take; lia).
  split; [|split; [|split]].
  - by apply list_lookup_middle.
  - rewrite <- Ht at 1. rewrite delete_middle. apply take_drop.
  - done.
  - rewrite length_app. simpl. rewrite length_drop, Ht. lia.
Qed.

(** X21. Through any drags that start and pass over elements of the
    list, the list holds the items it started with, each as often as
    before, and [dragging] is empty or the position of one of them. *)
Theorem drag_keeps_items xs es :
  Forall (fun e => on_element (length xs) e = true) es ->
  let st := run es {| items := xs; dragging := None |} in
  items st ≡ₚ xs
  ∧ ∀ from, dragging st = Some from -> (from < length xs)%nat.
Proof.
  intros Hes st. subst st.
  induction es as [|e es IH] using rev_ind; [by simpl|].
  apply Forall_app in Hes as [Hes He]. apply Forall_inv in He.
  specialize (IH Hes). unfold run in *. rewrite foldl_app. simpl.
  destruct IH as [Hp Hd].
  set (st := foldl step {| items := xs; dragging := None |} es) in *.
  assert (Hlen : length (items st) = length xs) by (by rewrite Hp).
  destruct e as [index|index|]; simpl in *.
  - split; [done|]. intros from [= <-]. by apply Nat.ltb_lt.
  - apply Nat.ltb_lt in He.
    destruct (dragging st) as [from|] eqn:Hfrom.
    + destruct (Nat.eq_dec from index) as [->|Hne].
      { unfold handleDragOver. rewrite Hfrom, Nat.eqb_refl. by rewrite Hfrom. }
      pose proof (Hd from eq_refl) as Hf.
      destruct (lookup_lt_is_Some_2 (items st) from) as [x Hx]; [lia|].
      rewrite (handleDragOver_moves index from st x Hfrom Hne Hx) by lia. simpl.
      split; [|by intros ? [= <-]].
      rewrite <- Hp. rewrite <- Permutation_middle, take_drop.
      symmetry. by apply delete_Permutation.
    + unfold handleDragOver. rewrite Hfrom. by rewrite Hfrom.
  - split; [done|]. by intros.
Qed.

Lemma drag_over_moves_item_witness :
  let st := handleDragStart 0 initialState in
  items (handleDragOver 2 st) !! 2%nat = Some (JStr "Item 1")
  ∧ delete 2%nat (items (handleDragOver 2 st)) = [JStr "Item 2"; JStr "Item 3"].
Proof.
  intros st.
  assert (Hd : dragging st = Some 0%nat) by reflexivity.
  assert (Hne : 0%nat ≠ 2%nat) by lia.
  assert (Hx : items st !! 0%nat = Some (JStr "Item 1")) by reflexivity.
  assert (Hi : (2 < length (items st))%nat) by (simpl; lia).
  pose proof (drag_over_moves_item 2 0 st (JStr "Item 1") Hd Hne Hx Hi) as (H1 & H2 & _).
  split; [exact H1|exact H2].
Defined.

Lemma drag_keeps_items_witness :
  let es := [DragStart 0; DragOver 1; DragOver 2; DragEnd; DragStart 1; DragOver 0] in
  items (run es initialState) ≡ₚ items initialState.
Proof.
  intros es.
  assert (Hes : Forall (fun e => on_element (length (items initialState)) e = true) es)
    by (repeat constructor).
  exact (proj1 (drag_keeps_items (items initialState) es Hes)).
Defined.

End Dragging.

(** * [ListManagement]: items and their ids *)

Section Items.

Import ListManagement.

Implicit Types (st : state) (x : item) (xs : list item).

Lemma toggleItem_ids i st : id <$> items (toggleItem i st) = id <$> items st.
Proof.
  unfold toggleItem. cbn [items]. induction (items st) as [|x xs IH]; [done|].
  rewrite map_cons, !fmap_cons, IH. by destruct (id x =? i).
Qed.

Lemma deleteItem_ids i st :
  id <$> items (deleteItem i st) = List.filter (fun j => negb (j =? i)) (id <$> items st).
Proof.
  unfold deleteItem. cbn [items]. induction (items st) as [|x xs IH]; [done|].
  rewrite fmap_cons. cbn [List.filter]. destruct (id x =? i); cbn [negb];
    [|rewrite fmap_cons]; by rewrite IH.
Qed.

Lemma NoDup_list_filter (f : N -> bool) (l : list N) : NoDup l -> NoDup (List.filter f l).
Proof.
  induction 1 as [|j l Hj Hl IH]; simpl; [constructor|].
  destruct (f j); [|done]. constructor; [|done].
  rewrite list_elem_of_In, filter_In, <- list_elem_of_In. tauto.
Qed.

(** Distinct ids, none above [last], stay so along a run whose clock goes
    up from [last]. *)
Lemma run_ids es : ∀ last st,
  ticking last es = true ->
  NoDup (id <$> items st) -> Forall (fun j => j <= last) (id <$> items st) ->
  NoDup (id <$> items (run es st)).
Proof.
  unfold run. induction es as [|e es IH]; intros last st Ht Hnd Hle; [done|].
  simpl. destruct e as [v|now|i|i]; simpl in Ht; cbn [step].
  - by apply (IH last).
  - apply andb_prop in Ht as [Hnow Ht]. apply N.ltb_lt in Hnow.
    unfold addItem. case_match.
    + apply (IH now); [done|done|].
      eapply Forall_impl; [exact Hle|]. simpl. intros; lia.
    + apply (IH now); [done| |]; simpl; rewrite fmap_app; simpl.
      * apply NoDup_app. split; [done|]. split; [|apply NoDup_singleton].
        intros j Hj ->%list_elem_of_singleton.
        rewrite Forall_forall in Hle. specialize (Hle now Hj). lia.
      * apply Forall_app. split; [|by repeat constructor].
        eapply Forall_impl; [exact Hle|]. simpl. intros; lia.
  - apply (IH last); [done| |]; by rewrite toggleItem_ids.
  - apply (IH last); [done| |]; rewrite deleteItem_ids.
    + by apply NoDup_list_filter.
    + rewrite Forall_forall in Hle |- *. intros j Hj. apply Hle.
      apply list_elem_of_In in Hj. apply filter_In in Hj as [Hj _]. by apply list_elem_of_In.
Qed.

(** X22. As long as no two items are added within the same millisecond
    (the readings of [Date.now()] go up from one [addItem] to the next), the
    ids of the items in the list are distinct, whatever is typed, added,
    toggled and deleted. *)
Theorem ids_stay_distinct es :
  ticking 2 es = true ->
  NoDup (id <$> items (run es initialState)).
Proof.
  intros Ht. apply (run_ids es 2); [done| |].
  - simpl. apply NoDup_cons. split; [|apply NoDup_singleton].
    by intros [=]%list_elem_of_singleton.
  - simpl. repeat constructor; lia.
Qed.

(** X23. With distinct ids, the checkbox and the button of an item act
    on that item alone: [deleteItem] takes it out of the list,
    [toggleItem] flips its [completed], and every other item stays as and
    where it is. *)
Theorem own_item_only st i x :
  NoDup (id <$> items st) ->
  items st !! i = Some x ->
  items (deleteItem (id x) st) = delete i (items st)
  ∧ items (toggleItem (id x) st) = <[i := flipped x]> (items st).
Proof.
  unfold deleteItem, toggleItem. simpl. generalize (items st). clear st.
  intros xs. revert i. induction xs as [|y ys IH]; intros i Hnd Hx; [done|].
  rewrite fmap_cons in Hnd. apply NoDup_cons in Hnd as [Hy Hnd].
  destruct i as [|i]; simpl in Hx.
  - injection Hx as ->. simpl. rewrite N.eqb_refl. simpl.
    assert (Hall : ∀ z, z ∈ ys -> (id z =? id x) = false).
    { intros z Hz. apply N.eqb_neq. intros He. apply Hy. rewrite <- He.
      apply list_elem_of_fmap. eauto. }
    split.
    + clear -Hall. induction ys as [|z zs IHz]; [done|]. simpl.
      rewrite (Hall z) by (by left). simpl. f_equal. apply IHz.
      intros z' Hz'. apply Hall. by right.
    + f_equal. clear -Hall. induction ys as [|z zs IHz]; [done|]. simpl.
      rewrite (Hall z) by (by left). f_equal. apply IHz.
      intros z' Hz'. apply Hall. by right.
  - destruct (IH i Hnd Hx) as [Hd Ht]. simpl.
    assert (Hne : (id y =? id x) = false).
    { apply N.eqb_neq. intros He. apply Hy. rewrite He.
      apply list_elem_of_fmap. exists x. split; [done|]. by eapply list_elem_of_lookup_2. }
    rewrite Hne. simpl. by rewrite Hd, Ht.
Qed.

(** X24. Two items added at the same reading of [Date.now()] carry the
    same id; a click on [Delete] of either removes both, and a click on the
    checkbox of either flips both. *)
Theorem same_tick_shares_id st now v v' :
  truthy (JStr (trim v)) = true ->
  truthy (JStr (trim v')) = true ->
  now ∉ id <$> items st ->
  let a := {| id := now; text := v; completed := false |} in
  let b := {| id := now; text := v'; completed := false |} in
  let st' := run [Input v; Add now; Input v'; Add now] st in
  items st' = (items st ++ [a; b])%list
  ∧ items (deleteItem now st') = items st
  ∧ items (toggleItem now st') = (items st ++ [flipped a; flipped b])%list.
Proof.
  intros Hv Hv' Hnow a b st'.
  assert (Hst : items st' = (items st ++ [a; b])%list).
  { subst st'. unfold run. cbn [foldl step]. unfold addItem, setInputValue.
    cbn [inputValue items]. rewrite Hv. cbn [negb inputValue items].
    rewrite Hv'. cbn [negb items]. by rewrite <- app_assoc. }
  split; [done|].
  assert (Hall : ∀ z, z ∈ items st -> (id z =? now) = false).
  { intros z Hz. apply N.eqb_neq. intros He. apply Hnow. rewrite <- He.
    apply list_elem_of_fmap. eauto. }
  unfold deleteItem, toggleItem. cbn [items]. rewrite Hst. clear Hst.
  rewrite List.filter_app, map_app. simpl. rewrite N.eqb_refl. simpl.
  rewrite app_nil_r. split.
  - clear -Hall. induction (items st) as [|z zs IHz]; [done|]. simpl.
    rewrite (Hall z) by (by left). simpl. f_equal. apply IHz.
    intros z' Hz'. apply Hall. by right.
  - f_equal. clear -Hall. induction (items st) as [|z zs IHz]; [done|]. simpl.
    rewrite (Hall z) by (by left). f_equal. apply IHz.
    intros z' Hz'. apply Hall. by right.
Qed.

(** X25. Toggling an id twice gives back the list as it was. *)
Theorem toggle_twice st i : toggleItem i (toggleItem i st) = st.
Proof.
  destruct st as [xs v]. unfold toggleItem. simpl. f_equal.
  induction xs as [|x xs IH]; [done|]. simpl. rewrite IH. f_equal.
  destruct (id x =? i) eqn:He; simpl; rewrite He; [|done].
  destruct x as [j t c]. simpl. by rewrite negb_involutive.
Qed.

Lemma ids_stay_distinct_witness :
  let es := [Input "milk"; Add 1700000000000; Toggle 1; Input "tea";
             Add 1700000000450; Delete 2] in
  NoDup (id <$> items (run es initialState)).
Proof.
  intros es.
  assert (Ht : ticking 2 es = true) by (vm_compute; reflexivity).
  exact (ids_stay_distinct es Ht).
Defined.

Lemma own_item_only_witness :
  items (deleteItem 2 initialState) = [{| id := 1; text := "Item 1"; completed := false |}]
  ∧ items (toggleItem 2 initialState)
    = [{| id := 1; text := "Item 1"; completed := false |};
       {| id := 2; text := "Item 2"; completed := false |}].
Proof.
  assert (Hnd : NoDup (id <$> items initialState)).
  { simpl. apply NoDup_cons. split; [|apply NoDup_singleton].
    by intros [=]%list_elem_of_singleton. }
  assert (Hx : items initialState !! 1%nat
               = Some {| id := 2; text := "Item 2"; completed := true |}) by reflexivity.
  exact (own_item_only initialState 1 _ Hnd Hx).
Defined.

Lemma same_tick_shares_id_witness :
  let st := run [Input "milk"; Add 1700000000000; Input "tea"; Add 1700000000000]
              initialState in
  items (deleteItem 1700000000000 st) = items initialState.
Proof.
  intros st.
  assert (Hv : truthy (JStr (trim "milk")) = true) by (vm_compute; reflexivity).
  assert (Hv' : truthy (JStr (trim "tea")) = true) by (vm_compute; reflexivity).
  assert (Hnow : 1700000000000 ∉ id <$> items initialState).
  { simpl. intros [[=]|[[=]|[]%elem_of_nil]%elem_of_cons]%elem_of_cons. }
  exact (proj1 (proj2 (same_tick_shares_id initialState 1700000000000 "milk" "tea"
                         Hv Hv' Hnow))).
Defined.

End Items.
